(** * Stremio AI Companion: query parsing and TMDB candidate matching

    A shallow embedding of [app/utils/parsing.py] and of the candidate
    filtering, deduplication and ranking of [app/services/tmdb.py]
    ([TMDBService.search_movie] and [TMDBService.search_tv]), together with
    the fragments of Python's [str], [re] and [difflib] these functions call.

    Python strings are sequences of Unicode code points and are modelled as
    [list N].  The Unicode character database is not part of the program; the
    few tables the code consults beyond ASCII are taken as parameters
    ([UnicodeTables]), so every statement below holds for whatever version
    of the database the interpreter ships. *)

From Stdlib Require Import QArith Lqa Sorted DecimalString DecimalPos.
From stdpp Require Import base option list gmap strings.

Local Open Scope N_scope.

(** ** Code points and string literals *)

Definition u (s : string) : list N :=
  Ascii.N_of_ascii <$> String.list_ascii_of_string s.

(** ** Exceptions

    Python code that can raise is embedded in the [result] monad. *)

Inductive exn : Set :=
| KeyError
| ValueError
| TypeError
| AttributeError
| ReError
| Diverges.

Inductive result (A : Type) : Type :=
| Ok (a : A)
| Raise (e : exn).
Arguments Ok {A} a.
Arguments Raise {A} e.

Definition bind {A B} (r : result A) (f : A -> result B) : result B :=
  match r with
  | Ok a => f a
  | Raise e => Raise e
  end.

Notation "x <- e ;; k" := (bind e (fun x => k))
  (at level 100, e at next level, k at level 200, right associativity).

Definition returns {A} (r : result A) : Prop := exists a, r = Ok a.

(** ** Unicode character properties *)

(** The parts of the Unicode character database used by [str.lower], [int]
    and the [re] categories [\d] and [\w] for code points above U+007F. *)
Class UnicodeTables := {
  (** [Py_UNICODE_TODECIMAL]: the value of a decimal digit (category Nd). *)
  uni_decimal : N -> option N;
  (** [Py_UNICODE_ISALPHA || Py_UNICODE_ISDIGIT || Py_UNICODE_ISNUMERIC]. *)
  uni_alnum : N -> bool;
  (** [lower_ucs4]: the lower-case expansion (one to three code points) of a
      code point, given the text before it (nearest first) and after it; the
      context only matters for the final-sigma rule. *)
  uni_lower : list N -> N -> list N -> N * list N
}.

(** [Py_UNICODE_ISSPACE], used by [str.strip], [str.split] and [\s]. *)
Definition is_space (c : N) : bool :=
  ((9 <=? c) && (c <=? 13)) || ((28 <=? c) && (c <=? 32))
  || (c =? 0x85) || (c =? 0xA0) || (c =? 0x1680)
  || ((0x2000 <=? c) && (c <=? 0x200A))
  || (c =? 0x2028) || (c =? 0x2029) || (c =? 0x202F)
  || (c =? 0x205F) || (c =? 0x3000).

Section Unicode.
Context `{UT : UnicodeTables}.

(** A table entry outside 0..9, or for a white-space code point, is not a
    decimal digit. *)
Definition decimal_value (c : N) : option N :=
  if c <? 128 then
    if (48 <=? c) && (c <=? 57) then Some (c - 48) else None
  else if is_space c then None
  else
    match uni_decimal c with
    | Some v => if v <? 10 then Some v else None
    | None => None
    end.

Definition is_decimal (c : N) : bool :=
  match decimal_value c with Some _ => true | None => false end.

Definition is_alnum (c : N) : bool :=
  if c <? 128 then
    ((48 <=? c) && (c <=? 57)) || ((65 <=? c) && (c <=? 90))
    || ((97 <=? c) && (c <=? 122))
  else uni_alnum c || is_decimal c.

(** [SRE_UNI_IS_WORD]: alphanumeric or underscore. *)
Definition is_word (c : N) : bool := is_alnum c || (c =? 95).

(** ** [str] methods *)

(** White space is uncased, ASCII letters map to ASCII letters. *)
Definition lower_at (before : list N) (c : N) (after : list N) : list N :=
  if c <? 128 then [if (65 <=? c) && (c <=? 90) then c + 32 else c]
  else if is_space c then [c]
  else let '(x, xs) := uni_lower before c after in x :: xs.

Fixpoint lower_from (before s : list N) : list N :=
  match s with
  | [] => []
  | c :: s' => lower_at before c s' ++ lower_from (c :: before) s'
  end.

(** [str.lower()] *)
Definition lower (s : list N) : list N := lower_from [] s.

Fixpoint lstrip (s : list N) : list N :=
  match s with
  | c :: s' => if is_space c then lstrip s' else s
  | [] => []
  end.

Definition rstrip (s : list N) : list N := rev (lstrip (rev s)).

(** [str.strip()] *)
Definition strip (s : list N) : list N := rstrip (lstrip s).

(** [str.split()] without arguments: maximal runs of non-space code points.
    [cur] is the word being read, reversed. *)
Fixpoint split_from (cur : list N) (s : list N) : list (list N) :=
  match s with
  | [] => match cur with [] => [] | _ => [rev cur] end
  | c :: s' =>
      if is_space c then
        match cur with
        | [] => split_from [] s'
        | _ => rev cur :: split_from [] s'
        end
      else split_from (c :: cur) s'
  end.

Definition split (s : list N) : list (list N) := split_from [] s.

(** [int(s)] on the texts the parsers pass to it.  Python's [int] also
    accepts surrounding white space, a sign and underscores; those texts are
    reported here as [ValueError], which only makes the model raise more
    often than the interpreter. *)
Fixpoint int_digits (acc : Z) (s : list N) : result Z :=
  match s with
  | [] => Ok acc
  | c :: s' =>
      match decimal_value c with
      | Some v => int_digits (10 * acc + Z.of_N v)%Z s'
      | None => Raise ValueError
      end
  end.

Definition py_int (s : list N) : result Z :=
  match s with
  | [] => Raise ValueError
  | _ => int_digits 0%Z s
  end.

End Unicode.

(** ** Regular expressions: the fragment of [re] the program uses

    Patterns are kept as the source writes them and compiled by a parser
    with the precedences of [sre_parse]: a quantifier binds to the atom
    before it, concatenation binds tighter than [|].  Supported syntax:
    literals, the escapes [\s], [\d], [\b] and escaped punctuation, sets of
    literals [[...]], groups [(...)], [(?:...)] and [(?P<name>...)], the
    anchor [$], the quantifiers [?] and [{n}] on any atom and [*] and [+] on
    a one-character atom.  Anything else is rejected as [ReError]. *)

Inductive cclass : Set :=
| CLit (c : N)          (* one literal code point *)
| CSpace                (* \s *)
| CDigit                (* \d *)
| CSet (cs : list N).   (* [...] *)

Inductive regex : Set :=
| RChar (cc : cclass)
| REps
| RSeq (r1 r2 : regex)
| RAlt (r1 r2 : regex)
| RStar (cc : cclass)            (* greedy *)
| RGroup (n : nat) (r : regex)   (* capturing group number n *)
| RWordB                         (* \b *)
| REnd.                          (* $ *)

Record pattern : Set := {
  pat_re : regex;
  pat_names : list (list N * nat)   (* named groups *)
}.

Definition ch (s : string) : N :=
  match s with
  | String a _ => Ascii.N_of_ascii a
  | EmptyString => 0
  end.

Definition is_ascii_digit (c : N) : bool := (48 <=? c) && (c <=? 57).
Definition is_ascii_alnum (c : N) : bool :=
  is_ascii_digit c || ((65 <=? c) && (c <=? 90)) || ((97 <=? c) && (c <=? 122)).

Fixpoint repeat_re (n : nat) (r : regex) : regex :=
  match n with
  | O => REps
  | S n' => RSeq r (repeat_re n' r)
  end.

(** The body of a set, after the opening bracket. *)
Fixpoint parse_set (acc : list N) (p : list N) : option (list N * list N) :=
  match p with
  | [] => None
  | c :: p' =>
      if c =? ch "]" then
        match acc with [] => None | _ => Some (rev acc, p') end
      else if (c =? ch "^") || (c =? ch "-") || (c =? ch "[") then None
      else if c =? ch "\" then
        match p' with
        | e :: p'' => if is_ascii_alnum e then None else parse_set (e :: acc) p''
        | [] => None
        end
      else parse_set (c :: acc) p'
  end.

(** The decimal count of [{n}], after the opening brace. *)
Fixpoint parse_count (acc : option nat) (p : list N) : option (nat * list N) :=
  match p with
  | [] => None
  | c :: p' =>
      if c =? ch "}" then
        match acc with Some n => Some (n, p') | None => None end
      else if is_ascii_digit c then
        parse_count (Some (10 * default 0%nat acc + N.to_nat (c - 48))%nat) p'
      else None
  end.

(** The name of [(?P<name>...)], after the opening angle bracket. *)
Fixpoint parse_name (acc : list N) (p : list N) : option (list N * list N) :=
  match p with
  | [] => None
  | c :: p' =>
      if c =? ch ">" then
        match acc with [] => None | _ => Some (rev acc, p') end
      else if is_ascii_alnum c || (c =? ch "_") then parse_name (c :: acc) p'
      else None
  end.

Definition is_quantifier (c : N) : bool :=
  (c =? ch "*") || (c =? ch "+") || (c =? ch "?") || (c =? ch "{").

(** A quantifier after the atom [a], if any.  Lazy and possessive forms (a
    quantifier followed by another one) are outside the fragment. *)
Definition parse_quant (a : regex) (p : list N) : option (regex * list N) :=
  let no_second (r : regex) (p' : list N) :=
    match p' with
    | c :: _ => if is_quantifier c then None else Some (r, p')
    | [] => Some (r, p')
    end in
  match p with
  | c :: p' =>
      if c =? ch "*" then
        match a with RChar cc => no_second (RStar cc) p' | _ => None end
      else if c =? ch "+" then
        match a with
        | RChar cc => no_second (RSeq (RChar cc) (RStar cc)) p'
        | _ => None
        end
      else if c =? ch "?" then no_second (RAlt a REps) p'
      else if c =? ch "{" then
        match parse_count None p' with
        | Some (n, p'') => no_second (repeat_re n a) p''
        | None => None
        end
      else Some (a, p)
  | [] => Some (a, p)
  end.

(** Parser state: the next free group number and the named groups so far. *)
Record pstate : Set := { next_group : nat; names : list (list N * nat) }.

Fixpoint parse_alt (fuel : nat) (p : list N) (ps : pstate)
  : option (regex * list N * pstate) :=
  match fuel with
  | O => None
  | S fuel' =>
      match parse_seq fuel' p ps with
      | Some (r1, p1, ps1) =>
          match p1 with
          | c :: p2 =>
              if c =? ch "|" then
                match parse_alt fuel' p2 ps1 with
                | Some (r2, p3, ps2) => Some (RAlt r1 r2, p3, ps2)
                | None => None
                end
              else Some (r1, p1, ps1)
          | [] => Some (r1, p1, ps1)
          end
      | None => None
      end
  end
with parse_seq (fuel : nat) (p : list N) (ps : pstate)
  : option (regex * list N * pstate) :=
  match fuel with
  | O => None
  | S fuel' =>
      match p with
      | [] => Some (REps, p, ps)
      | c :: _ =>
          if (c =? ch "|") || (c =? ch ")") then Some (REps, p, ps)
          else
            match parse_atom fuel' p ps with
            | Some (a, p1, ps1) =>
                match parse_quant a p1 with
                | Some (q, p2) =>
                    match parse_seq fuel' p2 ps1 with
                    | Some (REps, p3, ps2) => Some (q, p3, ps2)
                    | Some (r, p3, ps2) => Some (RSeq q r, p3, ps2)
                    | None => None
                    end
                | None => None
                end
            | None => None
            end
      end
  end
with parse_atom (fuel : nat) (p : list N) (ps : pstate)
  : option (regex * list N * pstate) :=
  match fuel with
  | O => None
  | S fuel' =>
      let close (p' : list N) :=
        match p' with
        | c :: p'' => if c =? ch ")" then Some p'' else None
        | [] => None
        end in
      match p with
      | [] => None
      | c :: p' =>
          if c =? ch "\" then
            match p' with
            | e :: p'' =>
                if e =? ch "s" then Some (RChar CSpace, p'', ps)
                else if e =? ch "d" then Some (RChar CDigit, p'', ps)
                else if e =? ch "b" then Some (RWordB, p'', ps)
                else if is_ascii_alnum e then None
                else Some (RChar (CLit e), p'', ps)
            | [] => None
            end
          else if c =? ch "[" then
            match parse_set [] p' with
            | Some (cs, p'') => Some (RChar (CSet cs), p'', ps)
            | None => None
            end
          else if c =? ch "$" then Some (REnd, p', ps)
          else if c =? ch "(" then
            match p' with
            | q :: p'' =>
                if q =? ch "?" then
                  match p'' with
                  | k :: p3 =>
                      if k =? ch ":" then
                        match parse_alt fuel' p3 ps with
                        | Some (r, p4, ps') =>
                            match close p4 with
                            | Some p5 => Some (r, p5, ps')
                            | None => None
                            end
                        | None => None
                        end
                      else if k =? ch "P" then
                        match p3 with
                        | lt :: p4 =>
                            if lt =? ch "<" then
                              match parse_name [] p4 with
                              | Some (nm, p5) =>
                                  let g := next_group ps in
                                  let ps1 := {| next_group := S g;
                                                names := names ps ++ [(nm, g)] |} in
                                  match parse_alt fuel' p5 ps1 with
                                  | Some (r, p6, ps') =>
                                      match close p6 with
                                      | Some p7 => Some (RGroup g r, p7, ps')
                                      | None => None
                                      end
                                  | None => None
                                  end
                              | None => None
                              end
                            else None
                        | [] => None
                        end
                      else None
                  | [] => None
                  end
                else
                  let g := next_group ps in
                  let ps1 := {| next_group := S g; names := names ps |} in
                  match parse_alt fuel' p' ps1 with
                  | Some (r, p4, ps') =>
                      match close p4 with
                      | Some p5 => Some (RGroup g r, p5, ps')
                      | None => None
                      end
                  | None => None
                  end
            | [] => None
            end
          else if is_quantifier c || (c =? ch ")") || (c =? ch "|")
                  || (c =? ch "^") || (c =? ch ".") || (c =? ch "}")
                  || (c =? ch "]") then None
          else Some (RChar (CLit c), p', ps)
      end
  end.

(** [re.compile]; the whole pattern must be consumed. *)
Definition re_compile (p : list N) : result pattern :=
  match parse_alt (4 * length p + 4) p {| next_group := 1; names := [] |} with
  | Some (r, [], ps) => Ok {| pat_re := r; pat_names := names ps |}
  | _ => Raise ReError
  end.

(** ** The backtracking matcher

    [sre] explores alternatives in priority order (left alternative first,
    greedy repetition first) and stops at the first success; the matcher
    below does the same with a success continuation.  A matcher state is the
    code point before the current position, the text from the position on
    and the groups captured so far. *)

Record mstate : Type := {
  st_prev : option N;
  st_rest : list N;
  st_groups : gmap nat (list N)
}.

Record re_match : Type := {
  m_start : nat;
  m_end : nat;
  m_groups : gmap nat (list N);
  m_names : list (list N * nat)
}.

Section Matching.
Context `{UT : UnicodeTables}.

Definition cc_test (cc : cclass) (c : N) : bool :=
  match cc with
  | CLit x => c =? x
  | CSpace => is_space c
  | CDigit => is_decimal c
  | CSet cs => existsb (N.eqb c) cs
  end.

Definition advance (c : N) (rest : list N) (st : mstate) : mstate :=
  {| st_prev := Some c; st_rest := rest; st_groups := st_groups st |}.

(** The text read between two states of one run. *)
Definition consumed (st st' : mstate) : list N :=
  take (length (st_rest st) - length (st_rest st')) (st_rest st).

Definition set_group (n : nat) (st st' : mstate) : mstate :=
  {| st_prev := st_prev st';
     st_rest := st_rest st';
     st_groups := <[n := consumed st st']> (st_groups st') |}.

(** [\b]: exactly one of the two neighbours is a word character. *)
Definition at_boundary (st : mstate) : bool :=
  xorb (match st_prev st with Some c => is_word c | None => false end)
       (match st_rest st with c :: _ => is_word c | [] => false end).

(** [$] without [re.MULTILINE]: the end of the text, or just before a final
    line feed. *)
Definition at_end (st : mstate) : bool :=
  match st_rest st with
  | [] => true
  | [c] => c =? 10
  | _ => false
  end.

Fixpoint star_match {R} (cc : cclass) (groups : gmap nat (list N))
  (prev : option N) (rest : list N) (k : mstate -> option R) : option R :=
  let here := {| st_prev := prev; st_rest := rest; st_groups := groups |} in
  match rest with
  | c :: rest' =>
      if cc_test cc c then
        match star_match cc groups (Some c) rest' k with
        | Some x => Some x
        | None => k here
        end
      else k here
  | [] => k here
  end.

Fixpoint rmatch {R} (r : regex) (st : mstate) (k : mstate -> option R)
  : option R :=
  match r with
  | RChar cc =>
      match st_rest st with
      | c :: rest => if cc_test cc c then k (advance c rest st) else None
      | [] => None
      end
  | REps => k st
  | RSeq r1 r2 => rmatch r1 st (fun st1 => rmatch r2 st1 k)
  | RAlt r1 r2 =>
      match rmatch r1 st k with
      | Some x => Some x
      | None => rmatch r2 st k
      end
  | RStar cc => star_match cc (st_groups st) (st_prev st) (st_rest st) k
  | RGroup n r1 => rmatch r1 st (fun st1 => k (set_group n st st1))
  | RWordB => if at_boundary st then k st else None
  | REnd => if at_end st then k st else None
  end.

(** One attempt at position [pos].  [must_advance] is the flag [sre] sets
    after an empty match: the next match may not be empty at that place. *)
Definition match_here (p : pattern) (must_advance : bool) (pos : nat)
  (prev : option N) (rest : list N) : option re_match :=
  rmatch (pat_re p) {| st_prev := prev; st_rest := rest; st_groups := ∅ |}
    (fun st' =>
       let n := (length rest - length (st_rest st'))%nat in
       if must_advance && (n =? 0)%nat then None
       else Some {| m_start := pos; m_end := (pos + n)%nat;
                    m_groups := st_groups st'; m_names := pat_names p |}).

(** The leftmost match at or after [pos]; the flag only concerns the first
    attempt. *)
Fixpoint search_from (p : pattern) (must_advance : bool) (pos : nat)
  (prev : option N) (rest : list N) : option re_match :=
  match match_here p must_advance pos prev rest with
  | Some m => Some m
  | None =>
      match rest with
      | [] => None
      | c :: rest' => search_from p false (S pos) (Some c) rest'
      end
  end.

(** [re.search(pattern, s)] *)
Definition re_search (pat s : list N) : result (option re_match) :=
  p <- re_compile pat ;;
  Ok (search_from p false 0 None s).

(** [match.group(n)]; [None] for a group that took no part in the match. *)
Definition group (m : re_match) (n : nat) : option (list N) := m_groups m !! n.

(** [match.group(name)] *)
Definition group_named (m : re_match) (name : list N) : result (option (list N)) :=
  match list_find (fun e => bool_decide (e.1 = name)) (m_names m) with
  | Some (_, (_, n)) => Ok (group m n)
  | None => Raise KeyError
  end.

(** The loop of [re.sub(pattern, "", s)]: every match found from left to
    right is dropped and the text between matches is kept.  After a match
    ending at [e] the search resumes at [e].  The loop runs at most twice
    per position, so [re_sub] gives it enough fuel ([sub_loop_returns]). *)
Fixpoint sub_loop (fuel : nat) (p : pattern) (must_advance : bool) (pos : nat)
  (prev : option N) (rest : list N) : option (list N) :=
  match fuel with
  | O => None
  | S fuel' =>
      match search_from p must_advance pos prev rest with
      | None => Some rest
      | Some m =>
          let b := (m_start m - pos)%nat in
          let e := (m_end m - pos)%nat in
          let prev' := match e with O => prev | S e' => rest !! e' end in
          match sub_loop fuel' p (m_end m =? m_start m)%nat (m_end m) prev'
                  (drop e rest) with
          | Some tl => Some (take b rest ++ tl)
          | None => None
          end
      end
  end.

(** [re.sub(pattern, "", s)].  [Diverges] stands for the loop running out
    of fuel, which does not happen. *)
Definition re_sub (pat s : list N) : result (list N) :=
  p <- re_compile pat ;;
  match sub_loop (2 * length s + 2) p false 0 None s with
  | Some t => Ok t
  | None => Raise Diverges
  end.

(** [int(match.group(...))]; [int(None)] is a [TypeError]. *)
Definition int_of_group (g : option (list N)) : result Z :=
  match g with
  | Some s => py_int s
  | None => Raise TypeError
  end.

End Matching.

(** * [app/utils/parsing.py] *)

(** Modelled from the spec: [app.models.enums.ContentType] is not among the
    sources; the two members [detect_user_intent] returns are the spec's
    MOVIE and SERIES, and the spec's UNKNOWN is Python's [None]. *)
Inductive ContentType : Set := MOVIE | SERIES.

Definition year_pattern : list N := u "\s*\((\d{4})\)\s*$".
Definition trailing_year_pattern : list N := u "\s+(?P<year>(19|20)\d{2})\s*$".

(** The set of the straight double quote and the four curly quotes
    U+201C, U+201D, U+2018, U+2019. *)
Definition quote_pattern : list N :=
  u "[\" ++ [34; 0x201C; 0x201D; 0x2018; 0x2019] ++ u "]".
Definition paren_year_pattern : list N := u "\((19|20)\d{2}\)".

Definition discovery_patterns : list (list N) := [
  u "\btop\b";
  u "\bbest\b";
  u "\bpopular\b";
  u "\btrending\b";
  u "\brecommend(?:ation|ations|ed|ing)?\b";
  u "\bsuggest(?:ion|ions|ed|ing)?\b";
  u "\blist\b";
  u "\branked\b";
  u "\bcollection\b";
  u "\btheme\b";
  u "\b(movies?|films?|shows?|series|tv)\b";
  u "\b(similar to|like)\b";
  u "\b2000s|1990s|1980s|1970s|1960s|1950s\b"
].

Definition bare_year_pattern : list N := u "\b(19|20)\d{2}\b".

Definition movie_patterns : list (list N) := [
  u "\bmovies?\b";
  u "\bfilms?\b";
  u "\bcinema\b";
  u "\bflicks?\b";
  u "\bmotion pictures?\b";
  u "\bfeature films?\b";
  u "\bblockbusters?\b"
].

Definition series_patterns : list (list N) := [
  u "\btv\s+shows?\b";
  u "\btelevision\s+shows?\b";
  u "\btelevision\b";
  u "\bseries\b";
  u "\bshows?\b";
  u "\btv\s+series\b";
  u "\btelevision\s+series\b";
  u "\bepisodes?\b";
  u "\bseasons?\b";
  u "\bsitcoms?\b";
  u "\bdramas?\s+series\b";
  u "\bminiseries\b";
  u "\bdocumentary\s+series\b"
].

Definition shows_pattern : list N := u "\bshows?\b".
Definition movie_shows_pattern : list N := u "\b(?:movie|film|cinema)\s+shows?\b".
Definition show_me_pattern : list N := u "\bshow\s+me\b".
Definition conjunction_pattern : list N := u "\b(?:and|or)\b".

Section Parsing.
Context `{UT : UnicodeTables}.

(** Truth value of a match object or [None]. *)
Definition found (pat s : list N) : result bool :=
  m <- re_search pat s ;;
  Ok (match m with Some _ => true | None => false end).

Definition parse_movie_with_year (movie_title : list N)
  : result (list N * option Z) :=
  m <- re_search year_pattern movie_title ;;
  match m with
  | Some m =>
      year <- int_of_group (group m 1) ;;
      title <- re_sub year_pattern movie_title ;;
      Ok (strip title, Some year)
  | None => Ok (strip movie_title, None)
  end.

(** Truth value of an [Optional[int]]: [None] and [0] are false. *)
Definition truthy_year (year : option Z) : bool :=
  match year with
  | Some y => negb (y =? 0)%Z
  | None => false
  end.

Definition parse_title_with_year (search : list N)
  : result (list N * option Z) :=
  parsed <- parse_movie_with_year search ;;
  let '(title, year) := parsed in
  if truthy_year year then Ok (title, year)
  else
    m <- re_search trailing_year_pattern search ;;
    match m with
    | Some m =>
        g <- group_named m (u "year") ;;
        year <- int_of_group g ;;
        title <- re_sub trailing_year_pattern search ;;
        Ok (strip title, Some year)
    | None => Ok (strip search, None)
    end.

(** [any(re.search(pattern, s) for pattern in patterns)] *)
Fixpoint any_found (patterns : list (list N)) (s : list N) : result bool :=
  match patterns with
  | [] => Ok false
  | pat :: patterns' =>
      b <- found pat s ;;
      if b then Ok true else any_found patterns' s
  end.

Definition is_specific_title_query (search : list N) : result bool :=
  match search with
  | [] => Ok false
  | _ =>
      let search_lower := strip (lower search) in
      quoted <- found quote_pattern search ;;
      if quoted then Ok true
      else
        paren <- found paren_year_pattern search ;;
        if paren then Ok true
        else
          discovery <- any_found discovery_patterns search_lower ;;
          if discovery then Ok false
          else
            bare <- found bare_year_pattern search_lower ;;
            if bare then Ok true
            else Ok (length (split search_lower) <=? 6)%nat
  end.

(** [sum(1 for pattern in patterns if re.search(pattern, s))] *)
Fixpoint count_found (patterns : list (list N)) (s : list N) : result nat :=
  match patterns with
  | [] => Ok 0%nat
  | pat :: patterns' =>
      b <- found pat s ;;
      n <- count_found patterns' s ;;
      Ok (if b then S n else n)
  end.

(** The loop over [series_patterns], with the special case for the bare
    [\bshows?\b] pattern. *)
Fixpoint count_series (patterns : list (list N)) (s : list N) : result nat :=
  match patterns with
  | [] => Ok 0%nat
  | pat :: patterns' =>
      b <- (if bool_decide (pat = shows_pattern) then
             shows <- found shows_pattern s ;;
             if shows then
               movie_shows <- found movie_shows_pattern s ;;
               if movie_shows then Ok false
               else
                 show_me <- found show_me_pattern s ;;
                 Ok (negb show_me)
             else Ok false
           else found pat s) ;;
      n <- count_series patterns' s ;;
      Ok (if b then S n else n)
  end.

Definition detect_user_intent (search : list N) : result (option ContentType) :=
  match search with
  | [] => Ok None
  | _ =>
      let search_lower := lower search in
      movie_matches <- count_found movie_patterns search_lower ;;
      series_matches <- count_series series_patterns search_lower ;;
      conj <- found conjunction_pattern search_lower ;;
      let has_mixed_content :=
        conj && (0 <? movie_matches)%nat && (0 <? series_matches)%nat in
      if has_mixed_content then Ok None
      else if (0 <? movie_matches)%nat && (series_matches =? 0)%nat then Ok (Some MOVIE)
      else if (0 <? series_matches)%nat && (movie_matches =? 0)%nat then Ok (Some SERIES)
      else Ok None
  end.

End Parsing.

(** Tables with nothing beyond ASCII: no further digits or letters, and
    [str.lower] leaves other code points alone. *)
Definition basic_latin : UnicodeTables := {|
  uni_decimal := fun _ => None;
  uni_alnum := fun _ => false;
  uni_lower := fun _ c _ => (c, [])
|}.


(** * [difflib.SequenceMatcher(None, a, b).ratio()]

    The matcher is built with [isjunk=None] and the default [autojunk=True],
    so no element is junk and the junk-extension loops of
    [find_longest_match] never run; elements that are "popular" in a [b] of
    200 or more elements are left out of the index [b2j]. *)

Module difflib.

Local Open Scope nat_scope.

Section SequenceMatcher.
Variables a b : list N.

(** The indices of [x] in [b], in increasing order, from offset [j]. *)
Fixpoint indices_from (j : nat) (x : N) (l : list N) : list nat :=
  match l with
  | [] => []
  | y :: l' =>
      if (x =? y)%N then j :: indices_from (S j) x l'
      else indices_from (S j) x l'
  end.

(** [__chain_b]: [b2j.get(x, [])] after the popular elements were removed. *)
Definition b2j (x : N) : list nat :=
  let idxs := indices_from 0 x b in
  let n := length b in
  if (200 <=? n) && (n / 100 + 1 <? length idxs) then [] else idxs.

(** The best match so far: [(besti, bestj, bestsize)]. *)
Definition block : Set := nat * nat * nat.

(** The inner loop of [find_longest_match] for row [i]: [j2len] belongs to
    the previous row and [newj2len] is being filled.  The key [j-1] of
    [j2len.get(j-1, 0)] is absent for [j = 0]. *)
Fixpoint scan_row (blo bhi i : nat) (js : list nat) (j2len newj2len : gmap nat nat)
  (best : block) : gmap nat nat * block :=
  match js with
  | [] => (newj2len, best)
  | j :: js' =>
      if j <? blo then scan_row blo bhi i js' j2len newj2len best
      else if bhi <=? j then (newj2len, best)
      else
        let k := S (match j with
                    | O => 0
                    | S j' => default 0 (j2len !! j')
                    end) in
        let '(_, _, bestsize) := best in
        scan_row blo bhi i js' j2len (<[j := k]> newj2len)
          (if bestsize <? k then (i + 1 - k, j + 1 - k, k) else best)
  end.

(** The outer loop, [for i in range(alo, ahi)], with [n] rows to go. *)
Fixpoint scan_rows (blo bhi : nat) (n i : nat) (j2len : gmap nat nat)
  (best : block) : block :=
  match n with
  | O => best
  | S n' =>
      let js := match a !! i with Some x => b2j x | None => [] end in
      let '(newj2len, best') := scan_row blo bhi i js j2len ∅ best in
      scan_rows blo bhi n' (S i) newj2len best'
  end.

Definition same_at (i j : nat) : bool :=
  match a !! i, b !! j with
  | Some x, Some y => (x =? y)%N
  | _, _ => false
  end.

(** [while besti > alo and bestj > blo and a[besti-1] == b[bestj-1]] *)
Fixpoint extend_left (alo blo : nat) (besti bestj bestsize : nat) : block :=
  match besti with
  | S i' =>
      match bestj with
      | S j' =>
          if (alo <? besti) && (blo <? bestj) && same_at i' j'
          then extend_left alo blo i' j' (S bestsize)
          else (besti, bestj, bestsize)
      | O => (besti, bestj, bestsize)
      end
  | O => (besti, bestj, bestsize)
  end.

(** [while besti+bestsize < ahi and bestj+bestsize < bhi and
    a[besti+bestsize] == b[bestj+bestsize]]; at most [n] rounds are left. *)
Fixpoint extend_right (n : nat) (ahi bhi : nat) (besti bestj bestsize : nat)
  : block :=
  match n with
  | O => (besti, bestj, bestsize)
  | S n' =>
      if (besti + bestsize <? ahi) && (bestj + bestsize <? bhi)
         && same_at (besti + bestsize) (bestj + bestsize)
      then extend_right n' ahi bhi besti bestj (S bestsize)
      else (besti, bestj, bestsize)
  end.

Definition find_longest_match (alo ahi blo bhi : nat) : block :=
  let '(besti, bestj, bestsize) :=
    scan_rows blo bhi (ahi - alo) alo ∅ (alo, blo, 0) in
  let '(besti, bestj, bestsize) := extend_left alo blo besti bestj bestsize in
  extend_right (ahi - (besti + bestsize)) ahi bhi besti bestj bestsize.

(** The blocks found in [a[alo:ahi]] and [b[blo:bhi]].  The source keeps a
    work list of ranges instead of recursing and sorts the blocks afterwards,
    so the order in which ranges are visited does not show.  Each range
    visited below a match is strictly shorter, hence [n = ahi - alo] levels
    suffice ([blocks_in_fuel]). *)
Fixpoint blocks_in (n : nat) (alo ahi blo bhi : nat) : list block :=
  match n with
  | O => []
  | S n' =>
      let '(i, j, k) := find_longest_match alo ahi blo bhi in
      if k =? 0 then []
      else
        (if (alo <? i) && (blo <? j) then blocks_in n' alo i blo j else [])
        ++ (i, j, k)
        :: (if (i + k <? ahi) && (j + k <? bhi)
            then blocks_in n' (i + k) ahi (j + k) bhi else [])
  end.

(** Tuple order, for [matching_blocks.sort()]. *)
Definition block_leb (x y : block) : bool :=
  let '(i1, j1, k1) := x in
  let '(i2, j2, k2) := y in
  (i1 <? i2) || ((i1 =? i2) && ((j1 <? j2) || ((j1 =? j2) && (k1 <=? k2)))).

Fixpoint insert_block (x : block) (l : list block) : list block :=
  match l with
  | [] => [x]
  | y :: l' => if block_leb x y then x :: l else y :: insert_block x l'
  end.

Definition sort_blocks (l : list block) : list block := foldr insert_block [] l.

(** The loop that merges adjacent blocks; [(i1, j1, k1)] is the block being
    grown. *)
Fixpoint collapse (i1 j1 k1 : nat) (l : list block) : list block :=
  match l with
  | [] => if k1 =? 0 then [] else [(i1, j1, k1)]
  | (i2, j2, k2) :: l' =>
      if (i1 + k1 =? i2) && (j1 + k1 =? j2) then collapse i1 j1 (k1 + k2) l'
      else (if k1 =? 0 then [] else [(i1, j1, k1)]) ++ collapse i2 j2 k2 l'
  end.

Definition get_matching_blocks : list block :=
  let la := length a in
  let lb := length b in
  collapse 0 0 0 (sort_blocks (blocks_in (S la) 0 la 0 lb)) ++ [(la, lb, 0)].

(** [sum(triple[-1] for triple in self.get_matching_blocks())] *)
Definition matches : nat := sum_list (snd <$> get_matching_blocks).

(** [_calculate_ratio].  The interpreter computes [2.0 * matches / length]
    in binary floating point; the model keeps the exact quotient.  The
    division is correctly rounded and rounding is monotone, and a quotient
    with denominator below 2^50 that differs from 1, 0.85, 0.65 or 0.4
    stays on its side of that constant after rounding, so every comparison
    the program makes has the same outcome on the exact value. *)
Definition calculate_ratio (matches length : nat) : Q :=
  match length with
  | O => 1
  | S _ => Qmake (2 * Z.of_nat matches) (Pos.of_nat length)
  end.

Definition ratio : Q := calculate_ratio matches (length a + length b).

End SequenceMatcher.
End difflib.

(** * [app/services/tmdb.py]: filtering and ranking of the search results *)

(** The values a provider record holds, as [json.loads] builds them: [None],
    [bool], [int], [float], [str], [list] and [dict]; the float the matcher
    stores under ["_score"] is one of them. *)
#[warnings="-register-all"]
Inductive value : Type :=
| VNull
| VBool (b : bool)
| VInt (z : Z)
| VFloat (q : Q)
| VStr (s : list N)
| VList (l : list value)
| VDict (d : gmap string value).

(** A candidate is a Python [dict] with string keys. *)
Abbreviation candidate := (gmap string value).

(** [hash(v)] succeeds on every value but a [list] and a [dict], on which it
    is a [TypeError]. *)
Definition hashable (v : value) : bool :=
  match v with
  | VList _ | VDict _ => false
  | _ => true
  end.

(** [==] on hashable values, as a [set] compares its members: a [bool] is
    the integer 1 or 0, and an integer equals the float of the same
    magnitude.  A [list] or a [dict] never gets into the set. *)
Definition py_eq (x y : value) : bool :=
  match x, y with
  | VNull, VNull => true
  | VBool b1, VBool b2 => (Z.b2z b1 =? Z.b2z b2)%Z
  | VBool b, VInt z => (Z.b2z b =? z)%Z
  | VInt z, VBool b => (z =? Z.b2z b)%Z
  | VBool b, VFloat q => Qeq_bool (inject_Z (Z.b2z b)) q
  | VFloat q, VBool b => Qeq_bool q (inject_Z (Z.b2z b))
  | VInt z1, VInt z2 => (z1 =? z2)%Z
  | VInt z, VFloat q => Qeq_bool (inject_Z z) q
  | VFloat q, VInt z => Qeq_bool q (inject_Z z)
  | VFloat q1, VFloat q2 => Qeq_bool q1 q2
  | VStr s1, VStr s2 => bool_decide (s1 = s2)
  | _, _ => false
  end.

Definition FUZZY_MATCH_THRESHOLD : Q := 0.85.
Definition RELAXED_MATCH_THRESHOLD : Q := 0.65.
Definition TOP_RESULT_THRESHOLD : Q := 0.40.

Section Matcher.
Context `{UT : UnicodeTables}.

(** The loop [for index, res in enumerate(tmdb_results)]; the result is the
    list [matches].  [name_field] is ["title"] for movies and ["name"] for
    series.  [.lower()] on anything but a string is an [AttributeError]. *)
Fixpoint scan (name_field : string) (title : list N) (index : nat)
  (tmdb_results : list candidate) : result (list candidate) :=
  match tmdb_results with
  | [] => Ok []
  | res :: rest =>
      match default (VStr []) (res !! name_field) with
      | VStr res_title =>
          if bool_decide (lower res_title = lower title) then
            let res := <["_score" := VFloat 1.0]> res in
            matches <- scan name_field title (S index) rest ;;
            Ok (res :: matches)
          else
            let score := difflib.ratio (lower title) (lower res_title) in
            let res := <["_score" := VFloat score]> res in
            matches <- scan name_field title (S index) rest ;;
            if Qle_bool FUZZY_MATCH_THRESHOLD score then Ok (res :: matches)
            else if Qle_bool RELAXED_MATCH_THRESHOLD score then Ok (res :: matches)
            else if (index =? 0)%nat && Qle_bool TOP_RESULT_THRESHOLD score
                 then Ok (res :: matches)
            else Ok matches
      | _ => Raise AttributeError
      end
  end.

(** The deduplication loop; [seen_ids] is the set of identifiers met so far.
    [m["id"]] is a [KeyError] when the key is missing, and the test
    [not in seen_ids] hashes the identifier first, which is a [TypeError]
    when it is a [list] or a [dict]. *)
Fixpoint dedup (matches : list candidate) (seen_ids : list value)
  : result (list candidate) :=
  match matches with
  | [] => Ok []
  | m :: rest =>
      match m !! "id" with
      | Some id =>
          if hashable id then
            if existsb (py_eq id) seen_ids then dedup rest seen_ids
            else
              unique_matches <- dedup rest (id :: seen_ids) ;;
              Ok (m :: unique_matches)
          else Raise TypeError
      | None => Raise KeyError
      end
  end.

(** The sort key [x.get("_score", 0)].  Keys are compared as numbers; a key
    that is no number is reported as the [TypeError] its comparison raises. *)
Definition score_key (x : candidate) : result Q :=
  match default (VInt 0) (x !! "_score") with
  | VFloat q => Ok q
  | VInt z => Ok (inject_Z z)
  | VBool b => Ok (inject_Z (Z.b2z b))
  | _ => Raise TypeError
  end.

Fixpoint decorate (l : list candidate) : result (list (Q * candidate)) :=
  match l with
  | [] => Ok []
  | x :: l' =>
      key <- score_key x ;;
      keyed <- decorate l' ;;
      Ok ((key, x) :: keyed)
  end.

(** [list.sort(key=..., reverse=True)] is stable: entries with equal keys
    keep their order.  [x] comes from the left of everything in [l]. *)
Fixpoint insert_desc (x : Q * candidate) (l : list (Q * candidate))
  : list (Q * candidate) :=
  match l with
  | [] => [x]
  | y :: l' =>
      if Qle_bool (fst y) (fst x) then x :: l else y :: insert_desc x l'
  end.

Definition sort_desc (l : list (Q * candidate)) : list (Q * candidate) :=
  foldr insert_desc [] l.

(** Everything after the request: [tmdb_results] is [data["results"]], or
    the empty list when the request failed or found nothing. *)
Definition match_candidates (name_field : string) (title : list N)
  (tmdb_results : list candidate) : result (list candidate) :=
  match tmdb_results with
  | [] => Ok []
  | _ =>
      matches <- scan name_field title 0 tmdb_results ;;
      unique_matches <- dedup matches [] ;;
      keyed <- decorate unique_matches ;;
      Ok (take 5 (snd <$> sort_desc keyed))
  end.

Definition search_movie (title : list N) (tmdb_results : list candidate)
  : result (list candidate) :=
  match_candidates "title" title tmdb_results.

Definition search_tv (title : list N) (tmdb_results : list candidate)
  : result (list candidate) :=
  match_candidates "name" title tmdb_results.

End Matcher.

(** * [app/services/tmdb.py]: the parameters of a search request *)

(** [str(n)] for an [int]: the decimal digits, with a minus sign in front
    of a negative number. *)
Definition py_str (z : Z) : list N := u (NilZero.string_of_int (Z.to_int z)).

(** [TMDBSearchParams]; the subclasses [TMDBMovieSearchParams] and
    [TMDBTVSearchParams] add no field, only the property [api_params]. *)
Record TMDBSearchParams : Type := {
  query : list N;
  language : list N;
  page : Z;
  year : option Z
}.

(** The entries the two [api_params] properties have in common. *)
Definition base_params (self : TMDBSearchParams) : gmap string (list N) :=
  {[ "query" := query self;
     "include_adult" := u "false";
     "language" := language self;
     "page" := py_str (page self) ]}.

(** [if self.year: params[year_key] = str(self.year)] *)
Definition with_year (year_key : string) (self : TMDBSearchParams)
  (params : gmap string (list N)) : gmap string (list N) :=
  match year self with
  | Some y =>
      if truthy_year (Some y) then <[year_key := py_str y]> params else params
  | None => params
  end.

(** [TMDBMovieSearchParams.api_params] *)
Definition movie_api_params (self : TMDBSearchParams) : gmap string (list N) :=
  with_year "primary_release_year" self (base_params self).

(** [TMDBTVSearchParams.api_params] *)
Definition tv_api_params (self : TMDBSearchParams) : gmap string (list N) :=
  with_year "first_air_date_year" self (base_params self).

(** The parameters [search_movie] and [search_tv] build from their
    arguments and [self.language]; [page] keeps its default. *)
Definition search_params (language title : list N) (year : option Z)
  : TMDBSearchParams :=
  {| query := title; language := language; page := 1; year := year |}.

(** * Vocabulary of the statements *)

Section MatchesRelation.
Context `{UT : UnicodeTables}.

(** What a successful run of the matcher reads: a declarative account of
    the pattern language, without priorities. *)
Inductive Matches : regex -> mstate -> mstate -> Prop :=
| M_char cc c rest st :
    st_rest st = c :: rest -> cc_test cc c = true ->
    Matches (RChar cc) st (advance c rest st)
| M_eps st : Matches REps st st
| M_seq r1 r2 st st1 st2 :
    Matches r1 st st1 -> Matches r2 st1 st2 -> Matches (RSeq r1 r2) st st2
| M_alt_l r1 r2 st st' : Matches r1 st st' -> Matches (RAlt r1 r2) st st'
| M_alt_r r1 r2 st st' : Matches r2 st st' -> Matches (RAlt r1 r2) st st'
| M_star_stop cc st : Matches (RStar cc) st st
| M_star_step cc c rest st st' :
    st_rest st = c :: rest -> cc_test cc c = true ->
    Matches (RStar cc) (advance c rest st) st' ->
    Matches (RStar cc) st st'
| M_group n r st st1 :
    Matches r st st1 -> Matches (RGroup n r) st (set_group n st st1)
| M_wordb st : at_boundary st = true -> Matches RWordB st st
| M_end st : at_end st = true -> Matches REnd st st.

End MatchesRelation.

(** The compiled form of the constant patterns. *)
Definition compiled (pat : list N) : pattern :=
  match re_compile pat with
  | Ok p => p
  | Raise _ => {| pat_re := REps; pat_names := [] |}
  end.

Definition year_re : pattern := Eval vm_compute in compiled year_pattern.
Definition trailing_year_re : pattern :=
  Eval vm_compute in compiled trailing_year_pattern.
Definition quote_re : pattern := Eval vm_compute in compiled quote_pattern.
Definition paren_year_re : pattern :=
  Eval vm_compute in compiled paren_year_pattern.

(** The code point in front of the position after reading [run]. *)
Fixpoint prev_after (prev : option N) (run : list N) : option N :=
  match run with
  | [] => prev
  | c :: run' => prev_after (Some c) run'
  end.

(** The two digits [19] or [20]. *)
Definition century (c1 c2 : N) : Prop :=
  (c1 = 49 /\ c2 = 57) \/ (c1 = 50 /\ c2 = 48).

(** The number that four decimal digits with the values [v1] to [v4] spell. *)
Definition number4 (v1 v2 v3 v4 : N) : Z :=
  (1000 * Z.of_N v1 + 100 * Z.of_N v2 + 10 * Z.of_N v3 + Z.of_N v4)%Z.

(** Vocabulary for [difflib]. *)
Module difflib_spec.
Import difflib.
Local Open Scope nat_scope.

Section Spec.
Variables a b : list N.

(** [a[i:i+k] == b[j:j+k]] *)
Definition matching (i j k : nat) : Prop :=
  forall t, t < k -> a !! (i + t) = b !! (j + t).

(** A block inside [a[alo:ahi]] and [b[blo:bhi]] whose two sides agree. *)
Definition block_ok (alo ahi blo bhi : nat) (x : block) : Prop :=
  let '(i, j, k) := x in
  alo <= i /\ i + k <= ahi /\ blo <= j /\ j + k <= bhi /\ matching i j k.

(** The entries of [j2len] after the rows below [n]: [k] is the length of a
    match ending at [a[n-1]] and [b[j]]. *)
Definition j2len_ok (alo blo bhi n : nat) (m : gmap nat nat) : Prop :=
  forall j k, m !! j = Some k ->
    1 <= k /\ alo + k <= n /\ blo + k <= j + 1 /\ j < bhi
    /\ matching (n - k) (j + 1 - k) k.

End Spec.

(** The sum of the sizes of a list of blocks. *)
Definition size (x : block) : nat := snd x.
Definition total (l : list block) : nat := sum_list (size <$> l).

End difflib_spec.

(** Vocabulary for the matcher. *)
Section Vocabulary.
Context `{UT : UnicodeTables}.

(** The display name [res.get(name_field, "")], when it is a string. *)
Definition name_of (name_field : string) (c : candidate) : option (list N) :=
  match default (VStr []) (c !! name_field) with
  | VStr s => Some s
  | _ => None
  end.

(** The record carries an identifier that can be a member of a [set]. *)
Definition hashable_id (c : candidate) : Prop :=
  exists v, c !! "id" = Some v /\ hashable v = true.

(** A record the matcher can process: it carries a hashable identifier, and
    its display name, if present, is a string. *)
Definition well_formed (name_field : string) (c : candidate) : Prop :=
  hashable_id c /\ is_Some (name_of name_field c).

(** Case-insensitive equality of the display name and the query title. *)
Definition exact (name_field : string) (title : list N) (c : candidate) : bool :=
  match name_of name_field c with
  | Some n => bool_decide (lower n = lower title)
  | None => false
  end.

(** The score the loop stores in a record. *)
Definition score_of (name_field : string) (title : list N) (c : candidate) : Q :=
  match name_of name_field c with
  | Some n =>
      if bool_decide (lower n = lower title) then 1.0
      else difflib.ratio (lower title) (lower n)
  | None => 0
  end.

Definition scored (name_field : string) (title : list N) (c : candidate)
  : candidate :=
  <["_score" := VFloat (score_of name_field title c)]> c.

(** Whether the loop appends the record at position [index]. *)
Definition kept (name_field : string) (title : list N) (index : nat)
  (c : candidate) : bool :=
  exact name_field title c
  || Qle_bool FUZZY_MATCH_THRESHOLD (score_of name_field title c)
  || Qle_bool RELAXED_MATCH_THRESHOLD (score_of name_field title c)
  || ((index =? 0)%nat
      && Qle_bool TOP_RESULT_THRESHOLD (score_of name_field title c)).

(** The records the loop appends, in provider order. *)
Fixpoint select (name_field : string) (title : list N) (index : nat)
  (results : list candidate) : list candidate :=
  match results with
  | [] => []
  | c :: rest =>
      if kept name_field title index c
      then scored name_field title c :: select name_field title (S index) rest
      else select name_field title (S index) rest
  end.

(** The float under ["_score"]. *)
Definition score (x : candidate) : Q :=
  match x !! "_score" with
  | Some (VFloat q) => q
  | _ => 0
  end.

(** Two records carry the same identifier. *)
Definition same_id (x y : candidate) : bool :=
  match x !! "id", y !! "id" with
  | Some v, Some w => py_eq v w
  | _, _ => false
  end.

(** Records with pairwise different identifiers. *)
Definition distinct_ids (l : list candidate) : Prop :=
  forall i j x y, i <> j -> l !! i = Some x -> l !! j = Some y ->
    same_id x y = false.

(** [x] is the first record of [l] with its identifier. *)
Definition first_with_id (l : list candidate) (x : candidate) : Prop :=
  exists pre post, l = pre ++ x :: post /\ forall y, y ∈ pre -> same_id x y = false.

End Vocabulary.

(** [list.sort] computes every key once. *)
Definition keyed (l : list candidate) : list (Q * candidate) :=
  (fun x => (score x, x)) <$> l.

(** [unique_matches] after the sort. *)
Definition ranked (l : list candidate) : list candidate :=
  snd <$> sort_desc (keyed l).

(** The entries whose score equals [q]. *)
Definition with_score (q : Q) (l : list candidate) : list candidate :=
  List.filter (fun x => Qeq_bool (score x) q) l.

Definition has_score (x : candidate) : Prop :=
  exists q, x !! "_score" = Some (VFloat q).

(** The order of the sorted keys, and the entries with key [q]. *)
Definition key_desc (p q : Q * candidate) : Prop := (fst q <= fst p)%Q.
Definition with_key (q : Q) (l : list (Q * candidate)) : list (Q * candidate) :=
  List.filter (fun p => Qeq_bool (fst p) q) l.

Section RankingVocabulary.
Context `{UT : UnicodeTables}.

(** A ranking of at most five records with pairwise different identifiers,
    each the first kept record with its identifier, sorted by score, equal
    scores in provider order. *)
Definition ranking_ok (name_field : string) (title : list N)
  (results ranking : list candidate) : Prop :=
  (length ranking <= 5)%nat
  /\ distinct_ids ranking
  /\ (forall x, x ∈ ranking -> first_with_id (select name_field title 0 results) x)
  /\ StronglySorted (fun x y => (score y <= score x)%Q) ranking
  /\ (forall q, sublist (with_score q ranking) (scored name_field title <$> results)).

End RankingVocabulary.

Section EndpointVocabulary.
Context `{UT : UnicodeTables}.

(** The two search functions and the key each reads the display name from. *)
Inductive search_endpoint
  : string -> (list N -> list candidate -> result (list candidate)) -> Prop :=
| endpoint_movie : search_endpoint "title" search_movie
| endpoint_tv : search_endpoint "name" search_tv.

End EndpointVocabulary.

(** The two [api_params] properties and the key each files the year under. *)
Inductive api_params_of
  : string -> (TMDBSearchParams -> gmap string (list N)) -> Prop :=
| api_params_movie : api_params_of "primary_release_year" movie_api_params
| api_params_tv : api_params_of "first_air_date_year" tv_api_params.

(** Vocabulary for the classifiers. *)

(** [w] is a piece of the text [s]. *)
Definition occurs_in (w s : list N) : Prop := exists pre post, s = pre ++ w ++ post.

(** The code points of the quote pattern. *)
Definition quote_chars : list N := [34; 0x201C; 0x201D; 0x2018; 0x2019].

Definition has_quote (s : list N) : Prop := Exists (fun c => c ∈ quote_chars) s.

(** The last of the discovery patterns. *)
Definition decade_pattern : list N := u "\b2000s|1990s|1980s|1970s|1960s|1950s\b".
Definition decade_re : pattern := Eval vm_compute in compiled decade_pattern.

(** Words some piece of which every match of a discovery pattern contains,
    and the two centuries of the year patterns. *)
Definition discovery_words : list (list N) :=
  [u "top"; u "best"; u "popular"; u "trending"; u "recommend"; u "suggest";
   u "list"; u "ranked"; u "collection"; u "theme"; u "movie"; u "film";
   u "show"; u "series"; u "tv"; u "similar to"; u "like"; u "2000s"; u "1990s";
   u "1980s"; u "1970s"; u "1960s"; u "1950s"].
Definition century_words : list (list N) := [u "19"; u "20"].

(** The same for the patterns of [detect_user_intent]. *)
Definition movie_words : list (list N) :=
  [u "movie"; u "film"; u "cinema"; u "flick"; u "motion picture"; u "blockbuster"].
Definition series_words : list (list N) :=
  [u "show"; u "television"; u "series"; u "episode"; u "season"; u "sitcom"].

(** The words that have a pattern [\b<w>\b] or [\b<w>s?\b] of their own in
    [movie_patterns] and in [series_patterns]; [show] is left out for its
    special case. *)
Definition movie_terms : list (list N) :=
  [u "movie"; u "movies"; u "film"; u "films"; u "cinema"; u "flick"; u "flicks";
   u "motion picture"; u "motion pictures"; u "feature film"; u "feature films";
   u "blockbuster"; u "blockbusters"].
Definition series_terms : list (list N) :=
  [u "television"; u "series"; u "episode"; u "episodes"; u "season"; u "seasons";
   u "sitcom"; u "sitcoms"; u "miniseries"].

(** The texts a pattern can read, as sequences of literal code points and
    gaps ([None]) that stand for any text. *)
Definition shape : Set := list (option N).

Fixpoint shapes (r : regex) : list shape :=
  match r with
  | RChar (CLit c) => [[Some c]]
  | RChar _ => [[None]]
  | REps => [[]]
  | RSeq r1 r2 => a ← shapes r1; b ← shapes r2; [a ++ b]
  | RAlt r1 r2 => shapes r1 ++ shapes r2
  | RStar _ => [[None]]
  | RGroup _ r1 => shapes r1
  | RWordB => [[]]
  | REnd => [[]]
  end.

Fixpoint fits (sh : shape) (t : list N) : Prop :=
  match sh with
  | [] => t = []
  | Some c :: sh' => exists t', t = c :: t' /\ fits sh' t'
  | None :: sh' => exists gap t', t = gap ++ t' /\ fits sh' t'
  end.

Fixpoint starts_with (x l : shape) : bool :=
  match x, l with
  | [], _ => true
  | a :: x', b :: l' => bool_decide (a = b) && starts_with x' l'
  | _ :: _, [] => false
  end.

Fixpoint contains (x l : shape) : bool :=
  starts_with x l || match l with [] => false | _ :: l' => contains x l' end.

(** Every text the pattern reads contains one of the words. *)
Definition covered (words : list (list N)) (r : regex) : bool :=
  forallb (fun sh => existsb (fun w => contains (Some <$> w) sh) words) (shapes r).

Definition covers (words : list (list N)) (pat : list N) : Prop :=
  exists p, re_compile pat = Ok p /\ covered words (pat_re p) = true.

#[global] Instance cclass_eq_dec : EqDecision cclass.
Proof. solve_decision. Defined.
#[global] Instance regex_eq_dec : EqDecision regex.
Proof. solve_decision. Defined.

(** The compiled form of [\b<w>\b] for a literal [w], and of [\b<w>s?\b]. *)
Definition word_re (w : list N) (tail : regex) : regex :=
  foldr (fun c r => RSeq (RChar (CLit c)) r) tail w.
Definition plain_re (w : list N) : regex := RSeq RWordB (word_re w RWordB).
Definition plural_re (w : list N) : regex :=
  RSeq RWordB (word_re w (RSeq (RAlt (RChar (CLit 115)) REps) RWordB)).

(** [pat] is the pattern of the word [w]: [\b<w>\b], [\b<w>s?\b], or
    [\b<v>s?\b] with [w = v ++ "s"]. *)
Definition pattern_of_term (w pat : list N) : bool :=
  match re_compile pat with
  | Ok p =>
      bool_decide (pat_re p = plain_re w)
      || bool_decide (pat_re p = plural_re w)
      || (bool_decide (last w = Some 115)
          && bool_decide (pat_re p = plural_re (removelast w)))
  | Raise _ => false
  end.

Section ClassifierVocabulary.
Context `{UT : UnicodeTables}.

(** A parenthesized year of century 19 or 20 somewhere in the text. *)
Definition has_paren_year (s : list N) : Prop :=
  exists pre c1 c2 d3 d4 post,
    s = pre ++ 40 :: c1 :: c2 :: d3 :: d4 :: 41 :: post
    /\ century c1 c2 /\ is_decimal d3 = true /\ is_decimal d4 = true.

(** The text in front of a position ends with a word character, the text
    behind it starts with one. *)
Definition ends_word (pre : list N) : bool :=
  match last pre with Some c => is_word c | None => false end.
Definition starts_word (post : list N) : bool :=
  match post with c :: _ => is_word c | [] => false end.

End ClassifierVocabulary.

(** ** Tactics *)

(** A constant pattern compiles. *)
Ltac compiles := vm_compute; eexists; reflexivity.

(** Boolean tests on code points, as propositions. *)
Ltac bool_to_prop :=
  repeat match goal with
  | H : (_ || _) = true |- _ => apply orb_true_iff in H as [H|H]
  | H : (_ && _) = true |- _ => apply andb_true_iff in H as [? H]
  | H : (_ || _) = false |- _ => apply orb_false_iff in H as [? H]
  | H : (_ <=? _) = true |- _ => apply N.leb_le in H
  | H : (_ <=? _) = false |- _ => apply N.leb_gt in H
  | H : (_ <? _) = true |- _ => apply N.ltb_lt in H
  | H : (_ <? _) = false |- _ => apply N.ltb_ge in H
  | H : (_ =? _) = true |- _ => apply N.eqb_eq in H
  | H : (_ =? _) = false |- _ => apply N.eqb_neq in H
  end.

(** A list of concrete records is well formed. *)
Ltac well_formed_records :=
  repeat first [apply Forall_cons_2 | apply Forall_nil_2];
  (split; [eexists; split; reflexivity | eexists; reflexivity]).

(** * Properties of the matcher *)

Section MatcherFacts.
Context `{UT : UnicodeTables}.

Lemma star_match_sound {R} cc groups prev rest (k : mstate -> option R) x :
  star_match cc groups prev rest k = Some x ->
  exists st',
    Matches (RStar cc) {| st_prev := prev; st_rest := rest; st_groups := groups |} st'
    /\ k st' = Some x.
Proof.
  revert prev. induction rest as [|c rest IH]; intros prev H; simpl in H.
  - eexists; split; [apply M_star_stop | exact H].
  - destruct (cc_test cc c) eqn:Hc.
    + destruct (star_match cc groups (Some c) rest k) eqn:Hs.
      * injection H as ->. destruct (IH _ Hs) as (st' & Hm & Hk).
        exists st'. split; [|exact Hk].
        eapply M_star_step; [reflexivity | exact Hc | exact Hm].
      * eexists; split; [apply M_star_stop | exact H].
    + eexists; split; [apply M_star_stop | exact H].
Qed.

Lemma rmatch_sound {R} r : forall st (k : mstate -> option R) x,
  rmatch r st k = Some x ->
  exists st', Matches r st st' /\ k st' = Some x.
Proof.
  induction r as [cc| |r1 IH1 r2 IH2|r1 IH1 r2 IH2|cc|n r IH| |];
    intros st k x H; simpl in H.
  - destruct (st_rest st) as [|c rest] eqn:Hr; [discriminate|].
    destruct (cc_test cc c) eqn:Hc; [|discriminate].
    eexists; split; [eapply M_char; eassumption | exact H].
  - eexists; split; [apply M_eps | exact H].
  - destruct (IH1 _ _ _ H) as (st1 & H1 & Hk1).
    destruct (IH2 _ _ _ Hk1) as (st2 & H2 & Hk2).
    exists st2. split; [eapply M_seq; eassumption | exact Hk2].
  - destruct (rmatch r1 st k) eqn:H1.
    + injection H as ->. destruct (IH1 _ _ _ H1) as (st' & Hm & Hk).
      exists st'. split; [by apply M_alt_l | exact Hk].
    + destruct (IH2 _ _ _ H) as (st' & Hm & Hk).
      exists st'. split; [by apply M_alt_r | exact Hk].
  - destruct st as [prev rest groups]. simpl in H.
    by apply star_match_sound.
  - destruct (IH _ _ _ H) as (st1 & H1 & Hk1).
    eexists; split; [apply M_group; eassumption | exact Hk1].
  - destruct (at_boundary st) eqn:Hb; [|discriminate].
    eexists; split; [by apply M_wordb | exact H].
  - destruct (at_end st) eqn:He; [|discriminate].
    eexists; split; [by apply M_end | exact H].
Qed.

(** A run reads a prefix of the text in front of it. *)
Lemma Matches_suffix r st st' :
  Matches r st st' -> exists pre, st_rest st = pre ++ st_rest st'.
Proof.
  induction 1 as [cc c rest st Hr Hc| |r1 r2 st st1 st2 _ IH1 _ IH2| | |
                  |cc c rest st st' Hr Hc _ IH|n r st st1 _ IH| |]; simpl.
  - exists [c]. by rewrite Hr.
  - by exists [].
  - destruct IH1 as [p1 ->], IH2 as [p2 ->]. exists (p1 ++ p2). by rewrite <-app_assoc.
  - done.
  - done.
  - by exists [].
  - destruct IH as [p Hp]. simpl in Hp. exists (c :: p). by rewrite Hr, Hp.
  - done.
  - by exists [].
  - by exists [].
Qed.

Lemma Matches_length r st st' :
  Matches r st st' -> (length (st_rest st') <= length (st_rest st))%nat.
Proof.
  intros H. destruct (Matches_suffix _ _ _ H) as [pre ->].
  rewrite length_app. lia.
Qed.

Lemma consumed_app st st' pre :
  st_rest st = pre ++ st_rest st' -> consumed st st' = pre.
Proof.
  intros H. unfold consumed. rewrite H, length_app.
  replace (length pre + length (st_rest st') - length (st_rest st'))%nat
    with (length pre) by lia.
  by rewrite take_app_length.
Qed.

Lemma match_here_sound p ma pos prev rest m :
  match_here p ma pos prev rest = Some m ->
  exists st',
    Matches (pat_re p) {| st_prev := prev; st_rest := rest; st_groups := ∅ |} st'
    /\ m_start m = pos
    /\ m_end m = (pos + (length rest - length (st_rest st')))%nat
    /\ m_groups m = st_groups st'
    /\ m_names m = pat_names p
    /\ (ma = true -> (length (st_rest st') < length rest)%nat).
Proof.
  unfold match_here. intros H.
  apply rmatch_sound in H as (st' & Hm & Hk).
  exists st'. split; [exact Hm|].
  pose proof (Matches_length _ _ _ Hm) as Hlen. simpl in Hlen.
  destruct (ma && (length rest - length (st_rest st') =? 0)%nat) eqn:Hadv;
    [discriminate|].
  injection Hk as <-. simpl. repeat split.
  intros ->. simpl in Hadv. apply Nat.eqb_neq in Hadv. lia.
Qed.

(** A match found by the search: [skipped] is the text in front of it. *)
Lemma search_from_sound p : forall rest ma pos prev m,
  search_from p ma pos prev rest = Some m ->
  exists skipped rest1 prev1 st',
    rest = skipped ++ rest1
    /\ Matches (pat_re p)
         {| st_prev := prev1; st_rest := rest1; st_groups := ∅ |} st'
    /\ m_start m = (pos + length skipped)%nat
    /\ m_end m = (m_start m + (length rest1 - length (st_rest st')))%nat
    /\ m_groups m = st_groups st'
    /\ m_names m = pat_names p
    /\ (ma = true -> skipped = [] -> (length (st_rest st') < length rest1)%nat).
Proof.
  induction rest as [|c rest IH]; intros ma pos prev m H; simpl in H.
  - destruct (match_here p ma pos prev []) eqn:Hh; [|discriminate].
    injection H as ->.
    apply match_here_sound in Hh as (st' & Hm & Hs & He & Hg & Hn & Ha).
    exists [], [], prev, st'. simpl. rewrite Hs, Nat.add_0_r.
    repeat split; try done. intros; by apply Ha.
  - destruct (match_here p ma pos prev (c :: rest)) eqn:Hh.
    + injection H as ->.
      apply match_here_sound in Hh as (st' & Hm & Hs & He & Hg & Hn & Ha).
      exists [], (c :: rest), prev, st'. simpl. rewrite Hs, Nat.add_0_r.
      repeat split; try done. intros; by apply Ha.
    + apply IH in H as (sk & rest1 & prev1 & st' & -> & Hm & Hs & He & Hg & Hn & _).
      exists (c :: sk), rest1, prev1, st'. simpl.
      repeat split; try done. lia.
Qed.

(** The loop of [re.sub] ends: each round either shortens the text left or
    sets [must_advance]. *)
Lemma sub_loop_returns p : forall fuel (ma : bool) pos prev (rest : list N),
  (2 * length rest + (if ma then 0 else 1) < fuel)%nat ->
  is_Some (sub_loop fuel p ma pos prev rest).
Proof.
  induction fuel as [|fuel IH]; intros ma pos prev rest Hf; [lia|].
  simpl. destruct (search_from p ma pos prev rest) as [m|] eqn:Hs; [|by eexists].
  apply search_from_sound in Hs
    as (sk & rest1 & prev1 & st' & -> & Hm & Hst & He & _ & _ & Ha).
  pose proof (Matches_length _ _ _ Hm) as Hlen. simpl in Hlen.
  set (e := (m_end m - pos)%nat).
  set (prev' := match e with O => prev | S e' => (sk ++ rest1) !! e' end).
  destruct (IH (m_end m =? m_start m)%nat (m_end m) prev' (drop e (sk ++ rest1)))
    as [tl Htl].
  - rewrite length_drop, length_app in *. subst e.
    destruct (m_end m =? m_start m)%nat eqn:Hem.
    + apply Nat.eqb_eq in Hem. destruct ma.
      * destruct sk as [|c sk]; simpl in *; [specialize (Ha eq_refl eq_refl)|]; lia.
      * lia.
    + apply Nat.eqb_neq in Hem. destruct ma; lia.
  - rewrite Htl. by eexists.
Qed.

Lemma Matches_star cc st st' :
  Matches (RStar cc) st st' ->
  st_groups st' = st_groups st
  /\ exists run, st_rest st = run ++ st_rest st'
       /\ Forall (fun c => cc_test cc c = true) run.
Proof.
  intros H. remember (RStar cc) as r eqn:Hr.
  induction H; try discriminate; injection Hr as ->.
  - split; [done|]. by exists [].
  - destruct (IHMatches eq_refl) as (Hg & run & Hrun & Hall). simpl in *.
    split; [done|]. exists (c :: run). rewrite H, Hrun. split; [done|].
    by constructor.
Qed.

End MatcherFacts.

Ltac inv_matches :=
  repeat match goal with
  | H : Matches (RSeq _ _) _ _ |- _ => inversion H; subst; clear H
  | H : Matches (RChar _) _ _ |- _ => inversion H; subst; clear H
  | H : Matches (RAlt _ _) _ _ |- _ => inversion H; subst; clear H
  | H : Matches (RGroup _ _) _ _ |- _ => inversion H; subst; clear H
  | H : Matches REps _ _ |- _ => inversion H; subst; clear H
  | H : Matches RWordB _ _ |- _ => inversion H; subst; clear H
  | H : Matches REnd _ _ |- _ => inversion H; subst; clear H
  | H : Matches (RStar _) _ _ |- _ =>
      apply Matches_star in H as (? & ? & ? & ?)
  end.

(** * Properties of the parsers *)

Section ParsingFacts.
Context `{UT : UnicodeTables}.

Lemma year_re_shape st st' :
  Matches (pat_re year_re) st st' ->
  exists ws1 d1 d2 d3 d4 ws2,
    st_rest st = ws1 ++ 40 :: d1 :: d2 :: d3 :: d4 :: 41 :: ws2 ++ st_rest st'
    /\ Forall (fun c => is_space c = true) ws1
    /\ Forall (fun c => is_space c = true) ws2
    /\ Forall (fun d => is_decimal d = true) [d1; d2; d3; d4]
    /\ at_end st' = true
    /\ st_groups st' !! 1%nat = Some [d1; d2; d3; d4].
Proof.
  unfold year_re; simpl. intros H. inv_matches. simpl in *. subst.
  repeat match goal with H : (_ =? _) = true |- _ => apply N.eqb_eq in H; subst end.
  match goal with H : st_rest st = ?a ++ _, H1 : st_rest ?s1 = _ |- _ =>
    rewrite H1 in H end.
  eexists _, _, _, _, _, _. split; [eassumption|].
  repeat split; try done.
  - repeat constructor; done.
  - match goal with H : st_groups st' = _ |- _ => rewrite H end.
    rewrite lookup_insert_eq. f_equal.
    by apply (consumed_app _ _ [_; _; _; _]).
Qed.

Lemma trailing_year_re_shape st st' :
  Matches (pat_re trailing_year_re) st st' ->
  exists w ws1 c1 c2 d3 d4 ws2,
    st_rest st = w :: ws1 ++ c1 :: c2 :: d3 :: d4 :: ws2 ++ st_rest st'
    /\ Forall (fun c => is_space c = true) (w :: ws1)
    /\ Forall (fun c => is_space c = true) ws2
    /\ ((c1 = 49 /\ c2 = 57) \/ (c1 = 50 /\ c2 = 48))
    /\ Forall (fun d => is_decimal d = true) [d3; d4]
    /\ at_end st' = true
    /\ st_groups st' !! 1%nat = Some [c1; c2; d3; d4].
Proof.
  unfold trailing_year_re; simpl. intros H. inv_matches; simpl in *; subst.
  all: repeat match goal with H : (_ =? _) = true |- _ => apply N.eqb_eq in H; subst end.
  all: simpl in *.
  all: match goal with H : st_rest _ = _ :: _ ++ st_rest ?s1, H1 : st_rest ?s1 = _ |- _ =>
         rewrite H1 in H end.
  all: eexists _, _, _, _, _, _, _; split; [eassumption|].
  all: repeat split; try done; try (by constructor); try (by repeat constructor).
  all: try (left; done); try (right; done).
  all: match goal with H : st_groups _ = <[_ := _]> _ |- _ => rewrite H end.
  all: rewrite lookup_insert_eq; f_equal.
  all: match goal with H1 : st_rest ?s1 = _ |- consumed ?s1 _ = _ =>
         apply (consumed_app _ _ [_; _; _; _]); rewrite H1; reflexivity end.
Qed.

Lemma is_decimal_value d :
  is_decimal d = true -> exists v, decimal_value d = Some v /\ v < 10.
Proof.
  unfold is_decimal, decimal_value.
  destruct (d <? 128) eqn:Ha.
  - destruct ((48 <=? d) && (d <=? 57)) eqn:Hd; [|discriminate].
    intros _. eexists; split; [done|].
    apply andb_true_iff in Hd as [H1 H2]. apply N.leb_le in H1, H2. lia.
  - destruct (is_space d); [discriminate|].
    destruct (uni_decimal d) as [v|]; [|discriminate].
    destruct (v <? 10) eqn:Hv; [|discriminate].
    intros _. exists v. split; [done|]. by apply N.ltb_lt.
Qed.

Lemma re_search_compiled pat s p :
  re_compile pat = Ok p -> re_search pat s = Ok (search_from p false 0 None s).
Proof. intros H. unfold re_search. by rewrite H. Qed.

Lemma re_sub_returns pat s p :
  re_compile pat = Ok p -> returns (re_sub pat s).
Proof.
  intros H. unfold re_sub. rewrite H. cbn [bind].
  destruct (sub_loop_returns p (2 * length s + 2) false 0 None s) as [t Ht];
    [simpl; lia|].
  rewrite Ht. by eexists.
Qed.

Lemma py_int_4 d1 d2 d3 d4 :
  Forall (fun d => is_decimal d = true) [d1; d2; d3; d4] ->
  exists y, py_int [d1; d2; d3; d4] = Ok y /\ (0 <= y <= 9999)%Z.
Proof.
  intros H.
  repeat match goal with
  | H : Forall _ (_ :: _) |- _ => apply Forall_cons in H as [? H]
  | H : is_decimal _ = true |- _ => apply is_decimal_value in H as (? & ? & ?)
  end.
  simpl. repeat match goal with H : decimal_value _ = Some _ |- _ => rewrite H; clear H end.
  eexists; split; [reflexivity|]. lia.
Qed.

Lemma parse_movie_with_year_returns s : returns (parse_movie_with_year s).
Proof.
  unfold parse_movie_with_year.
  rewrite (re_search_compiled _ _ year_re) by reflexivity. simpl.
  destruct (search_from year_re false 0 None s) as [m|] eqn:Hs; [|by eexists].
  apply search_from_sound in Hs
    as (sk & rest1 & prev1 & st' & -> & Hm & _ & _ & Hg & _ & _).
  apply year_re_shape in Hm as (ws1 & d1 & d2 & d3 & d4 & ws2 & _ & _ & _ & Hd & _ & H1).
  unfold group. rewrite Hg, H1. simpl.
  destruct (py_int_4 _ _ _ _ Hd) as (y & Hy & _). simpl in Hy. rewrite Hy. simpl.
  destruct (re_sub_returns year_pattern (sk ++ rest1) year_re eq_refl) as [t Ht].
  rewrite Ht. simpl. by eexists.
Qed.

Lemma year_search_group s m :
  search_from year_re false 0 None s = Some m ->
  exists d1 d2 d3 d4,
    group m 1 = Some [d1; d2; d3; d4]
    /\ Forall (fun d => is_decimal d = true) [d1; d2; d3; d4].
Proof.
  intros Hs. apply search_from_sound in Hs
    as (sk & rest1 & prev1 & st' & -> & Hm & _ & _ & Hg & _ & _).
  apply year_re_shape in Hm
    as (ws1 & d1 & d2 & d3 & d4 & ws2 & _ & _ & _ & Hd & _ & H1).
  exists d1, d2, d3, d4. unfold group. by rewrite Hg.
Qed.

Lemma py_int_century c1 c2 d3 d4 :
  (c1 = 49 /\ c2 = 57) \/ (c1 = 50 /\ c2 = 48) ->
  Forall (fun d => is_decimal d = true) [d3; d4] ->
  exists y, py_int [c1; c2; d3; d4] = Ok y /\ (1900 <= y <= 2099)%Z.
Proof.
  intros Hc H.
  repeat match goal with
  | H : Forall _ (_ :: _) |- _ => apply Forall_cons in H as [? H]
  | H : is_decimal _ = true |- _ => apply is_decimal_value in H as (? & ? & ?)
  end.
  destruct Hc as [[-> ->]|[-> ->]]; simpl;
    repeat match goal with H : decimal_value _ = Some _ |- _ => rewrite H; clear H end;
    (eexists; split; [reflexivity|lia]).
Qed.

Lemma decimal_value_is_decimal d v : decimal_value d = Some v -> is_decimal d = true.
Proof. unfold is_decimal. by intros ->. Qed.

(** [int] of four decimal digits is the number their values spell. *)
Lemma py_int_number4 d1 d2 d3 d4 v1 v2 v3 v4 :
  decimal_value d1 = Some v1 -> decimal_value d2 = Some v2 ->
  decimal_value d3 = Some v3 -> decimal_value d4 = Some v4 ->
  py_int [d1; d2; d3; d4] = Ok (number4 v1 v2 v3 v4).
Proof.
  intros H1 H2 H3 H4. simpl. rewrite H1, H2, H3, H4.
  unfold number4. f_equal. lia.
Qed.

Lemma century_value c1 c2 :
  century c1 c2 ->
  decimal_value c1 = Some (c1 - 48) /\ decimal_value c2 = Some (c2 - 48).
Proof. by intros [[-> ->]|[-> ->]]. Qed.

Lemma trailing_search_group s m :
  search_from trailing_year_re false 0 None s = Some m ->
  exists c1 c2 d3 d4,
    group_named m (u "year") = Ok (Some [c1; c2; d3; d4])
    /\ ((c1 = 49 /\ c2 = 57) \/ (c1 = 50 /\ c2 = 48))
    /\ Forall (fun d => is_decimal d = true) [d3; d4].
Proof.
  intros Hs. apply search_from_sound in Hs
    as (sk & rest1 & prev1 & st' & -> & Hm & _ & _ & Hg & Hn & _).
  apply trailing_year_re_shape in Hm
    as (w & ws1 & c1 & c2 & d3 & d4 & ws2 & _ & _ & _ & Hc & Hd & _ & H1).
  exists c1, c2, d3, d4. unfold group_named, group. rewrite Hn, Hg. simpl.
  by rewrite H1.
Qed.

Lemma parse_title_with_year_returns s : returns (parse_title_with_year s).
Proof.
  unfold parse_title_with_year.
  destruct (parse_movie_with_year_returns s) as [[title year] ->]. cbn [bind].
  destruct (truthy_year year); [by eexists|].
  rewrite (re_search_compiled _ _ trailing_year_re) by reflexivity. cbn [bind].
  destruct (search_from trailing_year_re false 0 None s) as [m|] eqn:Hs;
    [|by eexists].
  apply trailing_search_group in Hs as (c1 & c2 & d3 & d4 & -> & Hc & Hd).
  cbn [bind int_of_group].
  destruct (py_int_century _ _ _ _ Hc Hd) as (y & -> & _). cbn [bind].
  destruct (re_sub_returns trailing_year_pattern s trailing_year_re eq_refl)
    as [t ->].
  by eexists.
Qed.

(** Years the parsers return. *)
Lemma parse_movie_with_year_range s t y :
  parse_movie_with_year s = Ok (t, Some y) -> (0 <= y <= 9999)%Z.
Proof.
  unfold parse_movie_with_year.
  rewrite (re_search_compiled _ _ year_re) by reflexivity. cbn [bind].
  destruct (search_from year_re false 0 None s) as [m|] eqn:Hs; [|discriminate].
  apply year_search_group in Hs as (d1 & d2 & d3 & d4 & -> & Hd).
  cbn [int_of_group].
  destruct (py_int_4 _ _ _ _ Hd) as (y' & -> & Hy). cbn [bind].
  destruct (re_sub year_pattern s); cbn [bind]; [|discriminate].
  intros [= _ <-]. exact Hy.
Qed.

Lemma parse_title_with_year_range s t y :
  parse_title_with_year s = Ok (t, Some y) ->
  (parse_movie_with_year s = Ok (t, Some y) /\ (1 <= y <= 9999)%Z)
  \/ (re_search trailing_year_pattern s <> Ok None /\ (1900 <= y <= 2099)%Z).
Proof.
  unfold parse_title_with_year.
  destruct (parse_movie_with_year s) as [[title year]|] eqn:Hp; [|discriminate].
  cbn [bind]. destruct (truthy_year year) eqn:Ht.
  - intros [= -> ->]. left. split; [done|].
    apply parse_movie_with_year_range in Hp. simpl in Ht.
    apply negb_true_iff, Z.eqb_neq in Ht. lia.
  - rewrite (re_search_compiled _ _ trailing_year_re) by reflexivity. cbn [bind].
    destruct (search_from trailing_year_re false 0 None s) as [m|] eqn:Hs;
      [|discriminate].
    apply trailing_search_group in Hs as (c1 & c2 & d3 & d4 & -> & Hc & Hd).
    cbn [bind int_of_group].
    destruct (py_int_century _ _ _ _ Hc Hd) as (y' & -> & Hy). cbn [bind].
    destruct (re_sub trailing_year_pattern s); cbn [bind]; [|discriminate].
    intros [= _ <-]. right. split; [discriminate|exact Hy].
Qed.

Lemma found_returns pat s :
  returns (re_compile pat) -> returns (found pat s).
Proof. intros [p Hp]. unfold found, re_search. rewrite Hp. by eexists. Qed.

Lemma any_found_returns pats s :
  Forall (fun pat => returns (re_compile pat)) pats ->
  returns (any_found pats s).
Proof.
  induction 1 as [|pat pats Hp _ IH]; cbn [any_found]; [by eexists|].
  destruct (found_returns pat s Hp) as [b ->]. cbn [bind].
  destruct b; [by eexists | exact IH].
Qed.

Lemma count_found_returns pats s :
  Forall (fun pat => returns (re_compile pat)) pats ->
  returns (count_found pats s).
Proof.
  induction 1 as [|pat pats Hp _ IH]; cbn [count_found]; [by eexists|].
  destruct (found_returns pat s Hp) as [b ->]. cbn [bind].
  destruct IH as [n ->]. by eexists.
Qed.

Lemma count_series_returns pats s :
  Forall (fun pat => returns (re_compile pat)) pats ->
  returns (count_series pats s).
Proof.
  induction 1 as [|pat pats Hp _ IH]; cbn [count_series]; [by eexists|].
  destruct IH as [n ->].
  destruct (bool_decide (pat = shows_pattern)).
  - destruct (found_returns shows_pattern s) as [b1 ->]; [compiles|].
    cbn [bind]. destruct b1; [|by eexists].
    destruct (found_returns movie_shows_pattern s) as [b2 ->]; [compiles|].
    cbn [bind]. destruct b2; [by eexists|].
    destruct (found_returns show_me_pattern s) as [b3 ->]; [compiles|].
    by eexists.
  - destruct (found_returns pat s Hp) as [b ->]. by eexists.
Qed.

Lemma is_specific_title_query_returns s : returns (is_specific_title_query s).
Proof.
  unfold is_specific_title_query. destruct s as [|c s]; [by eexists|].
  destruct (found_returns quote_pattern (c :: s)) as [b1 ->]; [compiles|].
  cbn [bind]. destruct b1; [by eexists|].
  destruct (found_returns paren_year_pattern (c :: s)) as [b2 ->]; [compiles|].
  cbn [bind]. destruct b2; [by eexists|].
  destruct (any_found_returns discovery_patterns (strip (lower (c :: s))))
    as [b3 ->]; [repeat constructor; compiles|].
  cbn [bind]. destruct b3; [by eexists|].
  destruct (found_returns bare_year_pattern (strip (lower (c :: s))))
    as [b4 ->]; [compiles|].
  cbn [bind]. destruct b4; by eexists.
Qed.

Lemma detect_user_intent_returns s : returns (detect_user_intent s).
Proof.
  unfold detect_user_intent. destruct s as [|c s]; [by eexists|].
  destruct (count_found_returns movie_patterns (lower (c :: s))) as [n1 ->];
    [repeat constructor; compiles|].
  destruct (count_series_returns series_patterns (lower (c :: s))) as [n2 ->];
    [repeat constructor; compiles|].
  destruct (found_returns conjunction_pattern (lower (c :: s))) as [b ->];
    [compiles|].
  cbn [bind].
  repeat match goal with |- context [if ?b then _ else _] => destruct b end;
    by eexists.
Qed.
Lemma is_space_not_40 c : is_space c = true -> c <> 40.
Proof. intros H ->. discriminate. Qed.

Lemma is_decimal_not_space c : is_decimal c = true -> is_space c = false.
Proof.
  unfold is_decimal, decimal_value. destruct (c <? 128) eqn:Ha.
  - destruct ((48 <=? c) && (c <=? 57)) eqn:Hd; [|discriminate]. intros _.
    destruct (is_space c) eqn:Hs; [|done]. unfold is_space in Hs.
    bool_to_prop; lia.
  - by destruct (is_space c).
Qed.

Lemma is_decimal_not_40 c : is_decimal c = true -> c <> 40.
Proof. intros H ->. discriminate. Qed.

Lemma lower_at_space before c after :
  is_space c = true -> lower_at before c after = [c].
Proof.
  intros Hs. unfold lower_at. rewrite Hs. destruct (c <? 128); [|done].
  destruct ((65 <=? c) && (c <=? 90)) eqn:Hu; [|done].
  unfold is_space in Hs. bool_to_prop; lia.
Qed.

Lemma lower_from_space s : forall before,
  Forall (fun c => is_space c = true) s -> lower_from before s = s.
Proof.
  induction s as [|c s IH]; intros before H; [done|].
  apply Forall_cons in H as [Hc Hs]. simpl.
  by rewrite lower_at_space, IH.
Qed.

Lemma lstrip_space s :
  Forall (fun c => is_space c = true) s -> lstrip s = [].
Proof. induction 1 as [|c s Hc _ IH]; [done|]. simpl. by rewrite Hc. Qed.

Lemma lstrip_app_space ws s :
  Forall (fun c => is_space c = true) ws -> lstrip (ws ++ s) = lstrip s.
Proof. induction 1 as [|c ws' Hc _ IH]; [done|]. simpl. by rewrite Hc. Qed.

(** No match of a pattern whose first code point is absent from the text. *)
Lemma year_search_none s :
  Forall (fun c => c <> 40) s -> search_from year_re false 0 None s = None.
Proof.
  intros Hs. destruct (search_from year_re false 0 None s) as [m|] eqn:H; [|done].
  apply search_from_sound in H
    as (sk & rest1 & prev1 & st' & -> & Hm & _).
  apply year_re_shape in Hm as (ws1 & d1 & d2 & d3 & d4 & ws2 & Hr & _).
  simpl in Hr. subst rest1.
  rewrite !Forall_app, Forall_cons in Hs. by destruct Hs as (_ & _ & ? & _).
Qed.

Lemma paren_year_search_none s :
  Forall (fun c => c <> 40) s -> search_from paren_year_re false 0 None s = None.
Proof.
  intros Hs. destruct (search_from paren_year_re false 0 None s) as [m|] eqn:H; [|done].
  apply search_from_sound in H
    as (sk & rest1 & prev1 & st' & -> & Hm & _).
  unfold paren_year_re in Hm; simpl in Hm. inv_matches; simpl in *.
  all: bool_to_prop; subst.
  all: try match goal with H : ?r = 40 :: _ |- _ => rewrite H in Hs end.
  all: rewrite !Forall_app, Forall_cons in Hs; by destruct Hs as (_ & ? & _).
Qed.

Lemma quote_search_none s :
  Forall (fun c => is_space c = true) s ->
  search_from quote_re false 0 None s = None.
Proof.
  intros Hs. destruct (search_from quote_re false 0 None s) as [m|] eqn:H; [|done].
  apply search_from_sound in H
    as (sk & rest1 & prev1 & st' & -> & Hm & _).
  unfold quote_re in Hm; simpl in Hm. inv_matches; simpl in *. subst.
  rewrite Forall_app, Forall_cons in Hs. destruct Hs as (_ & Hc & _).
  bool_to_prop; subst; discriminate.
Qed.

Lemma trailing_search_none s :
  Forall (fun c => is_space c = false) s ->
  search_from trailing_year_re false 0 None s = None.
Proof.
  intros Hs.
  destruct (search_from trailing_year_re false 0 None s) as [m|] eqn:H; [|done].
  apply search_from_sound in H
    as (sk & rest1 & prev1 & st' & -> & Hm & _).
  apply trailing_year_re_shape in Hm
    as (w & ws1 & c1 & c2 & d3 & d4 & ws2 & Hr & Hw & _).
  simpl in Hr. subst rest1. apply Forall_cons in Hw as [Hw _].
  rewrite Forall_app, Forall_cons in Hs. destruct Hs as (_ & Hc & _). congruence.
Qed.

Lemma is_specific_title_query_blank s :
  s <> [] -> Forall (fun c => is_space c = true) s ->
  is_specific_title_query s = Ok true.
Proof.
  intros Hne Hs. unfold is_specific_title_query.
  destruct s as [|c s]; [done|].
  unfold found.
  rewrite (re_search_compiled _ _ quote_re) by reflexivity.
  rewrite quote_search_none by done. cbn [bind].
  rewrite (re_search_compiled _ _ paren_year_re) by reflexivity.
  rewrite paren_year_search_none
    by (eapply Forall_impl; [exact Hs|apply is_space_not_40]).
  cbn [bind]. unfold lower. rewrite lower_from_space by done.
  unfold strip. rewrite lstrip_space by done. reflexivity.
Qed.
Lemma star_match_run {R} cc g (k : mstate -> option R) x : forall run prev rest,
  Forall (fun c => cc_test cc c = true) run ->
  star_match cc g (prev_after prev run) rest k = Some x ->
  star_match cc g prev (run ++ rest) k = Some x.
Proof.
  induction run as [|c run IH]; intros prev rest Hrun H; [done|].
  apply Forall_cons in Hrun as [Hc Hrun]. simpl. rewrite Hc.
  by rewrite (IH (Some c) rest Hrun H).
Qed.

Lemma trailing_match_here w ws c1 c2 d3 d4 ma pos prev :
  Forall (fun c => is_space c = true) (w :: ws) ->
  century c1 c2 ->
  is_decimal d3 = true -> is_decimal d4 = true ->
  match_here trailing_year_re ma pos prev (w :: ws ++ [c1; c2; d3; d4])
  = Some {| m_start := pos;
            m_end := (pos + (length ws + 5))%nat;
            m_groups := <[1%nat := [c1; c2; d3; d4]]> (<[2%nat := [c1; c2]]> ∅);
            m_names := pat_names trailing_year_re |}.
Proof.
  intros Hw Hc H3 H4. apply Forall_cons in Hw as [Hw Hws].
  unfold match_here, trailing_year_re, pat_re.
  cbn [rmatch st_rest cc_test]. rewrite Hw.
  cbn [advance st_groups st_prev st_rest].
  apply star_match_run; [exact Hws|].
  destruct Hc as [[-> ->]|[-> ->]]; cbn; rewrite H3, H4; cbn;
    rewrite andb_false_r, length_app; cbn; do 2 f_equal; lia.
Qed.

Lemma trailing_search_empty ma pos prev :
  search_from trailing_year_re ma pos prev [] = None.
Proof. reflexivity. Qed.

Lemma century_digits c1 c2 d3 d4 :
  century c1 c2 -> is_decimal d3 = true -> is_decimal d4 = true ->
  Forall (fun c => is_decimal c = true) [c1; c2; d3; d4].
Proof. intros [[-> ->]|[-> ->]] H3 H4; repeat constructor; done. Qed.

Lemma strip_digits s c :
  Forall (fun c => is_decimal c = true) (s ++ [c]) -> s ++ [c] <> [] ->
  strip (s ++ [c]) = s ++ [c].
Proof.
  intros H _. unfold strip, rstrip.
  assert (Hl : forall l, Forall (fun c => is_decimal c = true) l -> lstrip l = l).
  { intros [|x l] Hx; [done|]. apply Forall_cons in Hx as [Hx _].
    simpl. by rewrite (is_decimal_not_space _ Hx). }
  rewrite (Hl _ H), Hl by (by apply Forall_rev).
  apply rev_involutive.
Qed.

Lemma parse_movie_no_paren s :
  Forall (fun c => c <> 40) s -> parse_movie_with_year s = Ok (strip s, None).
Proof.
  intros H. unfold parse_movie_with_year.
  rewrite (re_search_compiled _ _ year_re) by reflexivity.
  by rewrite year_search_none.
Qed.

Lemma trailing_year_compiles :
  re_compile trailing_year_pattern = Ok trailing_year_re.
Proof. reflexivity. Qed.

Lemma group_named_year m :
  m_names m = pat_names trailing_year_re ->
  group_named m (u "year") = Ok (group m 1).
Proof. unfold group_named. by intros ->. Qed.

Lemma trailing_year_whitespace_only ws c1 c2 d3 d4 :
  ws <> [] -> Forall (fun c => is_space c = true) ws ->
  century c1 c2 -> is_decimal d3 = true -> is_decimal d4 = true ->
  exists y,
    py_int [c1; c2; d3; d4] = Ok y
    /\ parse_title_with_year (ws ++ [c1; c2; d3; d4]) = Ok ([], Some y)
    /\ parse_title_with_year [c1; c2; d3; d4] = Ok ([c1; c2; d3; d4], None).
Proof.
  intros Hne Hws Hc H3 H4.
  pose proof (century_digits _ _ _ _ Hc H3 H4) as Hd.
  destruct (py_int_century c1 c2 d3 d4 Hc) as (y & Hy & _);
    [by repeat constructor|].
  exists y. split; [exact Hy|]. split.
  - unfold parse_title_with_year. rewrite parse_movie_no_paren.
    2:{ apply Forall_app. split.
        - eapply Forall_impl; [exact Hws|apply is_space_not_40].
        - eapply Forall_impl; [exact Hd|apply is_decimal_not_40]. }
    cbn [bind truthy_year].
    destruct ws as [|w ws]; [done|].
    rewrite (re_search_compiled _ _ trailing_year_re) by reflexivity.
    cbn [bind]. rewrite <-app_comm_cons. cbn [search_from].
    rewrite (trailing_match_here w ws c1 c2 d3 d4) by done.
    cbn [bind]. rewrite group_named_year by reflexivity.
    unfold group. cbn [bind m_groups]. rewrite lookup_insert_eq. cbn [int_of_group].
    rewrite Hy. cbn [bind].
    unfold re_sub. rewrite trailing_year_compiles.
    cbn [bind].
    replace (2 * length (w :: ws ++ [c1; c2; d3; d4]) + 2)%nat
      with (S (S (2 * length (w :: ws ++ [c1; c2; d3; d4])))) by lia.
    cbn [sub_loop search_from].
    rewrite (trailing_match_here w ws c1 c2 d3 d4) by done.
    cbn [m_end m_start]. rewrite !Nat.sub_0_r. cbn [Nat.sub Nat.add].
    rewrite drop_ge by (cbn; rewrite length_app; cbn; lia).
    rewrite trailing_search_empty. reflexivity.
  - unfold parse_title_with_year. rewrite parse_movie_no_paren
      by (eapply Forall_impl; [exact Hd|apply is_decimal_not_40]).
    cbn [bind truthy_year].
    rewrite (re_search_compiled _ _ trailing_year_re) by reflexivity.
    rewrite trailing_search_none
      by (eapply Forall_impl; [exact Hd|apply is_decimal_not_space]).
    cbn [bind]. do 2 f_equal.
    apply (strip_digits [c1; c2; d3] d4); done.
Qed.
End ParsingFacts.

(** * Properties of [difflib.SequenceMatcher] *)

Module difflib_facts.
Import difflib difflib_spec.
Local Open Scope nat_scope.

Section Facts.
Variables a b : list N.
Lemma indices_from_spec x l : forall j0 j,
  j ∈ indices_from j0 x l -> j0 <= j /\ l !! (j - j0) = Some x.
Proof.
  induction l as [|y l IH]; intros j0 j Hj; simpl in Hj.
  - by apply elem_of_nil in Hj.
  - destruct (x =? y)%N eqn:Hxy.
    + apply elem_of_cons in Hj as [->|Hj].
      * apply N.eqb_eq in Hxy as ->. split; [lia|]. by rewrite Nat.sub_diag.
      * apply IH in Hj as [Hle Hl]. split; [lia|].
        replace (j - j0) with (S (j - S j0)) by lia. done.
    + apply IH in Hj as [Hle Hl]. split; [lia|].
      replace (j - j0) with (S (j - S j0)) by lia. done.
Qed.

Lemma b2j_spec x j : j ∈ b2j b x -> b !! j = Some x.
Proof.
  unfold b2j. destruct (_ && _); [intros H; by apply elem_of_nil in H|].
  intros H. apply indices_from_spec in H as [_ H]. by rewrite Nat.sub_0_r in H.
Qed.

Lemma matching_snoc i j k :
  matching a b i j k -> a !! (i + k) = b !! (j + k) -> matching a b i j (S k).
Proof.
  intros Hm He t Ht. destruct (decide (t = k)) as [->|]; [done|].
  apply Hm. lia.
Qed.

Lemma matching_cons i j k :
  matching a b (S i) (S j) k -> a !! i = b !! j -> matching a b i j (S k).
Proof.
  intros Hm He t Ht. destruct t as [|t].
  - by rewrite !Nat.add_0_r.
  - replace (i + S t) with (S i + t) by lia.
    replace (j + S t) with (S j + t) by lia. apply Hm. lia.
Qed.

Lemma same_at_eq i j : same_at a b i j = true -> a !! i = b !! j.
Proof.
  unfold same_at. destruct (a !! i), (b !! j); try discriminate.
  intros H. by apply N.eqb_eq in H as ->.
Qed.

Lemma scan_row_ok alo ahi blo bhi i x js :
  alo <= i -> i < ahi -> a !! i = Some x ->
  (forall j, j ∈ js -> b !! j = Some x) ->
  forall j2len newj2len best,
  j2len_ok a b alo blo bhi i j2len ->
  j2len_ok a b alo blo bhi (S i) newj2len ->
  block_ok a b alo ahi blo bhi best ->
  let '(new, best') := scan_row blo bhi i js j2len newj2len best in
  j2len_ok a b alo blo bhi (S i) new /\ block_ok a b alo ahi blo bhi best'.
Proof.
  intros Hi Hhi Ha. induction js as [|j js IH]; intros Hjs j2len new best Hold Hnew Hbest.
  - done.
  - simpl. destruct (j <? blo) eqn:Hlo.
    + apply IH; [|done..]. intros j' Hj'. apply Hjs. by right.
    + apply Nat.ltb_ge in Hlo. destruct (bhi <=? j) eqn:Hbhi; [done|].
      apply Nat.leb_gt in Hbhi.
      destruct best as [[bi bj] bk].
      set (k' := match j with O => 0 | S j' => default 0 (j2len !! j') end).
      assert (Hb : b !! j = Some x) by (apply Hjs; by left).
      assert (Hk : alo + S k' <= S i /\ blo + S k' <= j + 1
                   /\ matching a b (S i - S k') (j + 1 - S k') (S k')).
      { assert (Hone : forall i' j', i' = i -> j' = j -> matching a b i' j' 1).
        { intros i' j' -> -> t Ht. replace t with 0 by lia.
          rewrite !Nat.add_0_r. by rewrite Ha, Hb. }
        subst k'. destruct j as [|j'].
        - repeat split; [lia..|]. apply Hone; lia.
        - destruct (j2len !! j') as [k0|] eqn:Hk0; simpl.
          + destruct (Hold _ _ Hk0) as (H1 & H2 & H3 & H4 & H5).
            repeat split; [lia..|].
            replace (S i - S k0) with (i - k0) by lia.
            replace (S j' + 1 - S k0) with (j' + 1 - k0) by lia.
            apply matching_snoc; [done|].
            replace (i - k0 + k0) with i by lia.
            replace (j' + 1 - k0 + k0) with (S j') by lia.
            by rewrite Ha, Hb.
          + repeat split; [lia..|]. apply Hone; lia. }
      destruct Hk as (Hk1 & Hk2 & Hk3).
      apply IH.
      * intros j' Hj'. apply Hjs. by right.
      * done.
      * intros j0 k0 H0. destruct (decide (j0 = j)) as [->|Hne].
        -- rewrite lookup_insert_eq in H0. injection H0 as <-.
           repeat split; [lia..|done].
        -- rewrite lookup_insert_ne in H0 by done. by apply Hnew.
      * destruct (bk <? S k') eqn:Hbk; [|done].
        replace (i + 1 - S k') with (S i - S k') by lia.
        repeat split; [lia..|done].
Qed.

Lemma j2len_ok_empty alo blo bhi n : j2len_ok a b alo blo bhi n ∅.
Proof. intros j k H. by rewrite lookup_empty in H. Qed.

Lemma scan_rows_ok alo ahi blo bhi : forall n i j2len best,
  alo <= i -> i + n <= ahi ->
  j2len_ok a b alo blo bhi i j2len ->
  block_ok a b alo ahi blo bhi best ->
  block_ok a b alo ahi blo bhi (scan_rows a b blo bhi n i j2len best).
Proof.
  induction n as [|n IH]; intros i j2len best Hi Hn Hold Hbest; [done|].
  simpl. destruct (a !! i) as [x|] eqn:Ha.
  - pose proof (scan_row_ok alo ahi blo bhi i x (b2j b x) Hi ltac:(lia) Ha
                  (fun j => b2j_spec x j) j2len ∅ best Hold
                  (j2len_ok_empty _ _ _ _) Hbest) as H.
    destruct (scan_row blo bhi i (b2j b x) j2len ∅ best) as [new best'].
    destruct H as [Hnew Hbest']. apply IH; [lia..|done|done].
  - simpl. apply IH; [lia..| |done]. apply j2len_ok_empty.
Qed.

Lemma extend_left_ok alo ahi blo bhi : forall besti bestj bestsize,
  block_ok a b alo ahi blo bhi (besti, bestj, bestsize) ->
  block_ok a b alo ahi blo bhi (extend_left a b alo blo besti bestj bestsize).
Proof.
  induction besti as [|i' IH]; intros bestj bestsize H; [done|].
  simpl. destruct bestj as [|j']; [done|].
  destruct ((alo <? S i') && (blo <? S j') && same_at a b i' j') eqn:Hc; [|done].
  apply andb_true_iff in Hc as [Hc Hs]. apply andb_true_iff in Hc as [H1 H2].
  apply Nat.ltb_lt in H1, H2. apply same_at_eq in Hs.
  destruct H as (Ha & Hb & Hc & Hd & Hm).
  apply IH. repeat split; [lia..|]. by apply matching_cons.
Qed.

Lemma extend_right_ok alo ahi blo bhi besti bestj : forall n bestsize,
  block_ok a b alo ahi blo bhi (besti, bestj, bestsize) ->
  block_ok a b alo ahi blo bhi (extend_right a b n ahi bhi besti bestj bestsize).
Proof.
  induction n as [|n IH]; intros bestsize H; [done|].
  simpl.
  destruct ((besti + bestsize <? ahi) && (bestj + bestsize <? bhi)
            && same_at a b (besti + bestsize) (bestj + bestsize)) eqn:Hc; [|done].
  apply andb_true_iff in Hc as [Hc Hs]. apply andb_true_iff in Hc as [H1 H2].
  apply Nat.ltb_lt in H1, H2. apply same_at_eq in Hs.
  destruct H as (Ha & Hb & Hc & Hd & Hm).
  apply IH. repeat split; [lia..|]. by apply matching_snoc.
Qed.

(** The block [find_longest_match] returns lies in the two ranges and its
    two sides agree. *)
Lemma find_longest_match_ok alo ahi blo bhi :
  alo <= ahi -> blo <= bhi ->
  block_ok a b alo ahi blo bhi (find_longest_match a b alo ahi blo bhi).
Proof.
  intros Ha Hb. unfold find_longest_match.
  pose proof (scan_rows_ok alo ahi blo bhi (ahi - alo) alo ∅ (alo, blo, 0)
                ltac:(lia) ltac:(lia) (j2len_ok_empty _ _ _ _)) as H1.
  destruct (scan_rows a b blo bhi (ahi - alo) alo ∅ (alo, blo, 0))
    as [[i1 j1] k1].
  specialize (H1 ltac:(repeat split; [lia..|]; intros t Ht; lia)).
  apply extend_left_ok in H1.
  destruct (extend_left a b alo blo i1 j1 k1) as [[i2 j2] k2].
  by apply extend_right_ok.
Qed.

Lemma total_app l1 l2 : total (l1 ++ l2) = total l1 + total l2.
Proof. unfold total. by rewrite fmap_app, sum_list_with_app. Qed.

(** What the blocks of a range add up to, and what it means when they fill
    both ranges. *)
Lemma blocks_in_ok : forall n alo ahi blo bhi,
  alo <= ahi -> blo <= bhi ->
  total (blocks_in a b n alo ahi blo bhi) <= ahi - alo
  /\ total (blocks_in a b n alo ahi blo bhi) <= bhi - blo
  /\ (total (blocks_in a b n alo ahi blo bhi) = ahi - alo ->
      total (blocks_in a b n alo ahi blo bhi) = bhi - blo ->
      matching a b alo blo (ahi - alo)).
Proof.
  induction n as [|n IH]; intros alo ahi blo bhi Ha Hb.
  { simpl. unfold total; simpl. repeat split; [lia..|].
    intros H1 _ t Ht. lia. }
  simpl. pose proof (find_longest_match_ok alo ahi blo bhi Ha Hb) as Hf.
  destruct (find_longest_match a b alo ahi blo bhi) as [[i j] k].
  destruct Hf as (H1 & H2 & H3 & H4 & Hm).
  destruct (k =? 0) eqn:Hk.
  { unfold total; simpl. repeat split; [lia..|]. intros E _ t Ht. lia. }
  apply Nat.eqb_neq in Hk.
  match goal with |- context [?l1 ++ (i, j, k) :: ?l2] =>
    set (L := l1); set (R := l2) end.
  assert (HL : total L <= i - alo /\ total L <= j - blo
               /\ (total L = i - alo -> total L = j - blo ->
                   matching a b alo blo (i - alo))).
  { subst L. clear R.
    match goal with |- context [if ?c then _ else _] => destruct c eqn:Hc end.
    - apply IH; lia.
    - unfold total; simpl. repeat split; [lia..|]. intros E _ t Ht. lia. }
  clearbody L.
  assert (HR : total R <= ahi - (i + k) /\ total R <= bhi - (j + k)
               /\ (total R = ahi - (i + k) -> total R = bhi - (j + k) ->
                   matching a b (i + k) (j + k) (ahi - (i + k)))).
  { subst R.
    match goal with |- context [if ?c then _ else _] => destruct c eqn:Hc end.
    - apply IH; lia.
    - unfold total; simpl. repeat split; [lia..|]. intros E _ t Ht. lia. }
  clearbody R. destruct HL as (L1 & L2 & L3), HR as (R1 & R2 & R3).
  rewrite total_app. change (total ((i, j, k) :: R)) with (k + total R).
  split; [lia|]. split; [lia|]. intros E1 E2 t Ht.
  assert (Ej : j - blo = i - alo) by lia.
  destruct (decide (t < i - alo)) as [Hlt|Hge].
  - apply L3; [lia..|done].
  - destruct (decide (t < i - alo + k)) as [Hlt2|Hge2].
    + replace (alo + t) with (i + (t - (i - alo))) by lia.
      replace (blo + t) with (j + (t - (i - alo))) by lia.
      apply Hm. lia.
    + replace (alo + t) with (i + k + (t - (i - alo) - k)) by lia.
      replace (blo + t) with (j + k + (t - (i - alo) - k)) by lia.
      apply R3; lia.
Qed.

(** Enough fuel: the blocks do not depend on it beyond the length of the
    range of [a]. *)
Lemma blocks_in_fuel : forall n m alo ahi blo bhi,
  alo <= ahi -> blo <= bhi -> ahi - alo < n -> ahi - alo < m ->
  blocks_in a b n alo ahi blo bhi = blocks_in a b m alo ahi blo bhi.
Proof.
  induction n as [|n IH]; intros m alo ahi blo bhi Ha Hb Hn Hm; [lia|].
  destruct m as [|m]; [lia|]. simpl.
  pose proof (find_longest_match_ok alo ahi blo bhi Ha Hb) as Hf.
  destruct (find_longest_match a b alo ahi blo bhi) as [[i j] k].
  destruct Hf as (H1 & H2 & H3 & H4 & _).
  destruct (k =? 0) eqn:Hk; [done|]. apply Nat.eqb_neq in Hk.
  f_equal; [|f_equal].
  - destruct ((alo <? i) && (blo <? j)) eqn:Hc; [|done].
    apply andb_true_iff in Hc as [C1 C2]. apply Nat.ltb_lt in C1, C2.
    apply IH; lia.
  - destruct ((i + k <? ahi) && (j + k <? bhi)) eqn:Hc; [|done].
    apply andb_true_iff in Hc as [C1 C2]. apply Nat.ltb_lt in C1, C2.
    apply IH; lia.
Qed.

Lemma total_insert_block x l : total (insert_block x l) = size x + total l.
Proof.
  induction l as [|y l IH]; [done|]. simpl.
  destruct (block_leb x y); [done|].
  change (total (y :: insert_block x l)) with (size y + total (insert_block x l)).
  rewrite IH. change (total (y :: l)) with (size y + total l). lia.
Qed.

Lemma total_sort_blocks l : total (sort_blocks l) = total l.
Proof.
  induction l as [|x l IH]; [done|]. unfold sort_blocks in *. simpl.
  rewrite total_insert_block, IH. done.
Qed.

Lemma total_collapse l : forall i1 j1 k1,
  total (collapse i1 j1 k1 l) = k1 + total l.
Proof.
  induction l as [|[[i2 j2] k2] l IH]; intros i1 j1 k1; simpl.
  - destruct (k1 =? 0) eqn:Hk; [apply Nat.eqb_eq in Hk; by subst|].
    unfold total; simpl. lia.
  - change (total ((i2, j2, k2) :: l)) with (k2 + total l).
    destruct ((i1 + k1 =? i2) && (j1 + k1 =? j2)).
    + rewrite IH. lia.
    + rewrite total_app, IH.
      destruct (k1 =? 0) eqn:Hk; [apply Nat.eqb_eq in Hk; by subst|].
      unfold total; simpl. lia.
Qed.

Lemma matches_blocks :
  matches a b = total (blocks_in a b (S (length a)) 0 (length a) 0 (length b)).
Proof.
  unfold matches, get_matching_blocks.
  change (sum_list (snd <$> ?l)) with (total l).
  rewrite total_app, total_collapse, total_sort_blocks.
  unfold total at 2; simpl. lia.
Qed.

Lemma matches_le : matches a b <= length a /\ matches a b <= length b.
Proof.
  rewrite matches_blocks.
  destruct (blocks_in_ok (S (length a)) 0 (length a) 0 (length b))
    as (H1 & H2 & _); lia.
Qed.

Lemma matches_full :
  matches a b = length a -> matches a b = length b -> a = b.
Proof.
  rewrite matches_blocks. intros E1 E2.
  destruct (blocks_in_ok (S (length a)) 0 (length a) 0 (length b))
    as (_ & _ & H); [lia..|].
  specialize (H ltac:(lia) ltac:(lia)).
  apply list_eq. intros t. destruct (decide (t < length a)) as [Hlt|Hge].
  - apply (H t). lia.
  - rewrite !lookup_ge_None_2; [done|lia..].
Qed.

End Facts.

Lemma matches_nil_r a : matches a [] = 0.
Proof. pose proof (matches_le a []) as [_ H]. simpl in H. lia. Qed.

Local Open Scope Q_scope.

Lemma ratio_range a b : 0 <= ratio a b <= 1.
Proof.
  unfold ratio, calculate_ratio.
  destruct (matches_le a b) as [H1 H2].
  destruct (length a + length b)%nat as [|n] eqn:Hn; [split; discriminate|].
  unfold Qle; simpl. lia.
Qed.

Lemma ratio_one a b : ratio a b == 1 -> a = b.
Proof.
  unfold ratio, calculate_ratio.
  destruct (matches_le a b) as [H1 H2].
  destruct (length a + length b)%nat as [|n] eqn:Hn.
  - intros _. destruct a, b; simpl in Hn; try lia. done.
  - unfold Qeq; simpl. intros H. apply matches_full; lia.
Qed.

Lemma ratio_nil_r a : a <> [] -> ratio a [] == 0.
Proof.
  intros Ha. unfold ratio, calculate_ratio. rewrite matches_nil_r.
  destruct a as [|x a]; [done|]. simpl. reflexivity.
Qed.

End difflib_facts.

(** * Properties of the ranking *)

Section Lists.
Context {A : Type}.

Lemma StronglySorted_sublist (R : A -> A -> Prop) l1 l2 :
  sublist l1 l2 -> StronglySorted R l2 -> StronglySorted R l1.
Proof.
  induction 1 as [|x l1 l2 Hsub IH|x l1 l2 Hsub IH]; intros Hs.
  - constructor.
  - apply StronglySorted_inv in Hs as [Hs Hx]. constructor; [by apply IH|].
    apply Forall_forall. intros y Hy. rewrite Forall_forall in Hx.
    apply Hx. by eapply elem_of_sublist.
  - apply StronglySorted_inv in Hs as [Hs _]. by apply IH.
Qed.

Lemma StronglySorted_perm (R : A -> A -> Prop) l1 l2 :
  (forall x y, R x y -> R y x) ->
  l1 ≡ₚ l2 -> StronglySorted R l1 -> StronglySorted R l2.
Proof.
  intros Hsym. induction 1 as [|x l1 l2 Hp IH|x y l|l1 l2 l3 _ IH1 _ IH2]; intros Hs.
  - constructor.
  - apply StronglySorted_inv in Hs as [Hs Hx]. constructor; [by apply IH|].
    by rewrite <-Hp.
  - apply StronglySorted_inv in Hs as [Hs Hy].
    apply StronglySorted_inv in Hs as [Hs Hx].
    apply Forall_cons in Hy as [Hyx Hy].
    constructor; [by constructor|]. constructor; [by apply Hsym|done].
  - by apply IH2, IH1.
Qed.

Lemma sublist_List_filter (f : A -> bool) l1 l2 :
  sublist l1 l2 -> sublist (List.filter f l1) (List.filter f l2).
Proof.
  induction 1 as [|x l1 l2 Hsub IH|x l1 l2 Hsub IH]; simpl.
  - constructor.
  - destruct (f x); [by apply sublist_skip|done].
  - destruct (f x); [by apply sublist_cons|done].
Qed.

Lemma List_filter_sublist (f : A -> bool) l : sublist (List.filter f l) l.
Proof.
  induction l as [|x l IH]; simpl; [constructor|].
  destruct (f x); [by apply sublist_skip|by apply sublist_cons].
Qed.

End Lists.

Section Sorting.

Lemma insert_desc_perm x l : insert_desc x l ≡ₚ x :: l.
Proof.
  induction l as [|y l IH]; [done|]. simpl.
  destruct (Qle_bool (fst y) (fst x)); [done|].
  rewrite IH. apply Permutation_swap.
Qed.

Lemma sort_desc_perm l : sort_desc l ≡ₚ l.
Proof.
  induction l as [|x l IH]; [done|]. unfold sort_desc in *. simpl.
  by rewrite insert_desc_perm, IH.
Qed.

Lemma insert_desc_sorted x l :
  StronglySorted key_desc l -> StronglySorted key_desc (insert_desc x l).
Proof.
  induction 1 as [|y l Hs IH Hy]; simpl.
  - repeat constructor.
  - destruct (Qle_bool (fst y) (fst x)) eqn:Hle.
    + apply Qle_bool_iff in Hle. constructor; [by constructor|].
      constructor; [done|].
      eapply Forall_impl; [exact Hy|]. unfold key_desc. intros z Hz. lra.
    + constructor; [done|]. rewrite insert_desc_perm. constructor; [|done].
      unfold key_desc. destruct (Qlt_le_dec (fst y) (fst x)) as [Hlt|Hge]; [|lra].
      assert (Qle_bool (fst y) (fst x) = true); [|congruence].
      apply Qle_bool_iff. lra.
Qed.

Lemma sort_desc_sorted l : StronglySorted key_desc (sort_desc l).
Proof.
  induction l as [|x l IH]; [constructor|]. by apply insert_desc_sorted.
Qed.

Lemma insert_desc_stable q x l :
  with_key q (insert_desc x l) = with_key q (x :: l).
Proof.
  induction l as [|y l IH]; [done|]. cbn [insert_desc].
  destruct (Qle_bool (fst y) (fst x)) eqn:Hle; [done|].
  unfold with_key in *. cbn [List.filter] in *. rewrite IH.
  destruct (Qeq_bool (fst x) q) eqn:Hx, (Qeq_bool (fst y) q) eqn:Hy; try done.
  apply Qeq_bool_iff in Hx, Hy.
  assert (Qle_bool (fst y) (fst x) = true); [|congruence].
  apply Qle_bool_iff. lra.
Qed.

Lemma sort_desc_stable q l : with_key q (sort_desc l) = with_key q l.
Proof.
  induction l as [|x l IH]; [done|]. unfold sort_desc in *. cbn [foldr].
  rewrite insert_desc_stable. unfold with_key in *. cbn [List.filter].
  by rewrite IH.
Qed.

(** An entry that beats everything in front of it and is not beaten by
    anything behind it comes first. *)
Lemma sort_desc_head l1 x l2 :
  Forall (fun y => (fst y < fst x)%Q) l1 ->
  Forall (fun y => (fst y <= fst x)%Q) l2 ->
  exists rest, sort_desc (l1 ++ x :: l2) = x :: rest.
Proof.
  intros H1 H2. induction H1 as [|y l1 Hy _ IH].
  - unfold sort_desc. simpl. fold (sort_desc l2).
    destruct (sort_desc l2) as [|z l] eqn:Hs; [by eexists|]. simpl.
    assert (Hz : z ∈ l2).
    { rewrite <-(sort_desc_perm l2), Hs. by left. }
    rewrite Forall_forall in H2. specialize (H2 z Hz).
    apply Qle_bool_iff in H2. rewrite H2. by eexists.
  - destruct IH as [rest Hrest]. unfold sort_desc in *. simpl. rewrite Hrest.
    simpl. destruct (Qle_bool (fst x) (fst y)) eqn:Hle.
    + apply Qle_bool_iff in Hle. lra.
    + by eexists.
Qed.

End Sorting.

Section Ranked.

Lemma keyed_key l : Forall (fun p => fst p = score (snd p)) (keyed l).
Proof. unfold keyed. apply Forall_fmap, Forall_true. done. Qed.

Lemma ranked_perm l : ranked l ≡ₚ l.
Proof.
  unfold ranked. rewrite sort_desc_perm. unfold keyed.
  rewrite <-list_fmap_compose. by rewrite list_fmap_id.
Qed.

Lemma ranked_sorted l :
  StronglySorted (fun x y => (score y <= score x)%Q) (ranked l).
Proof.
  unfold ranked.
  assert (Hk : Forall (fun p => fst p = score (snd p)) (sort_desc (keyed l))).
  { rewrite sort_desc_perm. apply keyed_key. }
  pose proof (sort_desc_sorted (keyed l)) as Hs.
  induction Hs as [|p l' Hs IH Hp]; [constructor|].
  apply Forall_cons in Hk as [Hp1 Hk]. rewrite fmap_cons.
  constructor; [by apply IH|].
  apply Forall_fmap. rewrite Forall_forall in Hp, Hk. apply Forall_forall.
  intros z Hz. specialize (Hp z Hz). specialize (Hk z Hz).
  unfold key_desc in Hp. simpl. by rewrite <-Hp1, <-Hk.
Qed.

Lemma with_score_keyed q l :
  Forall (fun p => fst p = score (snd p)) l ->
  with_score q (snd <$> l) = snd <$> with_key q l.
Proof.
  induction 1 as [|p l Hp _ IH]; [done|].
  unfold with_score, with_key in *. cbn [fmap list_fmap List.filter].
  rewrite Hp. destruct (Qeq_bool (score p.2) q); [|done].
  cbn [fmap list_fmap]. by f_equal.
Qed.

(** The sort is stable: entries with one score keep their order. *)
Lemma ranked_stable q l : with_score q (ranked l) = with_score q l.
Proof.
  unfold ranked. rewrite with_score_keyed.
  2:{ rewrite sort_desc_perm. apply keyed_key. }
  rewrite sort_desc_stable, <-with_score_keyed by apply keyed_key.
  unfold keyed. rewrite <-list_fmap_compose. by rewrite list_fmap_id.
Qed.

Lemma ranked_head l1 x l2 :
  Forall (fun y => (score y < score x)%Q) l1 ->
  Forall (fun y => (score y <= score x)%Q) l2 ->
  exists rest, ranked (l1 ++ x :: l2) = x :: rest.
Proof.
  intros H1 H2. unfold ranked, keyed. rewrite fmap_app, fmap_cons.
  destruct (sort_desc_head ((fun x => (score x, x)) <$> l1) (score x, x)
              ((fun x => (score x, x)) <$> l2)) as [rest ->].
  - by apply Forall_fmap.
  - by apply Forall_fmap.
  - by eexists.
Qed.

Lemma decorate_keyed l : Forall has_score l -> decorate l = Ok (keyed l).
Proof.
  induction 1 as [|x l [q Hq] _ IH]; [done|].
  cbn [decorate]. unfold score_key. rewrite Hq. cbn [default from_option id bind].
  rewrite IH. cbn [bind]. unfold keyed. rewrite fmap_cons.
  unfold score. by rewrite Hq.
Qed.

End Ranked.

Section RankingFacts.
Context `{UT : UnicodeTables}.

Lemma scan_select nf title : forall results index,
  Forall (well_formed nf) results ->
  scan nf title index results = Ok (select nf title index results).
Proof.
  induction results as [|c rest IH]; intros index Hwf; [done|].
  apply Forall_cons in Hwf as [[_ [n Hn]] Hrest].
  cbn [scan select]. rewrite (IH (S index) Hrest). cbn [bind].
  unfold kept, exact, scored, score_of. unfold name_of in *.
  destruct (default (VStr []) (c !! nf)); try discriminate.
  injection Hn as ->.
  destruct (bool_decide (lower n = lower title)); [done|]. cbn [orb].
  destruct (Qle_bool FUZZY_MATCH_THRESHOLD _); [done|]. cbn [orb].
  destruct (Qle_bool RELAXED_MATCH_THRESHOLD _); [done|]. cbn [orb].
  by destruct ((index =? 0)%nat && _).
Qed.

Lemma Qeq_bool_sym x y : Qeq_bool x y = Qeq_bool y x.
Proof.
  destruct (Qeq_bool x y) eqn:H1, (Qeq_bool y x) eqn:H2; try done.
  - apply Qeq_bool_iff in H1. symmetry in H1. apply Qeq_bool_iff in H1. congruence.
  - apply Qeq_bool_iff in H2. symmetry in H2. apply Qeq_bool_iff in H2. congruence.
Qed.

Lemma py_eq_sym v w : py_eq v w = py_eq w v.
Proof.
  destruct v, w; simpl; try done;
    try apply Z.eqb_sym; try apply Qeq_bool_sym.
  apply bool_decide_ext. naive_solver.
Qed.

Lemma py_eq_trans v w x : py_eq v w = true -> py_eq w x = true -> py_eq v x = true.
Proof.
  destruct v, w, x; simpl; try done;
    rewrite ?Z.eqb_eq, ?Qeq_bool_iff, ?bool_decide_eq_true;
    intros H1 H2;
    solve [ congruence
          | by rewrite H1
          | by rewrite <-H2
          | rewrite <-H1 in H2; unfold Qeq in H2; simpl in H2; lia ].
Qed.

Lemma hashable_id_scored nf title c :
  hashable_id (scored nf title c) <-> hashable_id c.
Proof. unfold hashable_id, scored. by rewrite lookup_insert_ne. Qed.

Lemma same_id_sym x y : same_id x y = same_id y x.
Proof. unfold same_id. destruct (x !! "id"), (y !! "id"); try done. apply py_eq_sym. Qed.

Lemma dedup_spec : forall matches seen,
  Forall hashable_id matches ->
  exists unique,
    dedup matches seen = Ok unique
    /\ sublist unique matches
    /\ distinct_ids unique
    /\ (forall x, x ∈ unique ->
          first_with_id matches x
          /\ forall v, x !! "id" = Some v -> existsb (py_eq v) seen = false).
Proof.
  induction matches as [|m rest IH]; intros seen Hid.
  { exists []. split; [done|]. split; [done|]. split.
    - intros i j x y _ H. by rewrite lookup_nil in H.
    - intros x H. by apply elem_of_nil in H. }
  apply Forall_cons in Hid as [(v & Hv & Hh) Hrest]. cbn [dedup]. rewrite Hv, Hh.
  destruct (existsb (py_eq v) seen) eqn:Hseen.
  - destruct (IH seen Hrest) as (unique & -> & Hsub & Hdist & Hfirst).
    exists unique. split; [done|]. split; [by apply sublist_cons|].
    split; [done|]. intros x H. split; [|by apply Hfirst].
    destruct (Hfirst x H) as [(pre & post & -> & Hpre) Hx].
      exists (m :: pre), post. split; [done|].
      intros y [->|Hy]%elem_of_cons; [|by apply Hpre].
      unfold same_id. rewrite Hv.
      destruct (x !! "id") as [w|] eqn:Hw; [|done].
      specialize (Hx w eq_refl).
      destruct (py_eq w v) eqn:Hwv; [|done].
      apply existsb_exists in Hseen as (s & Hs & Hvs).
      assert (existsb (py_eq w) seen = true); [|congruence].
      apply existsb_exists. exists s. split; [done|].
      by eapply py_eq_trans.
  - destruct (IH (v :: seen) Hrest) as (unique & -> & Hsub & Hdist & Hfirst).
    exists (m :: unique). cbn [bind].
    assert (Hm : forall x, x ∈ unique -> same_id x m = false).
    { intros x Hx. unfold same_id. rewrite Hv.
      destruct (x !! "id") as [w|] eqn:Hw; [|done].
      destruct (Hfirst x Hx) as [_ Hs]. specialize (Hs w Hw).
      simpl in Hs. by apply orb_false_iff in Hs as [? _]. }
    split; [done|]. split; [by apply sublist_skip|]. split; [|intros x H; split].
    + intros [|i] [|j] x y Hij Hi Hj; simpl in *; simplify_eq.
      * rewrite same_id_sym. apply Hm. by eapply list_elem_of_lookup_2.
      * apply Hm. by eapply list_elem_of_lookup_2.
      * eapply (Hdist i j); [lia|done..].
    + apply elem_of_cons in H as [->|Hx].
      * exists [], rest. split; [done|]. intros y Hy. by apply elem_of_nil in Hy.
      * destruct (Hfirst x Hx) as [(pre & post & -> & Hpre) _].
        exists (m :: pre), post. split; [done|].
        intros y [->|Hy]%elem_of_cons; [by apply Hm|by apply Hpre].
    + intros w Hw. apply elem_of_cons in H as [->|Hx].
      * by simplify_eq.
      * destruct (Hfirst x Hx) as [_ Hs]. specialize (Hs w Hw).
        simpl in Hs. by apply orb_false_iff in Hs as [_ ?].
Qed.
Lemma scored_score nf title c :
  scored nf title c !! "_score" = Some (VFloat (score_of nf title c)).
Proof. unfold scored. apply lookup_insert_eq. Qed.

Lemma scored_other nf title c k :
  k <> "_score" -> scored nf title c !! k = c !! k.
Proof. intros H. unfold scored. by rewrite lookup_insert_ne. Qed.

Lemma score_scored nf title c : score (scored nf title c) = score_of nf title c.
Proof. unfold score. by rewrite scored_score. Qed.

Lemma same_id_scored nf title c d :
  same_id (scored nf title c) (scored nf title d) = same_id c d.
Proof. unfold same_id. by rewrite !scored_other. Qed.

Lemma lower_from_nonempty s before : s <> [] -> lower_from before s <> [].
Proof.
  destruct s as [|c s]; [done|]. intros _. simpl. unfold lower_at.
  destruct (c <? 128); [done|]. destruct (is_space c); [done|].
  by destruct (uni_lower before c s).
Qed.

Lemma lower_nonempty s : s <> [] -> lower s <> [].
Proof. apply lower_from_nonempty. Qed.

Local Open Scope Q_scope.

Lemma score_of_range nf title c : 0 <= score_of nf title c <= 1.
Proof.
  unfold score_of. destruct (name_of nf c) as [n|]; [|lra].
  destruct (bool_decide (lower n = lower title)).
  - split; discriminate.
  - apply difflib_facts.ratio_range.
Qed.

Lemma score_of_exact nf title c : exact nf title c = true -> score_of nf title c = 1.0.
Proof.
  unfold exact, score_of. destruct (name_of nf c) as [n|]; [|done].
  by intros ->.
Qed.

Lemma score_of_not_exact nf title c :
  exact nf title c = false -> score_of nf title c < 1.
Proof.
  unfold exact, score_of. destruct (name_of nf c) as [n|]; [|lra].
  intros Hne. rewrite Hne. apply bool_decide_eq_false in Hne.
  pose proof (difflib_facts.ratio_range (lower title) (lower n)) as [_ Hle].
  destruct (Qlt_le_dec (difflib.ratio (lower title) (lower n)) 1) as [|Hge]; [done|].
  exfalso. apply Hne. symmetry. apply difflib_facts.ratio_one. lra.
Qed.

Lemma kept_exact nf title index c : exact nf title c = true -> kept nf title index c = true.
Proof. unfold kept. by intros ->. Qed.

Local Close Scope Q_scope.

Lemma select_elem nf title x : forall results index,
  x ∈ select nf title index results ->
  exists i c, results !! i = Some c
    /\ kept nf title (index + i) c = true /\ x = scored nf title c.
Proof.
  induction results as [|c rest IH]; intros index Hx; simpl in Hx.
  - by apply elem_of_nil in Hx.
  - destruct (kept nf title index c) eqn:Hk.
    + apply elem_of_cons in Hx as [->|Hx].
      * exists 0%nat, c. by rewrite Nat.add_0_r.
      * apply IH in Hx as (i & d & Hi & Hd & ->).
        exists (S i), d. by rewrite <-Nat.add_succ_comm.
    + apply IH in Hx as (i & d & Hi & Hd & ->).
      exists (S i), d. by rewrite <-Nat.add_succ_comm.
Qed.

Lemma select_sublist nf title : forall results index,
  sublist (select nf title index results) (scored nf title <$> results).
Proof.
  induction results as [|c rest IH]; intros index; simpl; [constructor|].
  destruct (kept nf title index c).
  - apply sublist_skip, IH.
  - apply sublist_cons, IH.
Qed.

Lemma select_app nf title : forall l1 l2 index,
  select nf title index (l1 ++ l2)
  = select nf title index l1 ++ select nf title (index + length l1) l2.
Proof.
  induction l1 as [|c l1 IH]; intros l2 index; simpl.
  - by rewrite Nat.add_0_r.
  - rewrite IH, <-Nat.add_succ_comm. by destruct (kept nf title index c).
Qed.

(** What the matcher returns for records it can process. *)
Lemma match_candidates_spec nf title results :
  Forall (well_formed nf) results ->
  exists unique,
    dedup (select nf title 0 results) [] = Ok unique
    /\ match_candidates nf title results = Ok (take 5 (ranked unique)).
Proof.
  intros Hwf.
  destruct (dedup_spec (select nf title 0 results) []) as (unique & Hd & Hsub & _).
  { apply Forall_forall. intros x Hx.
    apply select_elem in Hx as (i & c & Hi & _ & ->).
    apply hashable_id_scored.
    rewrite Forall_forall in Hwf. apply (Hwf c). by eapply list_elem_of_lookup_2. }
  exists unique. split; [done|].
  destruct results as [|c rest]; [simpl in Hd; by injection Hd as <-|].
  unfold match_candidates. rewrite scan_select by done. cbn [bind].
  rewrite Hd. cbn [bind]. rewrite decorate_keyed; [done|].
  apply Forall_forall. intros x Hx.
  assert (Hsel : x ∈ select nf title 0 (c :: rest)).
  { by eapply elem_of_sublist. }
  apply select_elem in Hsel as (i & d & _ & _ & ->).
  eexists. apply scored_score.
Qed.
Lemma distinct_ids_sorted l :
  distinct_ids l <-> StronglySorted (fun x y => same_id x y = false) l.
Proof.
  split.
  - induction l as [|x l IH]; intros H; [constructor|]. constructor.
    + apply IH. intros i j y z Hij Hi Hj. by apply (H (S i) (S j)); [lia|..].
    + apply Forall_forall. intros y Hy.
      apply list_elem_of_lookup_1 in Hy as [j Hj].
      by apply (H 0%nat (S j)).
  - induction 1 as [|x l Hs IH Hx]; intros i j y z Hij Hi Hj.
    + by rewrite lookup_nil in Hi.
    + rewrite Forall_forall in Hx.
      destruct i as [|i], j as [|j]; simpl in *; simplify_eq.
      * apply Hx. by eapply list_elem_of_lookup_2.
      * rewrite same_id_sym. apply Hx. by eapply list_elem_of_lookup_2.
      * by apply (IH i j); [lia|..].
Qed.

Lemma select_ids nf title results index :
  Forall (well_formed nf) results ->
  Forall hashable_id (select nf title index results).
Proof.
  intros Hwf. apply Forall_forall. intros x Hx.
  apply select_elem in Hx as (i & c & Hi & _ & ->).
  apply hashable_id_scored.
  rewrite Forall_forall in Hwf. apply (Hwf c). by eapply list_elem_of_lookup_2.
Qed.

(** A record without the name field, for a non-empty title. *)
Lemma nameless_score nf title index c :
  title <> [] -> c !! nf = None ->
  (score_of nf title c == 0)%Q /\ kept nf title index c = false.
Proof.
  intros Ht Hc.
  assert (Hn : name_of nf c = Some []) by (unfold name_of; by rewrite Hc).
  assert (Hne : bool_decide (lower [] = lower title) = false).
  { apply bool_decide_eq_false. intros H. by apply (lower_nonempty title). }
  assert (Hs : (score_of nf title c == 0)%Q).
  { unfold score_of. rewrite Hn, Hne.
    apply difflib_facts.ratio_nil_r. by apply lower_nonempty. }
  split; [done|]. unfold kept, exact. rewrite Hn, Hne. cbn [orb].
  assert (Hq : forall t, (0 < t)%Q -> Qle_bool t (score_of nf title c) = false).
  { intros t Hpos. destruct (Qle_bool t (score_of nf title c)) eqn:Hle; [|done].
    apply Qle_bool_iff in Hle. lra. }
  rewrite !Hq by done. by rewrite andb_false_r.
Qed.

Lemma nameless_dropped nf title results :
  nf <> "_score" -> title <> [] ->
  Forall (well_formed nf) results ->
  exists ranking,
    match_candidates nf title results = Ok ranking
    /\ forall x, x ∈ ranking -> is_Some (x !! nf).
Proof.
  intros Hnf Ht Hwf.
  destruct (match_candidates_spec nf title results Hwf) as (unique & Hd & ->).
  destruct (dedup_spec _ [] (select_ids nf title results 0 Hwf))
    as (unique' & Hd' & Hsub & _).
  rewrite Hd in Hd'. injection Hd' as <-.
  eexists. split; [done|]. intros x Hx.
  assert (Hsel : x ∈ select nf title 0 results).
  { eapply elem_of_sublist; [|exact Hsub]. rewrite <-(ranked_perm unique).
    eapply elem_of_sublist; [exact Hx|apply sublist_take]. }
  apply select_elem in Hsel as (i & c & Hi & Hk & ->).
  rewrite scored_other by done.
  destruct (c !! nf) eqn:Hc; [done|].
  destruct (nameless_score nf title (0 + i) c Ht Hc) as [_ Hk']. congruence.
Qed.

Lemma dedup_app l2 : forall l1 seen u1,
  dedup l1 seen = Ok u1 ->
  exists seen',
    (forall s, s ∈ seen' -> s ∈ seen \/ exists m, m ∈ u1 /\ m !! "id" = Some s)
    /\ dedup (l1 ++ l2) seen = (u2 <- dedup l2 seen' ;; Ok (u1 ++ u2)).
Proof.
  induction l1 as [|m l1 IH]; intros seen u1 H; cbn [dedup app] in *.
  - injection H as <-. exists seen. split; [by left|].
    by destruct (dedup l2 seen).
  - destruct (m !! "id") as [v|] eqn:Hv; [|discriminate].
    destruct (hashable v); [|discriminate].
    destruct (existsb (py_eq v) seen) eqn:He.
    + by apply IH.
    + destruct (dedup l1 (v :: seen)) as [u1'|] eqn:Hu; [|discriminate].
      cbn [bind] in H. injection H as <-.
      destruct (IH _ _ Hu) as (seen' & Hseen & ->).
      exists seen'. split.
      * intros s Hs. destruct (Hseen s Hs) as [[->|Hin]%elem_of_cons|(m' & Hm & Hid)].
        -- right. exists m. split; [by left|done].
        -- by left.
        -- right. exists m'. split; [by right|done].
      * by destruct (dedup l2 seen').
Qed.

(** The loop stores 1.0 in an exact match and appends it, wherever it
    stands; the record heads the ranking when no kept record in front of it
    is an exact match or carries its identifier. *)
Lemma exact_match_first nf title results i c :
  Forall (well_formed nf) results ->
  results !! i = Some c ->
  exact nf title c = true ->
  (exists matches,
     scan nf title 0 results = Ok matches
     /\ <["_score" := VFloat 1.0]> c ∈ matches)
  /\ ((forall j d, (j < i)%nat -> results !! j = Some d ->
         kept nf title j d = true ->
         exact nf title d = false /\ same_id c d = false) ->
      exists rest,
        match_candidates nf title results
        = Ok (<["_score" := VFloat 1.0]> c :: rest)).
Proof.
  intros Hwf Hi Hex.
  assert (Hsc : scored nf title c = <["_score" := VFloat 1.0]> c).
  { unfold scored. by rewrite (score_of_exact _ _ _ Hex). }
  pose proof (take_drop_middle results i c Hi) as Hsplit.
  assert (Hlen : length (take i results) = i).
  { apply length_take_le. apply lookup_lt_Some in Hi. lia. }
  set (pre := take i results) in *. set (post := drop (S i) results) in *.
  assert (Hsel : select nf title 0 results
                 = select nf title 0 pre
                   ++ scored nf title c :: select nf title (S i) post).
  { rewrite <-Hsplit, select_app. cbn [select].
    by rewrite Nat.add_0_l, Hlen, (kept_exact _ _ _ _ Hex). }
  split.
  { exists (select nf title 0 results). split; [by apply scan_select|].
    rewrite Hsel, <-Hsc. apply elem_of_app. right. by left. }
  intros Hbefore. rewrite <-Hsc.
  destruct (match_candidates_spec nf title results Hwf) as (unique & Hd & ->).
  assert (Hwf' : Forall (well_formed nf) (pre ++ c :: post)) by by rewrite Hsplit.
  apply Forall_app in Hwf' as [Hpre Hpost].
  apply Forall_cons in Hpost as [[(v & Hv & Hh) _] Hpost].
  rewrite Hsel in Hd.
  destruct (dedup_spec _ [] (select_ids nf title pre 0 Hpre))
    as (u1 & Hu1 & Hsub1 & _).
  destruct (dedup_app (scored nf title c :: select nf title (S i) post) _ _ _ Hu1)
    as (seen' & Hseen & Happ).
  rewrite Happ in Hd. clear Happ. cbn [dedup] in Hd.
  rewrite scored_other, Hv, Hh in Hd by done.
  assert (Hpre_elem : forall m, m ∈ u1 ->
            exists j d, (j < i)%nat /\ results !! j = Some d
              /\ kept nf title j d = true /\ m = scored nf title d).
  { intros m Hm. assert (Hm' : m ∈ select nf title 0 pre)
      by by eapply elem_of_sublist.
    apply select_elem in Hm' as (j & d & Hj & Hk & ->).
    exists j, d. assert (j < i)%nat by (apply lookup_lt_Some in Hj; lia).
    repeat split; try done. subst pre. by rewrite lookup_take_lt in Hj. }
  assert (He : existsb (py_eq v) seen' = false).
  { destruct (existsb (py_eq v) seen') eqn:He; [|done].
    apply existsb_exists in He as (s & Hs & Hvs).
    apply list_elem_of_In in Hs.
    destruct (Hseen s Hs) as [Hnil|(m & Hm & Hid)]; [by apply elem_of_nil in Hnil|].
    destruct (Hpre_elem m Hm) as (j & d & Hj & Hd' & Hk & ->).
    destruct (Hbefore j d Hj Hd' Hk) as [_ Hsame].
    rewrite scored_other in Hid by done.
    unfold same_id in Hsame. rewrite Hv, Hid in Hsame. congruence. }
  rewrite He in Hd.
  destruct (dedup_spec _ (v :: seen') (select_ids nf title post (S i) Hpost))
    as (u2 & Hu2 & Hsub2 & _).
  rewrite Hu2 in Hd. cbn [bind] in Hd. injection Hd as <-.
  destruct (ranked_head u1 (scored nf title c) u2) as [rest Hrest].
  - apply Forall_forall. intros m Hm.
    destruct (Hpre_elem m Hm) as (j & d & Hj & Hd' & Hk & ->).
    destruct (Hbefore j d Hj Hd' Hk) as [Hne _].
    rewrite !score_scored, (score_of_exact _ _ _ Hex).
    pose proof (score_of_not_exact _ _ _ Hne). lra.
  - apply Forall_forall. intros m Hm.
    assert (Hm' : m ∈ select nf title (S i) post) by by eapply elem_of_sublist.
    apply select_elem in Hm' as (j & d & _ & _ & ->).
    rewrite !score_scored, (score_of_exact _ _ _ Hex).
    pose proof (score_of_range nf title d). lra.
  - rewrite Hrest. by eexists.
Qed.
Lemma scan_named nf title : forall results index,
  Forall (fun c => is_Some (name_of nf c)) results ->
  scan nf title index results = Ok (select nf title index results).
Proof.
  induction results as [|c rest IH]; intros index Hn; [done|].
  apply Forall_cons in Hn as [[n Hn] Hrest].
  cbn [scan select]. rewrite (IH (S index) Hrest). cbn [bind].
  unfold kept, exact, scored, score_of. unfold name_of in *.
  destruct (default (VStr []) (c !! nf)); try discriminate.
  injection Hn as ->.
  destruct (bool_decide (lower n = lower title)); [done|]. cbn [orb].
  destruct (Qle_bool FUZZY_MATCH_THRESHOLD _); [done|]. cbn [orb].
  destruct (Qle_bool RELAXED_MATCH_THRESHOLD _); [done|]. cbn [orb].
  by destruct ((index =? 0)%nat && _).
Qed.

Lemma scan_Ok_named nf title : forall results index matches,
  scan nf title index results = Ok matches ->
  Forall (fun c => is_Some (name_of nf c)) results.
Proof.
  induction results as [|c rest IH]; intros index matches H; [constructor|].
  cbn [scan] in H. unfold name_of.
  destruct (default (VStr []) (c !! nf)) eqn:Hc; try discriminate.
  constructor; [by rewrite Hc|].
  destruct (scan nf title (S index) rest) as [m|] eqn:Hs.
  - by eapply IH.
  - by destruct (bool_decide _).
Qed.

Lemma dedup_Ok_ids : forall l seen unique,
  dedup l seen = Ok unique -> Forall hashable_id l.
Proof.
  induction l as [|m l IH]; intros seen unique H; [constructor|].
  cbn [dedup] in H. destruct (m !! "id") as [v|] eqn:Hv; [|discriminate].
  destruct (hashable v) eqn:Hh; [|discriminate].
  constructor; [by exists v|].
  destruct (existsb (py_eq v) seen); [by eapply IH|].
  destruct (dedup l (v :: seen)) eqn:Hd; [by eapply IH|discriminate].
Qed.

(** The shape of every result the matcher returns. *)
Lemma match_candidates_inv nf title results ranking :
  match_candidates nf title results = Ok ranking ->
  exists unique,
    dedup (select nf title 0 results) [] = Ok unique
    /\ ranking = take 5 (ranked unique).
Proof.
  intros H. destruct results as [|c rest].
  { unfold match_candidates in H. injection H as <-. by exists []. }
  unfold match_candidates in H.
  destruct (scan nf title 0 (c :: rest)) as [matches|] eqn:Hs; [|discriminate].
  pose proof (scan_Ok_named _ _ _ _ _ Hs) as Hn.
  rewrite (scan_named _ _ _ _ Hn) in Hs.
  remember (select nf title 0 (c :: rest)) as sel eqn:Hsel.
  injection Hs as <-. cbn [bind] in H.
  destruct (dedup sel []) as [unique|] eqn:Hd; cbn [bind] in H; [|discriminate H].
  subst sel. exists unique. split; [done|].
  destruct (dedup_spec _ [] (dedup_Ok_ids _ _ _ Hd)) as (u' & Hd' & Hsub & _).
  rewrite Hd in Hd'. injection Hd' as <-.
  rewrite decorate_keyed in H; [by injection H as <-|].
  apply Forall_forall. intros x Hx.
  assert (Hin : x ∈ select nf title 0 (c :: rest)) by by eapply elem_of_sublist.
  apply select_elem in Hin as (i & d & _ & _ & ->).
  eexists. apply scored_score.
Qed.

Lemma match_candidates_returns nf title results :
  Forall (well_formed nf) results -> returns (match_candidates nf title results).
Proof.
  intros Hwf. destruct (match_candidates_spec nf title results Hwf) as (x & _ & H).
  by eexists.
Qed.

Lemma ranking_ok_inv nf title results ranking :
  match_candidates nf title results = Ok ranking ->
  ranking_ok nf title results ranking.
Proof.
  intros H. apply match_candidates_inv in H as (unique & Hd & ->).
  destruct (dedup_spec _ [] (dedup_Ok_ids _ _ _ Hd))
    as (unique' & Hd' & Hsub & Hdist & Hfirst).
  rewrite Hd in Hd'. injection Hd' as <-.
  assert (Htake : sublist (take 5 (ranked unique)) (ranked unique))
    by apply sublist_take.
  split; [rewrite length_take; lia|]. split; [|split; [|split]].
  - apply distinct_ids_sorted. eapply StronglySorted_sublist; [exact Htake|].
    eapply StronglySorted_perm; [|symmetry; apply ranked_perm|by apply distinct_ids_sorted].
    intros x y H. by rewrite same_id_sym.
  - intros x Hx. apply Hfirst. rewrite <-(ranked_perm unique).
    by eapply elem_of_sublist.
  - eapply StronglySorted_sublist; [exact Htake|]. apply ranked_sorted.
  - intros q. etrans; [apply sublist_List_filter, Htake|].
    fold (with_score q (ranked unique)). rewrite ranked_stable.
    etrans; [apply List_filter_sublist|]. etrans; [exact Hsub|].
    apply select_sublist.
Qed.

Lemma ranking_scores_inv nf title results ranking :
  match_candidates nf title results = Ok ranking ->
  forall x, x ∈ ranking ->
    exists c q, c ∈ results /\ x = <["_score" := VFloat q]> c
      /\ (0 <= q <= 1)%Q.
Proof.
  intros H x Hx. apply match_candidates_inv in H as (unique & Hd & ->).
  destruct (dedup_spec _ [] (dedup_Ok_ids _ _ _ Hd)) as (unique' & Hd' & Hsub & _).
  rewrite Hd in Hd'. injection Hd' as <-.
  assert (Hsel : x ∈ select nf title 0 results).
  { eapply elem_of_sublist; [|exact Hsub]. rewrite <-(ranked_perm unique).
    eapply elem_of_sublist; [exact Hx|apply sublist_take]. }
  apply select_elem in Hsel as (i & c & Hi & _ & ->).
  exists c, (score_of nf title c). split; [by eapply list_elem_of_lookup_2|].
  split; [done|apply score_of_range].
Qed.
End RankingFacts.

(** * Further properties of the parsers *)

Section StringFacts.

Lemma rstrip_app_space s ws :
  Forall (fun c => is_space c = true) ws -> rstrip (s ++ ws) = rstrip s.
Proof.
  intros H. unfold rstrip. rewrite rev_app_distr.
  by rewrite lstrip_app_space by (by apply Forall_rev).
Qed.

Lemma rstrip_space ws :
  Forall (fun c => is_space c = true) ws -> rstrip ws = [].
Proof. intros H. unfold rstrip. by rewrite lstrip_space by (by apply Forall_rev). Qed.

Lemma strip_app_space s ws :
  Forall (fun c => is_space c = true) ws -> strip (s ++ ws) = strip s.
Proof.
  intros H. unfold strip. induction s as [|c s IH]; simpl.
  - by rewrite lstrip_space.
  - destruct (is_space c); [done|]. by rewrite app_comm_cons, rstrip_app_space.
Qed.

Lemma lstrip_suffix s :
  exists ws, s = ws ++ lstrip s /\ Forall (fun c => is_space c = true) ws.
Proof.
  induction s as [|c s (ws & IH & Hws)]; [by exists []|]. simpl.
  destruct (is_space c) eqn:Hc.
  - exists (c :: ws). split; [simpl; by f_equal|by constructor].
  - by exists [].
Qed.

Lemma rstrip_prefix s :
  exists ws, s = rstrip s ++ ws /\ Forall (fun c => is_space c = true) ws.
Proof.
  unfold rstrip. destruct (lstrip_suffix (rev s)) as (ws & Hs & Hws).
  exists (rev ws). split; [|by apply Forall_rev].
  rewrite <-rev_app_distr, <-Hs. by rewrite rev_involutive.
Qed.

Lemma lstrip_head s c s' : lstrip s = c :: s' -> is_space c = false.
Proof.
  induction s as [|x s IH]; [done|]. simpl.
  destruct (is_space x) eqn:Hx; [done|]. by intros [= <- _].
Qed.

Lemma rstrip_idemp s : rstrip (rstrip s) = rstrip s.
Proof.
  unfold rstrip. rewrite rev_involutive. f_equal.
  induction (rev s) as [|c l IH]; [done|]. simpl.
  destruct (is_space c) eqn:Hc; [done|]. simpl. by rewrite Hc.
Qed.

(** [rstrip] keeps the first code point of a text that starts with no
    white space. *)
Lemma rstrip_cons c s :
  is_space c = false -> exists r, rstrip (c :: s) = c :: r.
Proof.
  intros Hc. destruct (rstrip_prefix (c :: s)) as (ws & Hs & Hws).
  destruct (rstrip (c :: s)) as [|x r] eqn:Hr.
  - simpl in Hs. subst ws. apply Forall_cons in Hws as [? _]. congruence.
  - injection Hs as <- _. by exists r.
Qed.

Lemma strip_idemp s : strip (strip s) = strip s.
Proof.
  unfold strip. destruct (lstrip s) as [|c l] eqn:Hl; [done|].
  pose proof (lstrip_head _ _ _ Hl) as Hc.
  destruct (rstrip_cons c l Hc) as [r Hr]. rewrite Hr.
  simpl. rewrite Hc, <-Hr. apply rstrip_idemp.
Qed.

Lemma strip_prefix_lstrip s : strip s `prefix_of` lstrip s.
Proof.
  unfold strip. destruct (rstrip_prefix (lstrip s)) as (ws & Hs & _).
  by exists ws.
Qed.

Lemma lstrip_app s x : lstrip s `prefix_of` lstrip (s ++ x).
Proof.
  induction s as [|c s IH]; simpl; [apply prefix_nil|].
  destruct (is_space c); [done|]. by exists x.
Qed.

Lemma lstrip_keeps A c X :
  is_space c = false -> exists A', lstrip (A ++ c :: X) = A' ++ c :: X.
Proof.
  intros Hc. induction A as [|a A [A' IH]]; simpl.
  - exists []. by rewrite Hc.
  - destruct (is_space a); [by exists A'|]. by exists (a :: A).
Qed.

Lemma rstrip_keeps Y c B :
  is_space c = false -> exists B', rstrip (Y ++ c :: B) = Y ++ c :: B'.
Proof.
  intros Hc. unfold rstrip. rewrite rev_app_distr. simpl. rewrite <-app_assoc. simpl.
  destruct (lstrip_keeps (rev B) c (rev Y) Hc) as [B' ->].
  exists (rev B'). rewrite rev_app_distr. simpl. by rewrite rev_involutive, <-app_assoc.
Qed.

(** [strip] keeps a piece of text that starts and ends with code points
    other than white space. *)
Lemma strip_keeps A f mid l B :
  is_space f = false -> is_space l = false ->
  exists A' B', strip (A ++ f :: mid ++ l :: B) = A' ++ f :: mid ++ l :: B'.
Proof.
  intros Hf Hl. unfold strip.
  destruct (lstrip_keeps A f (mid ++ l :: B) Hf) as [A' ->].
  destruct (rstrip_keeps (A' ++ f :: mid) l B Hl) as [B' HB].
  exists A', B'. rewrite <-app_assoc in HB. simpl in HB.
  by rewrite <-app_assoc in HB.
Qed.

(** A text is cut in one way only into white space, a code point that is
    none, and the rest. *)
Lemma space_run_inj ws ws' c c' x x' :
  ws ++ c :: x = ws' ++ c' :: x' ->
  Forall (fun c => is_space c = true) ws ->
  Forall (fun c => is_space c = true) ws' ->
  is_space c = false -> is_space c' = false ->
  ws = ws' /\ c = c' /\ x = x'.
Proof.
  revert ws'. induction ws as [|a ws IH]; intros [|a' ws'] H Hws Hws' Hc Hc';
    simpl in H.
  - by injection H as -> ->.
  - injection H as -> _. apply Forall_cons in Hws' as [? _]. congruence.
  - injection H as -> _. apply Forall_cons in Hws as [? _]. congruence.
  - injection H as -> H. apply Forall_cons in Hws as [_ Hws].
    apply Forall_cons in Hws' as [_ Hws'].
    destruct (IH ws' H Hws Hws' Hc Hc') as (-> & -> & ->). done.
Qed.

Lemma space_tail_inj x x' c c' ws ws' :
  x ++ c :: ws = x' ++ c' :: ws' ->
  Forall (fun c => is_space c = true) ws ->
  Forall (fun c => is_space c = true) ws' ->
  is_space c = false -> is_space c' = false ->
  x = x' /\ c = c' /\ ws = ws'.
Proof.
  intros H Hws Hws' Hc Hc'. apply (f_equal (@rev N)) in H.
  rewrite !rev_app_distr in H. simpl in H. rewrite <-!app_assoc in H. simpl in H.
  apply space_run_inj in H as (H1 & -> & H2); try done; try by apply Forall_rev.
  apply (f_equal (@rev N)) in H1, H2. rewrite !rev_involutive in H1, H2.
  by subst.
Qed.

Lemma split_from_space cur ws :
  Forall (fun c => is_space c = true) ws ->
  split_from cur ws = split_from cur [].
Proof.
  intros H. revert cur. induction H as [|c ws Hc _ IH]; intros cur; [done|].
  cbn [split_from]. rewrite Hc. destruct cur; rewrite IH; reflexivity.
Qed.

Lemma split_from_app_space y ws : forall cur,
  Forall (fun c => is_space c = true) ws ->
  split_from cur (y ++ ws) = split_from cur y.
Proof.
  induction y as [|c y IH]; intros cur H.
  - by apply split_from_space.
  - cbn [app split_from]. destruct (is_space c); [|by apply IH].
    destruct cur; by rewrite IH.
Qed.

Lemma split_lstrip x : split (lstrip x) = split x.
Proof.
  unfold split. induction x as [|c x IH]; [done|]. cbn [lstrip split_from].
  destruct (is_space c) eqn:Hc; [done|]. cbn [split_from]. by rewrite Hc.
Qed.

(** [str.split()] does not see white space around the text. *)
Lemma split_strip x : split (strip x) = split x.
Proof.
  unfold strip. rewrite <-(split_lstrip x).
  destruct (rstrip_prefix (lstrip x)) as (ws & Hl & Hws).
  rewrite Hl at 2. unfold split. by rewrite split_from_app_space.
Qed.

Lemma strip_of_prefix pre post :
  strip (strip pre) = strip pre /\ strip pre `prefix_of` lstrip (pre ++ post).
Proof.
  split; [apply strip_idemp|].
  etrans; [apply strip_prefix_lstrip|apply lstrip_app].
Qed.

Lemma strip_of_whole s : strip (strip s) = strip s /\ strip s `prefix_of` lstrip s.
Proof. pose proof (strip_of_prefix s []) as H. by rewrite app_nil_r in H. Qed.

End StringFacts.

Section SearchFacts.
Context `{UT : UnicodeTables}.

(** The search finds a match when there is one to find. *)
Lemma search_from_found p : forall pre pos prev rest,
  is_Some (match_here p false (pos + length pre) (prev_after prev pre) rest) ->
  is_Some (search_from p false pos prev (pre ++ rest)).
Proof.
  induction pre as [|c pre IH]; intros pos prev rest H; simpl in *.
  - rewrite Nat.add_0_r in H. destruct rest; simpl; destruct H as [m ->]; by eexists.
  - destruct (match_here p false pos prev (c :: pre ++ rest)); [by eexists|].
    apply IH. by rewrite <-Nat.add_succ_comm in H.
Qed.

Lemma star_match_all {R} cc g (k : mstate -> option R) run prev :
  Forall (fun c => cc_test cc c = true) run ->
  is_Some (k {| st_prev := prev_after prev run; st_rest := []; st_groups := g |}) ->
  is_Some (star_match cc g prev run k).
Proof.
  intros Hrun [x Hx]. exists x.
  pose proof (star_match_run cc g k x run prev [] Hrun Hx) as H.
  by rewrite app_nil_r in H.
Qed.

Lemma star_match_run_some {R} cc g (k : mstate -> option R) run prev rest :
  Forall (fun c => cc_test cc c = true) run ->
  is_Some (star_match cc g (prev_after prev run) rest k) ->
  is_Some (star_match cc g prev (run ++ rest) k).
Proof. intros Hrun [x Hx]. exists x. by apply star_match_run. Qed.

Lemma is_Some_first {A} (a b : option A) :
  is_Some a -> is_Some (match a with Some x => Some x | None => b end).
Proof. by intros [x ->]. Qed.

Lemma at_end_rest st :
  at_end st = true ->
  Forall (fun c => is_space c = true) (st_rest st) /\ (length (st_rest st) <= 1)%nat.
Proof.
  unfold at_end. destruct (st_rest st) as [|c [|c' r]]; try done.
  - intros _. split; [constructor|simpl; lia].
  - intros ->%N.eqb_eq. split; [by repeat constructor|simpl; lia].
Qed.

Lemma sub_loop_once p fuel s m R :
  search_from p false 0 None s = Some m ->
  drop (m_end m) s = R ->
  (forall ma pos prev, search_from p ma pos prev R = None) ->
  sub_loop (S (S fuel)) p false 0 None s = Some (take (m_start m) s ++ R).
Proof.
  intros Hs Hd Hn. cbn [sub_loop]. rewrite Hs, !Nat.sub_0_r, Hd.
  destruct fuel; cbn [sub_loop]; by rewrite Hn.
Qed.

Lemma re_sub_once pat p s m R :
  re_compile pat = Ok p ->
  search_from p false 0 None s = Some m ->
  drop (m_end m) s = R ->
  (forall ma pos prev, search_from p ma pos prev R = None) ->
  re_sub pat s = Ok (take (m_start m) s ++ R).
Proof.
  intros Hp Hs Hd Hn. unfold re_sub. rewrite Hp. cbn [bind].
  replace (2 * length s + 2)%nat with (S (S (2 * length s))) by lia.
  by rewrite (sub_loop_once p _ s m R).
Qed.

Lemma found_search pat p s :
  re_compile pat = Ok p ->
  found pat s = Ok (bool_decide (is_Some (search_from p false 0 None s))).
Proof.
  intros Hp. unfold found. rewrite (re_search_compiled _ _ p Hp). cbn [bind].
  destruct (search_from p false 0 None s) as [m|].
  - by rewrite bool_decide_eq_true_2.
  - rewrite bool_decide_eq_false_2; [done|]. by intros [? ?].
Qed.

End SearchFacts.

Section YearFacts.
Context `{UT : UnicodeTables}.

Lemma year_search_short ma pos prev R :
  (length R <= 1)%nat -> search_from year_re ma pos prev R = None.
Proof.
  intros Hl. destruct (search_from year_re ma pos prev R) as [m|] eqn:H; [|done].
  apply search_from_sound in H
    as (sk & rest1 & prev1 & st' & -> & Hm & _).
  apply year_re_shape in Hm as (ws1 & d1 & d2 & d3 & d4 & ws2 & Hr & _).
  simpl in Hr. subst rest1. rewrite !length_app in Hl. simpl in Hl. lia.
Qed.

Lemma trailing_search_short ma pos prev R :
  (length R <= 1)%nat -> search_from trailing_year_re ma pos prev R = None.
Proof.
  intros Hl.
  destruct (search_from trailing_year_re ma pos prev R) as [m|] eqn:H; [|done].
  apply search_from_sound in H
    as (sk & rest1 & prev1 & st' & -> & Hm & _).
  apply trailing_year_re_shape in Hm
    as (w & ws1 & c1 & c2 & d3 & d4 & ws2 & Hr & _).
  simpl in Hr. subst rest1. rewrite !length_app in Hl. simpl in Hl.
  rewrite !length_app in Hl. simpl in Hl. lia.
Qed.

(** What a match of the parenthesized-year pattern says about the text, and
    what [re.sub] leaves of it. *)
Lemma year_match_form s m :
  search_from year_re false 0 None s = Some m ->
  exists pre d1 d2 d3 d4 ws,
    s = pre ++ 40 :: d1 :: d2 :: d3 :: d4 :: 41 :: ws
    /\ Forall (fun c => is_space c = true) ws
    /\ Forall (fun d => is_decimal d = true) [d1; d2; d3; d4]
    /\ group m 1 = Some [d1; d2; d3; d4]
    /\ exists t, re_sub year_pattern s = Ok t /\ strip t = strip pre.
Proof.
  intros Hs. pose proof Hs as Hs'.
  apply search_from_sound in Hs'
    as (sk & rest1 & prev1 & st' & -> & Hm & Hst & He & Hg & _ & _).
  apply year_re_shape in Hm
    as (ws1 & d1 & d2 & d3 & d4 & ws2 & Hr & Hw1 & Hw2 & Hd & Hend & H1).
  simpl in Hr, Hst, He. apply at_end_rest in Hend as [HR Hshort].
  set (R := st_rest st') in *.
  exists (sk ++ ws1), d1, d2, d3, d4, (ws2 ++ R).
  split; [subst rest1; by rewrite <-app_assoc|].
  split; [by apply Forall_app|]. split; [done|].
  split; [unfold group; by rewrite Hg|].
  exists (sk ++ R). split.
  - rewrite (re_sub_once year_pattern year_re _ m R); try done.
    + rewrite Hst, take_app_length. done.
    + rewrite He, Hst. subst rest1.
      replace (sk ++ ws1 ++ 40 :: d1 :: d2 :: d3 :: d4 :: 41 :: ws2 ++ R)
        with ((sk ++ ws1 ++ 40 :: d1 :: d2 :: d3 :: d4 :: 41 :: ws2) ++ R)
        by (rewrite <-!app_assoc; simpl; rewrite <-?app_assoc; reflexivity).
      apply drop_app_length'. rewrite !length_app. simpl. rewrite !length_app. lia.
    + intros. by apply year_search_short.
  - by rewrite !strip_app_space.
Qed.

Lemma year_match_here pos prev d1 d2 d3 d4 ws :
  Forall (fun d => is_decimal d = true) [d1; d2; d3; d4] ->
  Forall (fun c => is_space c = true) ws ->
  is_Some (match_here year_re false pos prev (40 :: d1 :: d2 :: d3 :: d4 :: 41 :: ws)).
Proof.
  intros Hd Hws.
  repeat match goal with
  | H : Forall _ (_ :: _) |- _ => apply Forall_cons in H as [? H]
  end.
  unfold match_here, year_re, pat_re.
  cbn [rmatch st_rest st_prev st_groups star_match cc_test advance].
  replace (is_space 40) with false by reflexivity.
  cbn [rmatch st_rest st_prev st_groups star_match cc_test advance].
  rewrite N.eqb_refl.
  cbn [rmatch st_rest st_prev st_groups star_match cc_test advance].
  repeat match goal with H : is_decimal _ = true |- _ => rewrite H; clear H end.
  cbn [rmatch st_rest st_prev st_groups star_match cc_test advance set_group].
  rewrite N.eqb_refl.
  cbn [rmatch st_rest st_prev st_groups star_match cc_test advance set_group].
  apply star_match_all; [exact Hws|]. cbn. by eexists.
Qed.

Lemma paren_year_inj pre pre' d1 d2 d3 d4 e1 e2 e3 e4 ws ws' :
  pre ++ 40 :: d1 :: d2 :: d3 :: d4 :: 41 :: ws
  = pre' ++ 40 :: e1 :: e2 :: e3 :: e4 :: 41 :: ws' ->
  Forall (fun c => is_space c = true) ws ->
  Forall (fun c => is_space c = true) ws' ->
  pre = pre' /\ [d1; d2; d3; d4] = [e1; e2; e3; e4] /\ ws = ws'.
Proof.
  intros H Hws Hws'.
  change (pre ++ 40 :: d1 :: d2 :: d3 :: d4 :: 41 :: ws)
    with (pre ++ [40; d1; d2; d3; d4] ++ 41 :: ws) in H.
  change (pre' ++ 40 :: e1 :: e2 :: e3 :: e4 :: 41 :: ws')
    with (pre' ++ [40; e1; e2; e3; e4] ++ 41 :: ws') in H.
  rewrite !app_assoc in H.
  apply space_tail_inj in H as (H & _ & ->); try done.
  apply app_inj_2 in H as [-> H]; [|done]. by injection H as -> -> -> ->.
Qed.

Lemma parse_movie_found s m :
  search_from year_re false 0 None s = Some m ->
  exists pre d1 d2 d3 d4 ws y,
    s = pre ++ 40 :: d1 :: d2 :: d3 :: d4 :: 41 :: ws
    /\ Forall (fun d => is_decimal d = true) [d1; d2; d3; d4]
    /\ Forall (fun c => is_space c = true) ws
    /\ py_int [d1; d2; d3; d4] = Ok y
    /\ parse_movie_with_year s = Ok (strip pre, Some y).
Proof.
  intros Hs.
  destruct (year_match_form s m Hs)
    as (pre & d1 & d2 & d3 & d4 & ws & Hform & Hws & Hd & Hg & t & Ht & Hstrip).
  destruct (py_int_4 _ _ _ _ Hd) as (y & Hy & _).
  exists pre, d1, d2, d3, d4, ws, y. repeat (split; [done|]).
  unfold parse_movie_with_year.
  rewrite (re_search_compiled _ _ year_re) by reflexivity. cbn [bind].
  rewrite Hs, Hg. cbn [int_of_group]. rewrite Hy. cbn [bind].
  rewrite Ht. cbn [bind]. by rewrite Hstrip.
Qed.

Lemma parse_movie_paren pre d1 d2 d3 d4 ws :
  Forall (fun d => is_decimal d = true) [d1; d2; d3; d4] ->
  Forall (fun c => is_space c = true) ws ->
  exists y,
    py_int [d1; d2; d3; d4] = Ok y
    /\ parse_movie_with_year (pre ++ 40 :: d1 :: d2 :: d3 :: d4 :: 41 :: ws)
       = Ok (strip pre, Some y).
Proof.
  intros Hd Hws.
  destruct (search_from_found year_re pre 0 None
              (40 :: d1 :: d2 :: d3 :: d4 :: 41 :: ws)) as [m Hm].
  { by apply year_match_here. }
  destruct (parse_movie_found _ m Hm)
    as (pre' & e1 & e2 & e3 & e4 & ws' & y & Hform & Hd' & Hws' & Hy & Hp).
  apply paren_year_inj in Hform as (-> & [= -> -> -> ->] & ->); try done.
  by exists y.
Qed.

Lemma parse_movie_none s :
  search_from year_re false 0 None s = None ->
  parse_movie_with_year s = Ok (strip s, None)
  /\ forall pre d1 d2 d3 d4 ws,
       Forall (fun d => is_decimal d = true) [d1; d2; d3; d4] ->
       Forall (fun c => is_space c = true) ws ->
       s <> pre ++ 40 :: d1 :: d2 :: d3 :: d4 :: 41 :: ws.
Proof.
  intros Hs. split.
  - unfold parse_movie_with_year.
    rewrite (re_search_compiled _ _ year_re) by reflexivity. cbn [bind].
    by rewrite Hs.
  - intros pre d1 d2 d3 d4 ws Hd Hws ->.
    destruct (search_from_found year_re pre 0 None
                (40 :: d1 :: d2 :: d3 :: d4 :: 41 :: ws)) as [m Hm].
    { by apply year_match_here. }
    congruence.
Qed.

Lemma parse_movie_inv s t o :
  parse_movie_with_year s = Ok (t, o) ->
  match o with
  | Some y =>
      exists pre d1 d2 d3 d4 ws,
        s = pre ++ 40 :: d1 :: d2 :: d3 :: d4 :: 41 :: ws
        /\ Forall (fun d => is_decimal d = true) [d1; d2; d3; d4]
        /\ Forall (fun c => is_space c = true) ws
        /\ py_int [d1; d2; d3; d4] = Ok y
        /\ t = strip pre
  | None =>
      t = strip s
      /\ forall pre d1 d2 d3 d4 ws,
           Forall (fun d => is_decimal d = true) [d1; d2; d3; d4] ->
           Forall (fun c => is_space c = true) ws ->
           s <> pre ++ 40 :: d1 :: d2 :: d3 :: d4 :: 41 :: ws
  end.
Proof.
  intros H. destruct (search_from year_re false 0 None s) as [m|] eqn:Hs.
  - destruct (parse_movie_found s m Hs)
      as (pre & d1 & d2 & d3 & d4 & ws & y & Hform & Hd & Hws & Hy & Hp).
    rewrite Hp in H. injection H as <- <-.
    by exists pre, d1, d2, d3, d4, ws.
  - destruct (parse_movie_none s Hs) as [Hp Hno].
    rewrite Hp in H. by injection H as <- <-.
Qed.

Lemma century_not_space c1 c2 : century c1 c2 -> is_space c1 = false.
Proof. by intros [[-> ->]|[-> ->]]. Qed.

Lemma trailing_match_here_gen pos prev w ws1 c1 c2 d3 d4 ws2 :
  Forall (fun c => is_space c = true) (w :: ws1) ->
  century c1 c2 -> is_decimal d3 = true -> is_decimal d4 = true ->
  Forall (fun c => is_space c = true) ws2 ->
  is_Some (match_here trailing_year_re false pos prev
             (w :: ws1 ++ c1 :: c2 :: d3 :: d4 :: ws2)).
Proof.
  intros Hw Hc H3 H4 Hws2. apply Forall_cons in Hw as [Hw Hws1].
  unfold match_here, trailing_year_re, pat_re.
  cbn [rmatch st_rest cc_test]. rewrite Hw.
  cbn [rmatch advance st_groups st_prev st_rest].
  apply star_match_run_some; [exact Hws1|].
  cbn [star_match cc_test]. rewrite (century_not_space _ _ Hc).
  destruct Hc as [[-> ->]|[-> ->]];
    cbn [rmatch st_rest st_prev st_groups cc_test advance set_group N.eqb Pos.eqb];
    rewrite H3;
    cbn [rmatch st_rest st_prev st_groups cc_test advance set_group];
    rewrite H4;
    cbn [rmatch st_rest st_prev st_groups cc_test advance set_group];
    try apply is_Some_first;
    (apply star_match_all; [exact Hws2|]); cbn; by eexists.
Qed.

(** What a match of the bare trailing-year pattern says about the text,
    and what [re.sub] leaves of it. *)
Lemma trailing_match_form s m :
  search_from trailing_year_re false 0 None s = Some m ->
  exists pre ws1 c1 c2 d3 d4 ws2,
    s = pre ++ ws1 ++ c1 :: c2 :: d3 :: d4 :: ws2
    /\ ws1 <> []
    /\ Forall (fun c => is_space c = true) ws1
    /\ century c1 c2
    /\ is_decimal d3 = true /\ is_decimal d4 = true
    /\ Forall (fun c => is_space c = true) ws2
    /\ group_named m (u "year") = Ok (Some [c1; c2; d3; d4])
    /\ exists t, re_sub trailing_year_pattern s = Ok t /\ strip t = strip pre.
Proof.
  intros Hs. pose proof Hs as Hs'.
  apply search_from_sound in Hs'
    as (sk & rest1 & prev1 & st' & -> & Hm & Hst & He & Hg & Hn & _).
  apply trailing_year_re_shape in Hm
    as (w & ws1 & c1 & c2 & d3 & d4 & ws2 & Hr & Hw1 & Hw2 & Hc & Hd & Hend & H1).
  simpl in Hr, Hst, He. apply at_end_rest in Hend as [HR Hshort].
  set (R := st_rest st') in *.
  apply Forall_cons in Hd as [H3 Hd]. apply Forall_cons in Hd as [H4 _].
  exists sk, (w :: ws1), c1, c2, d3, d4, (ws2 ++ R).
  split; [by subst rest1|]. split; [done|]. split; [done|]. split; [done|].
  split; [done|]. split; [done|]. split; [by apply Forall_app|].
  split; [unfold group_named, group; rewrite Hn, Hg; simpl; by rewrite H1|].
  exists (sk ++ R). split.
  - rewrite (re_sub_once trailing_year_pattern trailing_year_re _ m R); try done.
    + rewrite Hst, take_app_length. done.
    + rewrite He, Hst. subst rest1.
      replace (sk ++ w :: ws1 ++ c1 :: c2 :: d3 :: d4 :: ws2 ++ R)
        with ((sk ++ w :: ws1 ++ c1 :: c2 :: d3 :: d4 :: ws2) ++ R)
        by (rewrite <-!app_assoc; simpl; rewrite <-?app_assoc; reflexivity).
      apply drop_app_length'. rewrite !length_app. simpl. rewrite !length_app.
      simpl. rewrite !length_app. lia.
    + intros. by apply trailing_search_short.
  - by rewrite strip_app_space.
Qed.

Lemma trailing_year_inj pre pre' ws1 ws1' c1 c2 d3 d4 e1 e2 e3 e4 ws2 ws2' :
  pre ++ ws1 ++ c1 :: c2 :: d3 :: d4 :: ws2
  = pre' ++ ws1' ++ e1 :: e2 :: e3 :: e4 :: ws2' ->
  is_space d4 = false -> is_space e4 = false ->
  Forall (fun c => is_space c = true) ws2 ->
  Forall (fun c => is_space c = true) ws2' ->
  pre ++ ws1 = pre' ++ ws1' /\ [c1; c2; d3; d4] = [e1; e2; e3; e4] /\ ws2 = ws2'.
Proof.
  intros H Hd He Hws Hws'.
  change (pre ++ ws1 ++ c1 :: c2 :: d3 :: d4 :: ws2)
    with (pre ++ ws1 ++ [c1; c2; d3] ++ d4 :: ws2) in H.
  change (pre' ++ ws1' ++ e1 :: e2 :: e3 :: e4 :: ws2')
    with (pre' ++ ws1' ++ [e1; e2; e3] ++ e4 :: ws2') in H.
  rewrite !app_assoc in H.
  apply space_tail_inj in H as (H & -> & ->); try done.
  apply app_inj_2 in H as [-> H]; [|done]. by injection H as -> -> ->.
Qed.

(** A text that ends in a digit and white space has no parenthesized year
    at its end, and one that ends in [)] has no bare year there. *)
Lemma year_search_none_digit x d ws :
  is_decimal d = true ->
  Forall (fun c => is_space c = true) ws ->
  search_from year_re false 0 None (x ++ d :: ws) = None.
Proof.
  intros Hd Hws.
  destruct (search_from year_re false 0 None (x ++ d :: ws)) as [m|] eqn:Hs; [|done].
  destruct (year_match_form _ m Hs)
    as (pre & d1 & d2 & d3 & d4 & ws' & Hform & Hws' & _).
  change (pre ++ 40 :: d1 :: d2 :: d3 :: d4 :: 41 :: ws')
    with (pre ++ [40; d1; d2; d3; d4] ++ 41 :: ws') in Hform.
  rewrite app_assoc in Hform.
  apply space_tail_inj in Hform as (_ & -> & _); try done.
  by apply is_decimal_not_space.
Qed.

Lemma trailing_search_none_paren x ws :
  Forall (fun c => is_space c = true) ws ->
  search_from trailing_year_re false 0 None (x ++ 41 :: ws) = None.
Proof.
  intros Hws.
  destruct (search_from trailing_year_re false 0 None (x ++ 41 :: ws))
    as [m|] eqn:Hs; [|done].
  destruct (trailing_match_form _ m Hs)
    as (pre & ws1 & c1 & c2 & d3 & d4 & ws2 & Hform & _ & _ & _ & _ & H4 & Hws2 & _).
  change (pre ++ ws1 ++ c1 :: c2 :: d3 :: d4 :: ws2)
    with (pre ++ ws1 ++ [c1; c2; d3] ++ d4 :: ws2) in Hform.
  rewrite !app_assoc in Hform.
  apply space_tail_inj in Hform as (_ & <- & _); try done.
  by apply is_decimal_not_space.
Qed.

Lemma parse_title_found_bare s m :
  search_from year_re false 0 None s = None ->
  search_from trailing_year_re false 0 None s = Some m ->
  exists pre ws1 c1 c2 d3 d4 ws2 y,
    s = pre ++ ws1 ++ c1 :: c2 :: d3 :: d4 :: ws2
    /\ ws1 <> []
    /\ Forall (fun c => is_space c = true) ws1
    /\ century c1 c2
    /\ is_decimal d3 = true /\ is_decimal d4 = true
    /\ Forall (fun c => is_space c = true) ws2
    /\ py_int [c1; c2; d3; d4] = Ok y
    /\ (1900 <= y <= 2099)%Z
    /\ parse_title_with_year s = Ok (strip pre, Some y).
Proof.
  intros Hy Hs.
  destruct (trailing_match_form s m Hs)
    as (pre & ws1 & c1 & c2 & d3 & d4 & ws2 & Hform & Hne & Hws1 & Hc & H3 & H4
        & Hws2 & Hg & t & Ht & Hstrip).
  destruct (py_int_century c1 c2 d3 d4 Hc) as (y & Hint & Hrange);
    [by repeat constructor|].
  exists pre, ws1, c1, c2, d3, d4, ws2, y. repeat (split; [done|]).
  unfold parse_title_with_year.
  rewrite (proj1 (parse_movie_none s Hy)). cbn [bind truthy_year].
  rewrite (re_search_compiled _ _ trailing_year_re) by reflexivity. cbn [bind].
  rewrite Hs, Hg. cbn [bind int_of_group]. rewrite Hint. cbn [bind].
  rewrite Ht. cbn [bind]. by rewrite Hstrip.
Qed.

Lemma parse_title_paren pre d1 d2 d3 d4 ws :
  Forall (fun d => is_decimal d = true) [d1; d2; d3; d4] ->
  Forall (fun c => is_space c = true) ws ->
  let s := pre ++ 40 :: d1 :: d2 :: d3 :: d4 :: 41 :: ws in
  exists y,
    py_int [d1; d2; d3; d4] = Ok y
    /\ parse_title_with_year s
       = Ok (if (y =? 0)%Z then (strip s, None) else (strip pre, Some y)).
Proof.
  intros Hd Hws s.
  destruct (parse_movie_paren pre d1 d2 d3 d4 ws Hd Hws) as (y & Hy & Hp).
  exists y. split; [done|]. unfold parse_title_with_year. fold s in Hp.
  rewrite Hp. cbn [bind truthy_year]. destruct (y =? 0)%Z; [|done]. cbn [negb].
  rewrite (re_search_compiled _ _ trailing_year_re) by reflexivity. cbn [bind].
  subst s.
  change (pre ++ 40 :: d1 :: d2 :: d3 :: d4 :: 41 :: ws)
    with (pre ++ [40; d1; d2; d3; d4] ++ 41 :: ws).
  rewrite app_assoc. by rewrite trailing_search_none_paren.
Qed.

(** The three ways [parse_title_with_year] comes to its result. *)
Lemma parse_title_inv s t o :
  parse_title_with_year s = Ok (t, o) ->
  (exists pre d1 d2 d3 d4 ws y,
     s = pre ++ 40 :: d1 :: d2 :: d3 :: d4 :: 41 :: ws
     /\ Forall (fun d => is_decimal d = true) [d1; d2; d3; d4]
     /\ Forall (fun c => is_space c = true) ws
     /\ py_int [d1; d2; d3; d4] = Ok y /\ y <> 0%Z
     /\ t = strip pre /\ o = Some y)
  \/ (exists pre ws1 c1 c2 d3 d4 ws2 y,
        s = pre ++ ws1 ++ c1 :: c2 :: d3 :: d4 :: ws2
        /\ ws1 <> [] /\ Forall (fun c => is_space c = true) ws1
        /\ century c1 c2 /\ is_decimal d3 = true /\ is_decimal d4 = true
        /\ Forall (fun c => is_space c = true) ws2
        /\ py_int [c1; c2; d3; d4] = Ok y
        /\ t = strip pre /\ o = Some y)
  \/ (t = strip s /\ o = None).
Proof.
  intros H. destruct (search_from year_re false 0 None s) as [m|] eqn:Hs.
  - destruct (parse_movie_found s m Hs)
      as (pre & d1 & d2 & d3 & d4 & ws & y & Hform & Hd & Hws & Hy & Hp).
    destruct (parse_title_paren pre d1 d2 d3 d4 ws Hd Hws) as (y' & Hy' & Hpt).
    rewrite Hy in Hy'. injection Hy' as <-. rewrite <-Hform, H in Hpt.
    destruct (Z.eqb_spec y 0) as [->|Hne].
    + right. right. by injection Hpt as -> ->.
    + left. injection Hpt as -> ->. by exists pre, d1, d2, d3, d4, ws, y.
  - destruct (search_from trailing_year_re false 0 None s) as [m|] eqn:Ht.
    + destruct (parse_title_found_bare s m Hs Ht)
        as (pre & ws1 & c1 & c2 & d3 & d4 & ws2 & y & Hform & Hne & Hws1 & Hc
            & H3 & H4 & Hws2 & Hint & _ & Hp).
      rewrite Hp in H. injection H as <- <-. right. left.
      by exists pre, ws1, c1, c2, d3, d4, ws2, y.
    + right. right. unfold parse_title_with_year in H.
      rewrite (proj1 (parse_movie_none s Hs)) in H. cbn [bind truthy_year] in H.
      rewrite (re_search_compiled _ _ trailing_year_re) in H by reflexivity.
      cbn [bind] in H. rewrite Ht in H. by injection H as <- <-.
Qed.

End YearFacts.

(** * Further properties of the classifiers *)

Section ShapeFacts.
Context `{UT : UnicodeTables}.

Lemma fits_app a b t1 t2 : fits a t1 -> fits b t2 -> fits (a ++ b) (t1 ++ t2).
Proof.
  revert t1. induction a as [|[c|] a IH]; intros t1 Ha Hb; simpl in *.
  - by subst.
  - destruct Ha as (t' & -> & Ha). exists (t' ++ t2). split; [done|]. by apply IH.
  - destruct Ha as (gap & t' & -> & Ha). exists gap, (t' ++ t2).
    split; [by rewrite app_assoc|]. by apply IH.
Qed.

Lemma Matches_shapes r st st' :
  Matches r st st' ->
  exists sh t, sh ∈ shapes r /\ st_rest st = t ++ st_rest st' /\ fits sh t.
Proof.
  induction 1 as [cc c rest st Hr Hc|st|r1 r2 st st1 st2 _ IH1 _ IH2
                  |r1 r2 st st' _ IH|r1 r2 st st' _ IH|cc st
                  |cc c rest st st' Hr Hc Hm IH|n r st st1 _ IH|st Hb|st He].
  - destruct cc; simpl.
    + apply N.eqb_eq in Hc as ->. exists [Some c0], [c0].
      split; [by left|]. split; [by rewrite Hr|]. by exists [].
    + exists [None], [c]. split; [by left|]. split; [by rewrite Hr|].
      exists [c], []. by rewrite app_nil_r.
    + exists [None], [c]. split; [by left|]. split; [by rewrite Hr|].
      exists [c], []. by rewrite app_nil_r.
    + exists [None], [c]. split; [by left|]. split; [by rewrite Hr|].
      exists [c], []. by rewrite app_nil_r.
  - exists [], []. split; [by left|]. done.
  - destruct IH1 as (a & t1 & Ha & H1 & Hf1), IH2 as (b & t2 & Hb & H2 & Hf2).
    exists (a ++ b), (t1 ++ t2). split.
    + simpl. apply list_elem_of_bind. exists a. split; [|done].
      apply list_elem_of_bind. exists b. split; [by left|done].
    + split; [by rewrite H1, H2, app_assoc|by apply fits_app].
  - destruct IH as (a & t & Ha & H1 & Hf). exists a, t.
    split; [simpl; apply elem_of_app; by left|done].
  - destruct IH as (a & t & Ha & H1 & Hf). exists a, t.
    split; [simpl; apply elem_of_app; by right|done].
  - exists [None], []. split; [by left|]. split; [done|]. by exists [], [].
  - destruct (Matches_suffix _ _ _ Hm) as [p Hp]. simpl in Hp.
    exists [None], (c :: p). split; [by left|]. split; [by rewrite Hr, Hp|].
    exists (c :: p), []. by rewrite app_nil_r.
  - destruct IH as (a & t & Ha & H1 & Hf). by exists a, t.
  - exists [], []. split; [by left|]. done.
  - exists [], []. split; [by left|]. done.
Qed.

Lemma starts_with_fits w : forall sh t,
  starts_with (Some <$> w) sh = true -> fits sh t -> exists post, t = w ++ post.
Proof.
  induction w as [|c w IH]; intros sh t Hs Hf; [by exists t|].
  destruct sh as [|a sh]; [done|]. simpl in Hs.
  apply andb_true_iff in Hs as [Ha Hs]. apply bool_decide_eq_true in Ha as <-.
  simpl in Hf. destruct Hf as (t' & -> & Hf).
  destruct (IH sh t' Hs Hf) as [post ->]. by exists post.
Qed.

Lemma contains_fits w : forall sh t,
  contains (Some <$> w) sh = true -> fits sh t -> occurs_in w t.
Proof.
  induction sh as [|a sh IH]; intros t Hc Hf; simpl in Hc.
  - rewrite orb_false_r in Hc. destruct (starts_with_fits w [] t Hc Hf) as [post ->].
    by exists [], post.
  - apply orb_true_iff in Hc as [Hc|Hc].
    + destruct (starts_with_fits w _ t Hc Hf) as [post ->]. by exists [], post.
    + destruct a as [c|]; simpl in Hf.
      * destruct Hf as (t' & -> & Hf). destruct (IH t' Hc Hf) as (pre & post & ->).
        by exists (c :: pre), post.
      * destruct Hf as (gap & t' & -> & Hf).
        destruct (IH t' Hc Hf) as (pre & post & ->).
        exists (gap ++ pre), post. by rewrite <-app_assoc.
Qed.

Lemma occurs_in_app w pre t post : occurs_in w t -> occurs_in w (pre ++ t ++ post).
Proof.
  intros (a & b & ->). exists (pre ++ a), (b ++ post). by rewrite <-!app_assoc.
Qed.

Lemma covered_search words p ma pos prev s m :
  covered words (pat_re p) = true ->
  search_from p ma pos prev s = Some m ->
  Exists (fun w => occurs_in w s) words.
Proof.
  intros Hc Hs. apply search_from_sound in Hs
    as (sk & rest1 & prev1 & st' & -> & Hm & _).
  apply Matches_shapes in Hm as (sh & t & Hsh & Hr & Hf). simpl in Hr.
  unfold covered in Hc. rewrite forallb_forall in Hc.
  specialize (Hc sh (proj1 (list_elem_of_In _ _) Hsh)).
  apply existsb_exists in Hc as (w & Hw & Hcw).
  apply Exists_exists. exists w. split; [by apply list_elem_of_In|].
  rewrite Hr. apply occurs_in_app. by eapply contains_fits.
Qed.

Lemma covered_found words pat s :
  (exists p, re_compile pat = Ok p /\ covered words (pat_re p) = true) ->
  found pat s = Ok true -> Exists (fun w => occurs_in w s) words.
Proof.
  intros (p & Hp & Hc). rewrite (found_search pat p s Hp). intros [= Hf].
  apply bool_decide_eq_true in Hf as [m Hm]. by eapply covered_search.
Qed.

Lemma covers_compiles words pats :
  Forall (covers words) pats -> Forall (fun pat => returns (re_compile pat)) pats.
Proof.
  intros H. eapply Forall_impl; [exact H|]. intros pat (p & Hp & _). by exists p.
Qed.

Lemma found_false words pat x :
  covers words pat -> ~ Exists (fun w => occurs_in w x) words ->
  found pat x = Ok false.
Proof.
  intros Hc Hno. destruct Hc as (p & Hp & Hcov).
  destruct (found pat x) as [[]|] eqn:Hf.
  - exfalso. apply Hno. apply (covered_found words pat x); [by exists p|done].
  - done.
  - unfold found, re_search in Hf. by rewrite Hp in Hf.
Qed.

Lemma any_found_false words pats x :
  Forall (covers words) pats -> ~ Exists (fun w => occurs_in w x) words ->
  any_found pats x = Ok false.
Proof.
  intros Hc Hno. induction Hc as [|pat pats Hp _ IH]; [done|].
  cbn [any_found]. by rewrite (found_false words pat x Hp Hno).
Qed.

Lemma any_found_true pats pat s :
  Forall (fun pat => returns (re_compile pat)) pats ->
  pat ∈ pats -> found pat s = Ok true -> any_found pats s = Ok true.
Proof.
  induction 1 as [|p pats Hp Hps IH]; intros Hin Hf.
  - by apply elem_of_nil in Hin.
  - cbn [any_found]. apply elem_of_cons in Hin as [->|Hin].
    + by rewrite Hf.
    + destruct (found_returns p s Hp) as [b ->]. cbn [bind].
      destruct b; [done|]. by apply IH.
Qed.

Lemma strip_occurs w x : occurs_in w (strip x) -> occurs_in w x.
Proof.
  intros H. destruct (lstrip_suffix x) as (ws & Hx & _).
  destruct (rstrip_prefix (lstrip x)) as (ws' & Hl & _).
  rewrite Hx, Hl. by apply occurs_in_app.
Qed.

Lemma starts_with_app (w : list N) post :
  starts_with (Some <$> w) (Some <$> (w ++ post)) = true.
Proof.
  induction w as [|c w IH]; [done|]. simpl.
  by rewrite bool_decide_eq_true_2.
Qed.

Lemma contains_starts x l : starts_with x l = true -> contains x l = true.
Proof. intros H. destruct l; simpl; by rewrite H. Qed.

Lemma occurs_in_contains w s :
  occurs_in w s -> contains (Some <$> w) (Some <$> s) = true.
Proof.
  intros (pre & post & ->). induction pre as [|c pre IH].
  - cbn [app]. apply contains_starts. apply starts_with_app.
  - cbn [app fmap list_fmap contains]. fold (fmap (M:=list) (@Some N)).
    rewrite IH. apply orb_true_r.
Qed.

(** No word of a list occurs in a text: a test that can be run. *)
Lemma no_word_occurs words s :
  existsb (fun w => contains (Some <$> w) (Some <$> s)) words = false ->
  ~ Exists (fun w => occurs_in w s) words.
Proof.
  intros H (w & Hw & Ho)%Exists_exists.
  assert (existsb (fun w => contains (Some <$> w) (Some <$> s)) words = true);
    [|congruence].
  apply existsb_exists. exists w. split; [by apply list_elem_of_In|].
  by apply occurs_in_contains.
Qed.

End ShapeFacts.

Section SpecificFacts.
Context `{UT : UnicodeTables}.

Lemma quote_search s :
  has_quote s <-> is_Some (search_from quote_re false 0 None s).
Proof.
  split.
  - intros (c & Hc & Hq)%Exists_exists.
    apply list_elem_of_split in Hc as (pre & post & ->).
    apply search_from_found. unfold match_here, quote_re, pat_re.
    cbn [rmatch st_rest cc_test].
    assert (He : existsb (N.eqb c) [34; 8220; 8221; 8216; 8217] = true).
    { apply existsb_exists. exists c. split; [|apply N.eqb_refl].
      apply list_elem_of_In. exact Hq. }
    rewrite He. by eexists.
  - intros [m Hm]. apply search_from_sound in Hm
      as (sk & rest1 & prev1 & st' & -> & Hm & _).
    unfold quote_re in Hm; simpl in Hm. inv_matches; simpl in *. subst.
    apply Exists_app. right. apply Exists_cons_hd.
    bool_to_prop; subst; unfold quote_chars; set_solver.
Qed.

Lemma paren_year_search s :
  has_paren_year s <-> is_Some (search_from paren_year_re false 0 None s).
Proof.
  split.
  - intros (pre & c1 & c2 & d3 & d4 & post & -> & Hc & H3 & H4).
    apply search_from_found. unfold match_here, paren_year_re, pat_re.
    destruct Hc as [[-> ->]|[-> ->]]; cbn; rewrite H3; cbn; rewrite H4; cbn;
      by eexists.
  - intros [m Hm]. apply search_from_sound in Hm
      as (sk & rest1 & prev1 & st' & -> & Hm & _).
    unfold paren_year_re in Hm; simpl in Hm. inv_matches; simpl in *.
    all: bool_to_prop; subst.
    all: repeat match goal with H : st_rest _ = _ |- _ => simpl in H end.
    all: eexists sk, _, _, _, _, _.
    all: (split; [f_equal; eassumption|]).
    all: split; [first [by left|by right]|done].
Qed.

Lemma found_quote s : found quote_pattern s = Ok (bool_decide (has_quote s)).
Proof.
  rewrite (found_search _ quote_re) by reflexivity. f_equal.
  apply bool_decide_ext. symmetry. apply quote_search.
Qed.

Lemma lower_from_app x : forall before y,
  exists A, lower_from before (x ++ y) = A ++ lower_from (rev x ++ before) y.
Proof.
  induction x as [|c x IH]; intros before y; [by exists []|].
  destruct (IH (c :: before) y) as [A HA].
  exists (lower_at before c (x ++ y) ++ A). simpl.
  by rewrite HA, <-!app_assoc.
Qed.

Lemma decade_match_here pos prev d B :
  d ∈ [54; 55; 56; 57] ->
  is_Some (match_here decade_re false pos prev (49 :: 57 :: d :: 48 :: 115 :: B)).
Proof.
  intros Hd. unfold match_here, decade_re, pat_re.
  cbn [rmatch st_rest st_prev st_groups cc_test advance].
  destruct (at_boundary _);
    repeat (apply elem_of_cons in Hd as [->|Hd]); try (by apply elem_of_nil in Hd);
    cbn; by eexists.
Qed.

Lemma decade_found s pre d c post :
  s = pre ++ 49 :: 57 :: d :: 48 :: c :: post ->
  d ∈ [54; 55; 56; 57] -> c ∈ [115; 83] ->
  found decade_pattern (strip (lower s)) = Ok true.
Proof.
  intros -> Hd Hc.
  rewrite (found_search _ decade_re) by reflexivity. f_equal.
  apply bool_decide_eq_true_2.
  unfold lower. destruct (lower_from_app pre [] (49 :: 57 :: d :: 48 :: c :: post))
    as [A ->].
  assert (Hl : exists B, lower_from (rev pre ++ [])
                 (49 :: 57 :: d :: 48 :: c :: post) = 49 :: [57; d; 48] ++ 115 :: B).
  { eexists. cbn [lower_from]. unfold lower_at at 1 2 3 4 5.
    repeat (apply elem_of_cons in Hd as [->|Hd]); try (by apply elem_of_nil in Hd);
    repeat (apply elem_of_cons in Hc as [->|Hc]); try (by apply elem_of_nil in Hc);
    cbn; reflexivity. }
  destruct Hl as [B ->].
  destruct (strip_keeps A 49 [57; d; 48] 115 B) as (A' & B' & ->); [done..|].
  apply search_from_found. by apply decade_match_here.
Qed.

Lemma discovery_patterns_covered :
  Forall (covers discovery_words) discovery_patterns.
Proof. repeat constructor; eexists; split; try reflexivity. Qed.

Lemma bare_year_pattern_covered : covers century_words bare_year_pattern.
Proof. eexists; split; reflexivity. Qed.

End SpecificFacts.

Section IntentFacts.
Context `{UT : UnicodeTables}.

Lemma count_found_pos words pats s n :
  Forall (covers words) pats ->
  count_found pats s = Ok n -> (0 < n)%nat ->
  Exists (fun w => occurs_in w s) words.
Proof.
  intros Hc. revert n. induction Hc as [|pat pats Hp _ IH]; intros n H Hn.
  - injection H as <-. lia.
  - cbn [count_found] in H.
    destruct (found pat s) as [b|] eqn:Hf; [|discriminate]. cbn [bind] in H.
    destruct (count_found pats s) as [k|]; [|discriminate]. cbn [bind] in H.
    injection H as <-. destruct b; [by eapply covered_found|]. by eapply IH.
Qed.

Lemma count_series_pos words pats s n :
  Forall (covers words) pats -> covers words shows_pattern ->
  count_series pats s = Ok n -> (0 < n)%nat ->
  Exists (fun w => occurs_in w s) words.
Proof.
  intros Hc Hshows. revert n. induction Hc as [|pat pats Hp _ IH]; intros n H Hn.
  - injection H as <-. lia.
  - cbn [count_series] in H.
    destruct (bool_decide (pat = shows_pattern)).
    + destruct (found shows_pattern s) as [b|] eqn:Hf; [|discriminate].
      cbn [bind] in H. destruct b.
      * by apply (covered_found words shows_pattern s).
      * cbn [bind] in H.
        destruct (count_series pats s) as [k|]; [|discriminate]. cbn [bind] in H.
        injection H as <-. by eapply IH.
    + destruct (found pat s) as [b|] eqn:Hf; [|discriminate]. cbn [bind] in H.
      destruct (count_series pats s) as [k|]; [|discriminate]. cbn [bind] in H.
      injection H as <-.
      destruct b; [by apply (covered_found words pat s)|]. by eapply IH.
Qed.

Lemma movie_patterns_covered : Forall (covers movie_words) movie_patterns.
Proof. repeat constructor; eexists; split; try reflexivity. Qed.

Lemma series_patterns_covered : Forall (covers series_words) series_patterns.
Proof. repeat constructor; eexists; split; try reflexivity. Qed.

Lemma shows_pattern_covered : covers series_words shows_pattern.
Proof. eexists; split; reflexivity. Qed.

Lemma prev_after_last prev l :
  prev_after prev l = match last l with Some c => Some c | None => prev end.
Proof.
  revert prev. induction l as [|c l IH]; intros prev; [done|].
  simpl. rewrite IH. destruct l as [|c' l]; [done|].
  change (last (c :: c' :: l)) with (last (c' :: l)).
  destruct (last (c' :: l)) eqn:E; [done|]. by apply last_None in E.
Qed.

Lemma rmatch_word_re {R} w tail prev post g (k : mstate -> option R) :
  rmatch (word_re w tail)
    {| st_prev := prev; st_rest := w ++ post; st_groups := g |} k
  = rmatch tail
      {| st_prev := prev_after prev w; st_rest := post; st_groups := g |} k.
Proof.
  revert prev. induction w as [|c w IH]; intros prev; [done|].
  cbn [word_re foldr rmatch st_rest app cc_test]. rewrite N.eqb_refl.
  apply IH.
Qed.

Lemma at_boundary_start prev w post g :
  (match prev with Some c => is_word c | None => false end) = false ->
  starts_word w = true ->
  at_boundary {| st_prev := prev; st_rest := w ++ post; st_groups := g |} = true.
Proof.
  intros Hp Hw. unfold at_boundary. cbn [st_prev st_rest]. rewrite Hp.
  destruct w as [|c w]; [done|]. simpl in *. by rewrite Hw.
Qed.

Lemma at_boundary_end prev w post g :
  ends_word w = true -> starts_word post = false ->
  at_boundary {| st_prev := prev_after prev w; st_rest := post; st_groups := g |}
  = true.
Proof.
  intros Hw Hp. unfold at_boundary. cbn [st_prev st_rest].
  rewrite prev_after_last. unfold ends_word in Hw.
  destruct (last w) as [c|]; [|done]. rewrite Hw.
  unfold starts_word in Hp. by rewrite Hp.
Qed.

Lemma last_removelast (w : list N) :
  last w = Some 115 -> w = removelast w ++ [115].
Proof.
  intros H. destruct w as [|c w] using rev_ind; [done|].
  rewrite last_snoc in H. injection H as ->. by rewrite removelast_last.
Qed.

Lemma term_match_here pat p w pos prev post :
  re_compile pat = Ok p ->
  pattern_of_term w pat = true ->
  (match prev with Some c => is_word c | None => false end) = false ->
  starts_word post = false -> starts_word w = true -> ends_word w = true ->
  is_Some (match_here p false pos prev (w ++ post)).
Proof.
  intros Hc Hpat Hprev Hpost Hw1 Hw2. unfold pattern_of_term in Hpat.
  rewrite Hc in Hpat. unfold match_here.
  apply orb_true_iff in Hpat as [Hpat|Hpat];
    [apply orb_true_iff in Hpat as [Hpat|Hpat]|apply andb_true_iff in Hpat as [Hs Hpat]];
    apply bool_decide_eq_true in Hpat; rewrite Hpat.
  - unfold plain_re. cbn [rmatch]. rewrite at_boundary_start by done.
    rewrite rmatch_word_re. cbn [rmatch]. rewrite at_boundary_end by done.
    cbn. by eexists.
  - unfold plural_re. cbn [rmatch]. rewrite at_boundary_start by done.
    rewrite rmatch_word_re. cbn [rmatch st_rest].
    destruct post as [|c post].
    + rewrite at_boundary_end by done. cbn. by eexists.
    + cbn [cc_test]. destruct (c =? 115) eqn:Hc115.
      * apply N.eqb_eq in Hc115 as ->. simpl in Hpost. discriminate.
      * rewrite at_boundary_end by done. cbn. by eexists.
  - apply bool_decide_eq_true in Hs. pose proof (last_removelast w Hs) as Hw.
    remember (removelast w) as v eqn:Hv. clear Hv. subst w.
    unfold plural_re. cbn [rmatch]. rewrite at_boundary_start by done.
    rewrite <-app_assoc.
    rewrite rmatch_word_re. cbn [rmatch st_rest app cc_test]. rewrite N.eqb_refl.
    unfold advance, at_boundary. cbn [st_prev st_rest st_groups].
    unfold starts_word in Hpost. rewrite Hpost. cbn. by eexists.
Qed.

Lemma term_found pats w x pre post :
  x = pre ++ w ++ post ->
  ends_word pre = false -> starts_word post = false ->
  starts_word w = true -> ends_word w = true ->
  existsb (pattern_of_term w) pats = true ->
  exists pat, pat ∈ pats /\ pattern_of_term w pat = true /\ found pat x = Ok true.
Proof.
  intros -> Hpre Hpost Hw1 Hw2 (pat & Hin & Hpat)%existsb_exists.
  exists pat. split; [by apply list_elem_of_In|]. split; [done|].
  pose proof Hpat as Hpat'. unfold pattern_of_term in Hpat'.
  destruct (re_compile pat) as [p|] eqn:Hc; [|discriminate].
  rewrite (found_search pat p _ Hc). f_equal. apply bool_decide_eq_true_2.
  apply search_from_found. eapply term_match_here; try done.
  rewrite prev_after_last. unfold ends_word in Hpre. by destruct (last pre).
Qed.

Lemma count_found_ge pats pat x n :
  pat ∈ pats -> found pat x = Ok true -> count_found pats x = Ok n -> (0 < n)%nat.
Proof.
  revert n. induction pats as [|q pats IH]; intros n Hin Hf H.
  { by apply elem_of_nil in Hin. }
  cbn [count_found] in H.
  destruct (found q x) as [b|] eqn:Hq; [|discriminate]. cbn [bind] in H.
  destruct (count_found pats x) as [k|]; [|discriminate]. cbn [bind] in H.
  injection H as <-. apply elem_of_cons in Hin as [->|Hin].
  - rewrite Hf in Hq. injection Hq as <-. lia.
  - specialize (IH k Hin Hf eq_refl). destruct b; lia.
Qed.

Lemma count_series_ge pats pat x n :
  pat ∈ pats -> pat <> shows_pattern -> found pat x = Ok true ->
  count_series pats x = Ok n -> (0 < n)%nat.
Proof.
  revert n. induction pats as [|q pats IH]; intros n Hin Hne Hf H.
  { by apply elem_of_nil in Hin. }
  cbn [count_series] in H.
  destruct (count_series pats x) as [k|] eqn:Hk.
  2:{ match type of H with (b <- ?e ;; _) = _ => destruct e end; discriminate. }
  apply elem_of_cons in Hin as [->|Hin].
  - rewrite bool_decide_eq_false_2, Hf in H by done. cbn [bind] in H.
    injection H as <-. lia.
  - specialize (IH k Hin Hne Hf eq_refl).
    match type of H with (b <- ?e ;; _) = _ => destruct e as [b|]; [|discriminate] end.
    cbn [bind] in H. injection H as <-. destruct b; lia.
Qed.

Lemma count_found_zero words pats x :
  Forall (covers words) pats ->
  ~ Exists (fun w => occurs_in w x) words -> count_found pats x = Ok 0%nat.
Proof.
  intros Hc Hno.
  destruct (count_found_returns pats x (covers_compiles _ _ Hc)) as [n Hn].
  rewrite Hn. destruct n; [done|]. exfalso. apply Hno.
  eapply count_found_pos; [exact Hc|exact Hn|lia].
Qed.

Lemma count_series_zero words pats x :
  Forall (covers words) pats -> covers words shows_pattern ->
  ~ Exists (fun w => occurs_in w x) words -> count_series pats x = Ok 0%nat.
Proof.
  intros Hc Hs Hno.
  destruct (count_series_returns pats x (covers_compiles _ _ Hc)) as [n Hn].
  rewrite Hn. destruct n; [done|]. exfalso. apply Hno.
  eapply count_series_pos; [exact Hc|exact Hs|exact Hn|lia].
Qed.

Lemma movie_terms_patterns :
  Forall (fun w => starts_word w = true /\ ends_word w = true
                   /\ existsb (pattern_of_term w) movie_patterns = true) movie_terms.
Proof. repeat constructor; vm_compute; reflexivity. Qed.

Lemma series_terms_patterns :
  Forall (fun w => starts_word w = true /\ ends_word w = true
                   /\ existsb (pattern_of_term w)
                        (List.filter (fun pat => negb (bool_decide (pat = shows_pattern)))
                           series_patterns) = true) series_terms.
Proof. repeat constructor; vm_compute; reflexivity. Qed.

Lemma movie_term_counted s pre w post :
  lower s = pre ++ w ++ post ->
  ends_word pre = false -> starts_word post = false -> w ∈ movie_terms ->
  exists n, count_found movie_patterns (lower s) = Ok n /\ (0 < n)%nat.
Proof.
  intros Hs Hpre Hpost Hw.
  pose proof movie_terms_patterns as Ht. rewrite Forall_forall in Ht.
  destruct (Ht w Hw) as (Hw1 & Hw2 & Hex).
  destruct (term_found _ _ _ _ _ Hs Hpre Hpost Hw1 Hw2 Hex) as (pat & Hin & _ & Hf).
  destruct (count_found_returns movie_patterns (lower s)
              (covers_compiles _ _ movie_patterns_covered)) as [n Hn].
  exists n. split; [done|]. by eapply count_found_ge.
Qed.

Lemma series_term_counted s pre w post :
  lower s = pre ++ w ++ post ->
  ends_word pre = false -> starts_word post = false -> w ∈ series_terms ->
  exists n, count_series series_patterns (lower s) = Ok n /\ (0 < n)%nat.
Proof.
  intros Hs Hpre Hpost Hw.
  pose proof series_terms_patterns as Ht. rewrite Forall_forall in Ht.
  destruct (Ht w Hw) as (Hw1 & Hw2 & Hex).
  destruct (term_found _ _ _ _ _ Hs Hpre Hpost Hw1 Hw2 Hex) as (pat & Hin & _ & Hf).
  apply list_elem_of_In, filter_In in Hin as [Hin Hne].
  apply negb_true_iff, bool_decide_eq_false in Hne.
  destruct (count_series_returns series_patterns (lower s)
              (covers_compiles _ _ series_patterns_covered)) as [n Hn].
  exists n. split; [done|].
  eapply count_series_ge; [by apply list_elem_of_In|done..].
Qed.

End IntentFacts.

(** * Further properties of the ranking *)

Lemma StronglySorted_app_elem {A} (R : A -> A -> Prop) l1 l2 x1 x2 :
  StronglySorted R (l1 ++ l2) -> x1 ∈ l1 -> x2 ∈ l2 -> R x1 x2.
Proof.
  induction l1 as [|a l1 IH]; intros Hs H1 H2; [by apply elem_of_nil in H1|].
  simpl in Hs. apply StronglySorted_inv in Hs as [Hs Ha].
  apply elem_of_cons in H1 as [->|H1]; [|by apply IH].
  rewrite Forall_forall in Ha. apply Ha. apply elem_of_app. by right.
Qed.

Section RankingMoreFacts.
Context `{UT : UnicodeTables}.

Lemma py_eq_refl v : hashable v = true -> py_eq v v = true.
Proof.
  destruct v; simpl; try done; intros _.
  - apply Z.eqb_refl.
  - apply Z.eqb_refl.
  - by apply Qeq_bool_iff.
  - by apply bool_decide_eq_true_2.
Qed.

(** Every record the deduplication loop reads has its identifier taken by
    some record the loop keeps, or seen before. *)
Lemma dedup_complete : forall l seen unique,
  dedup l seen = Ok unique ->
  forall x v, x ∈ l -> x !! "id" = Some v ->
    existsb (py_eq v) seen = true \/ exists y, y ∈ unique /\ same_id x y = true.
Proof.
  induction l as [|m l IH]; intros seen unique H x v Hx Hv.
  { by apply elem_of_nil in Hx. }
  cbn [dedup] in H. destruct (m !! "id") as [w|] eqn:Hw; [|discriminate].
  destruct (hashable w) eqn:Hh; [|discriminate].
  destruct (existsb (py_eq w) seen) eqn:Hseen.
  - apply elem_of_cons in Hx as [->|Hx]; [|by eapply IH].
    left. congruence.
  - destruct (dedup l (w :: seen)) as [u|] eqn:Hu; [|discriminate].
    cbn [bind] in H. injection H as <-.
    apply elem_of_cons in Hx as [->|Hx].
    + right. exists m. split; [by left|]. unfold same_id. rewrite Hw.
      by apply py_eq_refl.
    + destruct (IH _ _ Hu x v Hx Hv) as [Hs|(y & Hy & Hxy)].
      * simpl in Hs. apply orb_true_iff in Hs as [Hs|Hs]; [|by left].
        right. exists m. split; [by left|]. unfold same_id. by rewrite Hv, Hw.
      * right. exists y. split; [by right|done].
Qed.

Lemma dedup_nil_inv l unique :
  dedup l [] = Ok unique -> (unique = [] <-> l = []).
Proof.
  destruct l as [|m l]; cbn [dedup].
  - by intros [= <-].
  - destruct (m !! "id") as [w|]; [|discriminate].
    destruct (hashable w); [|discriminate]. cbn [existsb].
    destruct (dedup l [w]); [|discriminate]. cbn [bind]. intros [= <-].
    split; discriminate.
Qed.

Lemma take_nil_inv {A} n (l : list A) : (0 < n)%nat -> (take n l = [] <-> l = []).
Proof. destruct n; [lia|]. by destruct l. Qed.

Local Open Scope Q_scope.

Lemma kept_score nf title index c :
  kept nf title index c = true ->
  RELAXED_MATCH_THRESHOLD <= score_of nf title c
  \/ (index = 0%nat /\ TOP_RESULT_THRESHOLD <= score_of nf title c).
Proof.
  unfold kept. intros H.
  apply orb_true_iff in H as [H|H]; [apply orb_true_iff in H as [H|H];
    [apply orb_true_iff in H as [H|H]|]|].
  - left. rewrite (score_of_exact _ _ _ H). unfold RELAXED_MATCH_THRESHOLD. lra.
  - left. apply Qle_bool_iff in H.
    unfold RELAXED_MATCH_THRESHOLD, FUZZY_MATCH_THRESHOLD in *. lra.
  - left. by apply Qle_bool_iff in H.
  - right. apply andb_true_iff in H as [Hi H]. apply Nat.eqb_eq in Hi.
    by apply Qle_bool_iff in H.
Qed.

Local Close Scope Q_scope.

Lemma ranking_elem nf title results ranking x :
  match_candidates nf title results = Ok ranking ->
  x ∈ ranking ->
  exists i c, results !! i = Some c /\ kept nf title i c = true
    /\ x = scored nf title c.
Proof.
  intros H Hx. apply match_candidates_inv in H as (unique & Hd & ->).
  destruct (dedup_spec _ [] (dedup_Ok_ids _ _ _ Hd)) as (unique' & Hd' & Hsub & _).
  rewrite Hd in Hd'. injection Hd' as <-.
  assert (Hsel : x ∈ select nf title 0 results).
  { eapply elem_of_sublist; [|exact Hsub]. rewrite <-(ranked_perm unique).
    eapply elem_of_sublist; [exact Hx|apply sublist_take]. }
  by apply select_elem in Hsel.
Qed.

Lemma scan_unnamed nf title : forall results index,
  Exists (fun c => name_of nf c = None) results ->
  scan nf title index results = Raise AttributeError.
Proof.
  induction results as [|c rest IH]; intros index H.
  { by apply Exists_nil in H. }
  cbn [scan]. unfold name_of in *.
  destruct (default (VStr []) (c !! nf)) eqn:Hc; try done.
  apply Exists_cons in H as [H|H]; [by rewrite Hc in H|].
  rewrite (IH (S index) H). by destruct (bool_decide _).
Qed.

(** The deduplication loop stops at the first record whose identifier is
    missing or unhashable. *)
Lemma dedup_first_bad x post : forall pre seen,
  Forall hashable_id pre ->
  ~ hashable_id x ->
  dedup (pre ++ x :: post) seen
  = match x !! "id" with
    | Some _ => Raise TypeError
    | None => Raise KeyError
    end.
Proof.
  induction pre as [|m pre IH]; intros seen Hpre Hx.
  - cbn [app dedup]. destruct (x !! "id") as [v|] eqn:Hv; [|done].
    destruct (hashable v) eqn:Hh; [|done]. exfalso. apply Hx. by exists v.
  - apply Forall_cons in Hpre as [(v & Hv & Hh) Hpre].
    cbn [app dedup]. rewrite Hv, Hh.
    destruct (existsb (py_eq v) seen); [by apply IH|].
    rewrite (IH _ Hpre Hx). by destruct (x !! "id").
Qed.

(** The records the loop appends, around the record at position [i]. *)
Lemma select_split nf title results i c :
  results !! i = Some c ->
  select nf title 0 results
  = select nf title 0 (take i results)
    ++ (if kept nf title i c then [scored nf title c] else [])
    ++ select nf title (S i) (drop (S i) results).
Proof.
  intros Hi. rewrite <-(take_drop_middle results i c Hi) at 1.
  rewrite select_app. cbn [select plus].
  rewrite length_take_le by (apply lookup_lt_Some in Hi; lia).
  by destruct (kept nf title i c).
Qed.

Lemma select_has_score nf title results index :
  Forall has_score (select nf title index results).
Proof.
  apply Forall_forall. intros x Hx.
  apply select_elem in Hx as (i & c & _ & _ & ->). eexists. apply scored_score.
Qed.

Lemma scan_delete_score nf title : nf <> "_score" -> forall results index,
  scan nf title index (delete "_score" <$> results) = scan nf title index results.
Proof.
  intros Hnf. induction results as [|c rest IH]; intros index; [done|].
  rewrite fmap_cons. cbn [scan]. rewrite IH.
  rewrite lookup_delete_ne by congruence.
  destruct (default (VStr []) (c !! nf)); try done. by rewrite !insert_delete_eq.
Qed.

End RankingMoreFacts.

(** * Properties of the request parameters *)

Section RequestFacts.
Context `{UT : UnicodeTables}.

Lemma u_String a s : u (String a s) = Ascii.N_of_ascii a :: u s.
Proof. reflexivity. Qed.

Lemma int_digits_acc d : forall acc,
  int_digits (Z.pos acc) (u (NilEmpty.string_of_uint d))
  = Ok (Z.pos (Pos.of_uint_acc d acc)).
Proof.
  induction d; intros acc; cbn [NilEmpty.string_of_uint Pos.of_uint_acc];
    [done|rewrite u_String; cbn [int_digits]..].
  all: match goal with |- context [decimal_value ?c] =>
         let v := eval vm_compute in (decimal_value c) in
         change (decimal_value c) with v end.
  all: cbv iota.
  all: match goal with |- int_digits ?a _ = _ =>
         match goal with |- _ = Ok (Z.pos (Pos.of_uint_acc _ ?b)) =>
           replace a with (Z.pos b) by lia end end.
  all: apply IHd.
Qed.

Lemma int_digits_uint d :
  int_digits 0 (u (NilEmpty.string_of_uint d)) = Ok (Z.of_N (Pos.of_uint d)).
Proof.
  induction d; cbn [NilEmpty.string_of_uint Pos.of_uint];
    [done|rewrite u_String; cbn [int_digits]..].
  all: match goal with |- context [decimal_value ?c] =>
         let v := eval vm_compute in (decimal_value c) in
         change (decimal_value c) with v end.
  all: cbv iota.
  - exact IHd.
  - apply (int_digits_acc d 1).
  - apply (int_digits_acc d 2).
  - apply (int_digits_acc d 3).
  - apply (int_digits_acc d 4).
  - apply (int_digits_acc d 5).
  - apply (int_digits_acc d 6).
  - apply (int_digits_acc d 7).
  - apply (int_digits_acc d 8).
  - apply (int_digits_acc d 9).
Qed.

(** [int(str(n)) == n] for the numbers [int] reads back without a sign. *)
Lemma py_int_str z : (0 <= z)%Z -> py_int (py_str z) = Ok z.
Proof.
  intros Hz. destruct z as [|p|p]; [done| |lia].
  unfold py_str. cbn [Z.to_int NilZero.string_of_int].
  pose proof (DecimalPos.Unsigned.of_to p) as Hp.
  pose proof (int_digits_uint (Pos.to_uint p)) as Hd. rewrite Hp in Hd.
  assert (Hs : NilZero.string_of_uint (Pos.to_uint p)
               = NilEmpty.string_of_uint (Pos.to_uint p)).
  { destruct (Pos.to_uint p); [discriminate Hp|done..]. }
  rewrite Hs. unfold py_int.
  destruct (u (NilEmpty.string_of_uint (Pos.to_uint p))) eqn:E; [discriminate Hd|].
  exact Hd.
Qed.

Lemma with_year_lookup key self params v :
  params !! key = None ->
  with_year key self params !! key = Some v
  <-> exists y, year self = Some y /\ y <> 0%Z /\ v = py_str y.
Proof.
  intros Hk. unfold with_year. destruct (year self) as [y|].
  - cbn [truthy_year]. destruct (Z.eqb_spec y 0) as [->|Hy]; cbn [negb].
    + rewrite Hk. split; [done|]. by intros (y & [= <-] & Hy & _).
    + rewrite lookup_insert_eq. split.
      * intros [= <-]. by exists y.
      * by intros (y' & [= <-] & _ & ->).
  - rewrite Hk. split; [done|]. by intros (y & ? & _).
Qed.

Lemma with_year_other key self params k :
  k <> key -> with_year key self params !! k = params !! k.
Proof.
  intros Hk. unfold with_year. destruct (year self) as [y|]; [|done].
  destruct (truthy_year _); [|done]. by rewrite lookup_insert_ne.
Qed.

End RequestFacts.

(** * The claims *)

Section Claims.
Context `{UT : UnicodeTables}.

Lemma search_endpoint_spec nf search :
  search_endpoint nf search -> search = match_candidates nf /\ nf <> "_score".
Proof. by intros []. Qed.

(** C1 (corrected).  Each parser and classifier returns a value on every
    string, and [search_movie] and [search_tv] return a value on every title
    and every candidate list, empty or not, whose records carry an
    identifier that can be hashed ([None], a [bool], a number or a string)
    and a display name that, when present, is a string.  The claim as
    written also covers records without an identifier, on which the
    deduplication loop raises [KeyError], and records whose identifier is a
    [list] or a [dict], on which it raises [TypeError]
    ([search_movie_missing_id_raises]). *)
Theorem core_total (s title : list N) (results : list candidate) :
  returns (parse_movie_with_year s)
  /\ returns (parse_title_with_year s)
  /\ returns (is_specific_title_query s)
  /\ returns (detect_user_intent s)
  /\ (Forall (well_formed "title") results -> returns (search_movie title results))
  /\ (Forall (well_formed "name") results -> returns (search_tv title results)).
Proof.
  split; [apply parse_movie_with_year_returns|].
  split; [apply parse_title_with_year_returns|].
  split; [apply is_specific_title_query_returns|].
  split; [apply detect_user_intent_returns|].
  split; intros Hwf; by apply match_candidates_returns.
Qed.

(** C2 (corrected).  For a candidate whose display name equals the query
    title up to case, wherever it stands in the provider's list, the loop
    of [search_movie] and [search_tv] stores the score 1.0 in the record and
    appends it to [matches]; the record, with that score, is the first entry
    of the returned ranking when no kept record ahead of it in provider
    order is itself an exact match or carries its identifier. *)
Theorem exact_match_ranking nf search (title : list N)
  (results : list candidate) (i : nat) (c : candidate) :
  search_endpoint nf search ->
  Forall (well_formed nf) results ->
  results !! i = Some c ->
  exact nf title c = true ->
  (exists matches,
     scan nf title 0 results = Ok matches
     /\ <["_score" := VFloat 1.0]> c ∈ matches)
  /\ ((forall j d, (j < i)%nat -> results !! j = Some d ->
         kept nf title j d = true ->
         exact nf title d = false /\ same_id c d = false) ->
      exists rest,
        search title results = Ok (<["_score" := VFloat 1.0]> c :: rest)).
Proof.
  intros [-> _]%search_endpoint_spec. apply exact_match_first.
Qed.

(** C3 (code bug).  On ["X (0000)"] the parenthesized pattern matches and
    [parse_movie_with_year] returns the title ["X"] with year 0, but
    [parse_title_with_year] tests the year for truth, takes 0 for "no year"
    and returns the whole text with no year. *)
Theorem parse_title_with_year_drops_year_zero :
  parse_movie_with_year (u "X (0000)") = Ok (u "X", Some 0%Z)
  /\ parse_title_with_year (u "X (0000)") = Ok (u "X (0000)", None).
Proof. split; reflexivity. Qed.


(** C5 (code bug).  The guard [if not search] rejects the empty string, but
    it is tested before [search.lower().strip()]: a non-empty string of
    white space passes it, is stripped to the empty text, matches no pattern
    and has zero words, so it is classified as a specific title where the
    empty string is not. *)
Theorem empty_and_blank_query (s : list N) :
  is_specific_title_query [] = Ok false
  /\ (s <> [] -> Forall (fun c => is_space c = true) s ->
      strip (lower s) = [] /\ is_specific_title_query s = Ok true).
Proof.
  split; [done|]. intros Hne Hs. split; [|by apply is_specific_title_query_blank].
  unfold lower, strip. rewrite lower_from_space by done. by rewrite lstrip_space.
Qed.

(** C6 (code bug).  In the decade pattern [|] binds weaker than the two
    [\b], so only [2000s] is anchored on the left and only [1950s] on the
    right.  The token [1980s] inside the word ["abc1980sxyz"] matches, no
    other discovery pattern does, and the query is classified as a
    discovery query although it has no year at a word boundary and is a
    single word. *)
Theorem decade_token_matches_inside_word :
  let search := u "abc1980sxyz" in
  let search_lower := strip (lower search) in
  found (u "\b2000s|1990s|1980s|1970s|1960s|1950s\b") search_lower = Ok true
  /\ any_found (take 12 discovery_patterns) search_lower = Ok false
  /\ found bare_year_pattern search_lower = Ok false
  /\ length (split search_lower) = 1%nat
  /\ is_specific_title_query search = Ok false.
Proof. repeat split; reflexivity. Qed.

(** C7 (corrected).  For a non-empty query title a record without the
    display-name field is scored 0 and never kept, so no returned record
    lacks that field; for the empty title such a record is an exact match
    ([nameless_candidate_kept_for_empty_title]). *)
Theorem nameless_candidate_dropped nf search (title : list N)
  (results : list candidate) :
  search_endpoint nf search ->
  title <> [] ->
  (forall index c, c !! nf = None ->
     (score_of nf title c == 0)%Q /\ kept nf title index c = false)
  /\ (Forall (well_formed nf) results ->
      exists ranking,
        search title results = Ok ranking
        /\ forall x, x ∈ ranking -> is_Some (x !! nf)).
Proof.
  intros [-> Hnf]%search_endpoint_spec Ht. split.
  - intros index c Hc. by apply nameless_score.
  - by apply nameless_dropped.
Qed.

(** C8 (confirmed).  Whatever [search_movie] or [search_tv] returns has at
    most five entries, no two of them with the same identifier, each being
    the first kept record with its identifier, sorted by score from high to
    low, entries of equal score in provider order; and they do return on
    every list of well-formed records. *)
Theorem ranking_properties nf search (title : list N)
  (results : list candidate) :
  search_endpoint nf search ->
  (Forall (well_formed nf) results -> returns (search title results))
  /\ (forall ranking, search title results = Ok ranking ->
        ranking_ok nf title results ranking).
Proof.
  intros [-> _]%search_endpoint_spec. split.
  - apply match_candidates_returns.
  - intros ranking. apply ranking_ok_inv.
Qed.

(** C9 (corrected).  The score is stored in the record and stays there:
    every returned record is a provider record with a rational in [0,1]
    written under ["_score"]. *)
Theorem returned_records_carry_score nf search (title : list N)
  (results ranking : list candidate) (x : candidate) :
  search_endpoint nf search ->
  search title results = Ok ranking ->
  x ∈ ranking ->
  exists c q,
    c ∈ results /\ x = <["_score" := VFloat q]> c
    /\ x !! "_score" = Some (VFloat q) /\ (0 <= q <= 1)%Q.
Proof.
  intros [-> _]%search_endpoint_spec H Hx.
  destruct (ranking_scores_inv _ _ _ _ H x Hx) as (c & q & Hc & -> & Hq).
  exists c, q. split; [done|]. split; [done|]. split; [|done].
  apply lookup_insert_eq.
Qed.

(** C10 (confirmed).  White space followed by a year of century 19 or 20 and
    nothing else parses to the empty title with that year: the number the
    four digits spell, the century digits [c1], [c2] being ASCII digits of
    value [c - 48] and the other two any decimal digits.  The same four
    digits alone come back as the title, with no year. *)
Theorem whitespace_then_year (ws : list N) (c1 c2 d3 d4 v3 v4 : N) :
  ws <> [] ->
  Forall (fun c => is_space c = true) ws ->
  century c1 c2 ->
  decimal_value d3 = Some v3 ->
  decimal_value d4 = Some v4 ->
  parse_title_with_year (ws ++ [c1; c2; d3; d4])
  = Ok ([], Some (number4 (c1 - 48) (c2 - 48) v3 v4))
  /\ parse_title_with_year [c1; c2; d3; d4] = Ok ([c1; c2; d3; d4], None).
Proof.
  intros Hne Hws Hc H3 H4.
  destruct (trailing_year_whitespace_only ws c1 c2 d3 d4 Hne Hws Hc)
    as (y & Hy & Hp & Hq); [by eapply decimal_value_is_decimal..|].
  destruct (century_value c1 c2 Hc) as [H1 H2].
  rewrite (py_int_number4 _ _ _ _ _ _ _ _ H1 H2 H3 H4) in Hy.
  injection Hy as <-. by split.
Qed.

End Claims.

(** * Instances of the claims and inputs on which claims fail

    The inputs are ASCII, so no Unicode table is consulted; [basic_latin]
    stands for any table. *)

Section Instances.
#[local] Existing Instance basic_latin.

Lemma core_total_witness :
  let results : list candidate :=
    [ {["id" := VInt 603; "title" := VStr (u "The Matrix")]};
      {["id" := VInt 604]} ] in
  Forall (well_formed "title") results
  /\ Forall (well_formed "name") results
  /\ returns (parse_movie_with_year (u "The Matrix (1999)"))
  /\ returns (parse_title_with_year (u "The Matrix (1999)"))
  /\ returns (is_specific_title_query (u "The Matrix (1999)"))
  /\ returns (detect_user_intent (u "The Matrix (1999)"))
  /\ returns (search_movie (u "the matrix") results)
  /\ returns (search_tv (u "the matrix") results).
Proof.
  intros results.
  assert (H1 : Forall (well_formed "title") results)
    by well_formed_records.
  assert (H2 : Forall (well_formed "name") results)
    by well_formed_records.
  destruct (core_total (u "The Matrix (1999)") (u "the matrix") results)
    as (P1 & P2 & P3 & P4 & P5 & P6).
  repeat split; try assumption; [exact (P5 H1)|exact (P6 H2)].
Defined.

Lemma search_movie_missing_id_raises :
  let res : candidate := {["title" := VStr (u "x")]} in
  let res' : candidate := {["id" := VList [VInt 1]; "title" := VStr (u "x")]} in
  search_movie (u "x") [res] = Raise KeyError
  /\ ~ returns (search_movie (u "x") [res])
  /\ search_movie (u "x") [res'] = Raise TypeError
  /\ ~ returns (search_movie (u "x") [res']).
Proof.
  intros res res'. split; [reflexivity|]. split; [|split; [reflexivity|]].
  - intros [r Hr]. discriminate Hr.
  - intros [r Hr]. discriminate Hr.
Qed.

Lemma exact_match_ranking_witness :
  let r1 : candidate := {["id" := VInt 1; "title" := VStr (u "x y")]} in
  let r2 : candidate := {["id" := VInt 2; "title" := VStr (u "X")]} in
  search_endpoint "title" search_movie
  /\ Forall (well_formed "title") [r1; r2]
  /\ [r1; r2] !! 1%nat = Some r2
  /\ exact "title" (u "x") r2 = true
  /\ (exists matches,
        scan "title" (u "x") 0 [r1; r2] = Ok matches
        /\ <["_score" := VFloat 1.0]> r2 ∈ matches)
  /\ exists rest,
       search_movie (u "x") [r1; r2]
       = Ok (<["_score" := VFloat 1.0]> r2 :: rest).
Proof.
  intros r1 r2.
  assert (He : search_endpoint "title" search_movie) by constructor.
  assert (Hwf : Forall (well_formed "title") [r1; r2])
    by well_formed_records.
  assert (Hi : [r1; r2] !! 1%nat = Some r2) by reflexivity.
  assert (Hx : exact "title" (u "x") r2 = true) by reflexivity.
  destruct (exact_match_ranking "title" search_movie (u "x")
              [r1; r2] 1 r2 He Hwf Hi Hx) as (Hs & Hfirst).
  repeat split; try assumption. apply Hfirst.
  intros j d Hj Hd Hkd. destruct j as [|j]; [|lia].
  injection Hd as <-. split; reflexivity.
Defined.

Lemma exact_match_dropped_by_duplicate_id :
  let r1 : candidate := {["id" := VInt 1; "title" := VStr (u "x y")]} in
  let r2 : candidate := {["id" := VInt 1; "title" := VStr (u "x")]} in
  exact "title" (u "x") r2 = true
  /\ search_movie (u "x") [r1; r2]
     = Ok [<["_score" := VFloat (2 # 4)]> r1]
  /\ ~ exists rest,
         search_movie (u "x") [r1; r2]
         = Ok (<["_score" := VFloat 1.0]> r2 :: rest).
Proof.
  intros r1 r2. split; [reflexivity|]. split; [reflexivity|].
  intros [rest H]. vm_compute in H. discriminate H.
Qed.



Lemma empty_and_blank_query_witness :
  u " " <> []
  /\ Forall (fun c => is_space c = true) (u " ")
  /\ strip (lower (u " ")) = []
  /\ is_specific_title_query (u " ") = Ok true.
Proof.
  assert (H1 : u " " <> []) by discriminate.
  assert (H2 : Forall (fun c => is_space c = true) (u " "))
    by (repeat constructor).
  split; [exact H1|]. split; [exact H2|].
  exact (proj2 (empty_and_blank_query (u " ")) H1 H2).
Defined.

Lemma nameless_candidate_dropped_witness :
  let r1 : candidate := {["id" := VInt 1]} in
  let r2 : candidate := {["id" := VInt 2; "title" := VStr (u "x")]} in
  search_endpoint "title" search_movie
  /\ u "x" <> []
  /\ r1 !! "title" = None
  /\ Forall (well_formed "title") [r1; r2]
  /\ (score_of "title" (u "x") r1 == 0)%Q
  /\ kept "title" (u "x") 0 r1 = false
  /\ exists ranking,
       search_movie (u "x") [r1; r2] = Ok ranking
       /\ forall x, x ∈ ranking -> is_Some (x !! "title").
Proof.
  intros r1 r2.
  assert (He : search_endpoint "title" search_movie) by constructor.
  assert (Ht : u "x" <> []) by discriminate.
  assert (Hn : r1 !! "title" = None) by reflexivity.
  assert (Hwf : Forall (well_formed "title") [r1; r2])
    by well_formed_records.
  destruct (nameless_candidate_dropped "title" search_movie (u "x") [r1; r2] He Ht)
    as [Hscore Hrank].
  destruct (Hscore 0%nat r1 Hn) as [Hs Hk].
  repeat split; try assumption. exact (Hrank Hwf).
Defined.

Lemma nameless_candidate_kept_for_empty_title :
  let r1 : candidate := {["id" := VInt 1]} in
  r1 !! "title" = None
  /\ search_movie [] [r1] = Ok [<["_score" := VFloat 1.0]> r1].
Proof. intros r1. split; reflexivity. Qed.

Lemma ranking_properties_witness :
  let r1 : candidate := {["id" := VInt 1; "title" := VStr (u "x y")]} in
  let r2 : candidate := {["id" := VInt 2; "title" := VStr (u "X")]} in
  let ranking : list candidate :=
    [<["_score" := VFloat 1.0]> r2; <["_score" := VFloat (2 # 4)]> r1] in
  search_endpoint "title" search_movie
  /\ Forall (well_formed "title") [r1; r2]
  /\ search_movie (u "x") [r1; r2] = Ok ranking
  /\ returns (search_movie (u "x") [r1; r2])
  /\ ranking_ok "title" (u "x") [r1; r2] ranking.
Proof.
  intros r1 r2 ranking.
  assert (He : search_endpoint "title" search_movie) by constructor.
  assert (Hwf : Forall (well_formed "title") [r1; r2])
    by well_formed_records.
  assert (Hr : search_movie (u "x") [r1; r2] = Ok ranking) by reflexivity.
  destruct (ranking_properties "title" search_movie (u "x") [r1; r2] He)
    as [Hret Hok].
  split; [exact He|]. split; [exact Hwf|]. split; [exact Hr|].
  split; [exact (Hret Hwf)|exact (Hok ranking Hr)].
Defined.

Lemma returned_records_carry_score_witness :
  let r1 : candidate := {["id" := VInt 1; "title" := VStr (u "x")]} in
  let x : candidate := <["_score" := VFloat 1.0]> r1 in
  search_endpoint "title" search_movie
  /\ search_movie (u "x") [r1] = Ok [x]
  /\ x ∈ [x]
  /\ exists c q,
       c ∈ [r1] /\ x = <["_score" := VFloat q]> c
       /\ x !! "_score" = Some (VFloat q) /\ (0 <= q <= 1)%Q.
Proof.
  intros r1 x.
  assert (He : search_endpoint "title" search_movie) by constructor.
  assert (Hr : search_movie (u "x") [r1] = Ok [x]) by reflexivity.
  assert (Hx : x ∈ [x]) by constructor.
  split; [exact He|]. split; [exact Hr|]. split; [exact Hx|].
  exact (returned_records_carry_score "title" search_movie (u "x") [r1] [x] x
           He Hr Hx).
Defined.

Lemma score_field_returned :
  let r1 : candidate := {["id" := VInt 1; "title" := VStr (u "x")]} in
  exists x,
    search_movie (u "x") [r1] = Ok [x]
    /\ x !! "_score" = Some (VFloat 1.0)
    /\ x <> r1.
Proof.
  intros r1. exists (<["_score" := VFloat 1.0]> r1).
  split; [reflexivity|]. split; [reflexivity|].
  intros H. apply (f_equal (fun m : candidate => m !! "_score")) in H.
  vm_compute in H. discriminate H.
Qed.

Lemma whitespace_then_year_witness :
  u " " <> []
  /\ Forall (fun c => is_space c = true) (u " ")
  /\ century 49 57
  /\ decimal_value 57 = Some 9
  /\ parse_title_with_year (u " 1999") = Ok ([], Some 1999%Z)
  /\ parse_title_with_year (u "1999") = Ok (u "1999", None).
Proof.
  assert (H1 : u " " <> []) by discriminate.
  assert (H2 : Forall (fun c => is_space c = true) (u " "))
    by (repeat constructor).
  assert (H3 : century 49 57) by (left; split; reflexivity).
  assert (H4 : decimal_value 57 = Some 9) by reflexivity.
  split; [exact H1|]. split; [exact H2|]. split; [exact H3|]. split; [exact H4|].
  exact (whitespace_then_year (u " ") 49 57 57 57 9 9 H1 H2 H3 H4 H4).
Defined.

End Instances.

(** * Further properties of the code *)

Section Properties.
Context `{UT : UnicodeTables}.

Lemma select_intro nf title c : forall results index i,
  results !! i = Some c -> kept nf title (index + i) c = true ->
  scored nf title c ∈ select nf title index results.
Proof.
  induction results as [|d rest IH]; intros index i Hi Hk; [done|].
  cbn [select]. destruct i as [|i]; simpl in Hi.
  - injection Hi as ->. rewrite Nat.add_0_r in Hk. rewrite Hk. by left.
  - rewrite <-Nat.add_succ_comm in Hk. specialize (IH (S index) i Hi Hk).
    destruct (kept nf title index d); [by right|done].
Qed.

(** X1.  [parse_movie_with_year] on a text that ends with four decimal
    digits in parentheses and then white space at most: the year is the
    number the digits spell, from their values [v1] to [v4]; the title is
    what stands in front of the parenthesis, stripped. *)
Theorem parse_movie_with_year_parenthesized (pre ws : list N)
  (d1 d2 d3 d4 v1 v2 v3 v4 : N) :
  decimal_value d1 = Some v1 -> decimal_value d2 = Some v2 ->
  decimal_value d3 = Some v3 -> decimal_value d4 = Some v4 ->
  Forall (fun c => is_space c = true) ws ->
  parse_movie_with_year (pre ++ 40 :: d1 :: d2 :: d3 :: d4 :: 41 :: ws)
  = Ok (strip pre, Some (number4 v1 v2 v3 v4)).
Proof.
  intros H1 H2 H3 H4 Hws.
  destruct (parse_movie_paren pre d1 d2 d3 d4 ws) as (y & Hy & Hp); [|done|].
  { repeat constructor; by eapply decimal_value_is_decimal. }
  rewrite (py_int_number4 _ _ _ _ _ _ _ _ H1 H2 H3 H4) in Hy.
  by injection Hy as <-.
Qed.

(** X2.  The converse: a year returned by [parse_movie_with_year] is read
    from four decimal digits in parentheses at the end of the text, and the
    title is the stripped text in front of them; when no year is returned
    the text does not end that way and the title is the stripped text. *)
Theorem parse_movie_with_year_inverse (s t : list N) (o : option Z) :
  parse_movie_with_year s = Ok (t, o) ->
  match o with
  | Some y =>
      exists pre d1 d2 d3 d4 ws,
        s = pre ++ 40 :: d1 :: d2 :: d3 :: d4 :: 41 :: ws
        /\ Forall (fun d => is_decimal d = true) [d1; d2; d3; d4]
        /\ Forall (fun c => is_space c = true) ws
        /\ py_int [d1; d2; d3; d4] = Ok y
        /\ t = strip pre
  | None =>
      t = strip s
      /\ forall pre d1 d2 d3 d4 ws,
           Forall (fun d => is_decimal d = true) [d1; d2; d3; d4] ->
           Forall (fun c => is_space c = true) ws ->
           s <> pre ++ 40 :: d1 :: d2 :: d3 :: d4 :: 41 :: ws
  end.
Proof. intros H. by apply parse_movie_inv. Qed.

(** X3.  [parse_title_with_year] on a text that ends with white space, a
    year 19dd or 20dd and then white space at most: the year is that
    number, in 1900..2099, and the title is the stripped text in front. *)
Theorem parse_title_with_year_bare (pre ws1 ws2 : list N) (c1 c2 d3 d4 : N) :
  ws1 <> [] ->
  Forall (fun c => is_space c = true) ws1 ->
  century c1 c2 -> is_decimal d3 = true -> is_decimal d4 = true ->
  Forall (fun c => is_space c = true) ws2 ->
  exists y,
    py_int [c1; c2; d3; d4] = Ok y
    /\ (1900 <= y <= 2099)%Z
    /\ parse_title_with_year (pre ++ ws1 ++ c1 :: c2 :: d3 :: d4 :: ws2)
       = Ok (strip pre, Some y).
Proof.
  intros Hne Hws1 Hc H3 H4 Hws2.
  set (s := pre ++ ws1 ++ c1 :: c2 :: d3 :: d4 :: ws2).
  assert (Hy : search_from year_re false 0 None s = None).
  { subst s.
    change (pre ++ ws1 ++ c1 :: c2 :: d3 :: d4 :: ws2)
      with (pre ++ ws1 ++ [c1; c2; d3] ++ d4 :: ws2).
    rewrite !app_assoc. by apply year_search_none_digit. }
  destruct ws1 as [|w ws1]; [done|].
  destruct (search_from_found trailing_year_re pre 0 None
              (w :: ws1 ++ c1 :: c2 :: d3 :: d4 :: ws2)) as [m Hm].
  { by apply trailing_match_here_gen. }
  destruct (parse_title_found_bare s m Hy Hm)
    as (pre' & ws1' & e1 & e2 & e3 & e4 & ws2' & y & Hform & Hne' & Hws1' & Hc'
        & H3' & H4' & Hws2' & Hint & Hrange & Hp).
  subst s.
  apply trailing_year_inj in Hform as (Hpre & [= <- <- <- <-] & <-);
    try done; try by apply is_decimal_not_space.
  exists y. split; [done|]. split; [done|]. rewrite Hp. do 2 f_equal.
  rewrite <-(strip_app_space pre' ws1'), <-Hpre by done.
  by rewrite strip_app_space.
Qed.

(** X4.  [parse_title_with_year] on the parenthesized form: the stripped
    text in front of the parenthesis and the number the four digits spell,
    unless that number is zero; then the year is taken for missing and the
    whole text, stripped, comes back as title. *)
Theorem parse_title_with_year_parenthesized (pre ws : list N)
  (d1 d2 d3 d4 v1 v2 v3 v4 : N) :
  decimal_value d1 = Some v1 -> decimal_value d2 = Some v2 ->
  decimal_value d3 = Some v3 -> decimal_value d4 = Some v4 ->
  Forall (fun c => is_space c = true) ws ->
  let s := pre ++ 40 :: d1 :: d2 :: d3 :: d4 :: 41 :: ws in
  let y := number4 v1 v2 v3 v4 in
  parse_title_with_year s
  = Ok (if (y =? 0)%Z then (strip s, None) else (strip pre, Some y)).
Proof.
  intros H1 H2 H3 H4 Hws s y.
  destruct (parse_title_paren pre d1 d2 d3 d4 ws) as (y' & Hy & Hp); [|done|].
  { repeat constructor; by eapply decimal_value_is_decimal. }
  rewrite (py_int_number4 _ _ _ _ _ _ _ _ H1 H2 H3 H4) in Hy.
  by injection Hy as <-.
Qed.

(** X5.  The converse for [parse_title_with_year]: a year it returns comes
    from the parenthesized form, and is not zero, or from the bare form;
    without a year the title is the stripped text. *)
Theorem parse_title_with_year_inverse (s t : list N) (o : option Z) :
  parse_title_with_year s = Ok (t, o) ->
  (exists pre d1 d2 d3 d4 ws y,
     s = pre ++ 40 :: d1 :: d2 :: d3 :: d4 :: 41 :: ws
     /\ Forall (fun d => is_decimal d = true) [d1; d2; d3; d4]
     /\ Forall (fun c => is_space c = true) ws
     /\ py_int [d1; d2; d3; d4] = Ok y /\ y <> 0%Z
     /\ t = strip pre /\ o = Some y)
  \/ (exists pre ws1 c1 c2 d3 d4 ws2 y,
        s = pre ++ ws1 ++ c1 :: c2 :: d3 :: d4 :: ws2
        /\ ws1 <> [] /\ Forall (fun c => is_space c = true) ws1
        /\ century c1 c2 /\ is_decimal d3 = true /\ is_decimal d4 = true
        /\ Forall (fun c => is_space c = true) ws2
        /\ py_int [c1; c2; d3; d4] = Ok y
        /\ t = strip pre /\ o = Some y)
  \/ (t = strip s /\ o = None).
Proof. intros H. by apply parse_title_inv. Qed.

(** X6.  Both parsers return a title without white space around it that
    is a prefix of the text with its leading white space removed: they cut
    the text, they never change it. *)
Theorem parsed_title_stripped (s t : list N) (o : option Z) :
  parse_movie_with_year s = Ok (t, o) \/ parse_title_with_year s = Ok (t, o) ->
  strip t = t /\ t `prefix_of` lstrip s.
Proof.
  intros [H|H].
  - apply parse_movie_inv in H. destruct o as [y|].
    + destruct H as (pre & d1 & d2 & d3 & d4 & ws & -> & _ & _ & _ & ->).
      apply strip_of_prefix.
    + destruct H as [-> _]. apply strip_of_whole.
  - apply parse_title_inv in H
      as [(pre & d1 & d2 & d3 & d4 & ws & y & -> & _ & _ & _ & _ & -> & _)
         |[(pre & ws1 & c1 & c2 & d3 & d4 & ws2 & y & -> & _ & _ & _ & _ & _ & _
            & _ & -> & _)
          |[-> _]]].
    + apply strip_of_prefix.
    + apply strip_of_prefix.
    + apply strip_of_whole.
Qed.

(** X7.  A query with a quote character, or with a year 19dd or 20dd in
    parentheses, is a specific title, whatever else it contains. *)
Theorem quote_or_paren_year_is_specific (s : list N) :
  has_quote s \/ has_paren_year s -> is_specific_title_query s = Ok true.
Proof.
  intros H. unfold is_specific_title_query. destruct s as [|c s].
  { destruct H as [H|(pre & ? & ? & ? & ? & ? & H & _)].
    - by apply Exists_nil in H.
    - by destruct pre. }
  rewrite found_quote. cbn [bind].
  destruct (decide (has_quote (c :: s))) as [Hq|Hq].
  - by rewrite bool_decide_eq_true_2.
  - rewrite bool_decide_eq_false_2 by done. destruct H as [H|H]; [done|].
    rewrite (found_search _ paren_year_re) by reflexivity. cbn [bind].
    rewrite bool_decide_eq_true_2; [done|]. by apply paren_year_search.
Qed.

(** X8.  A query that contains one of [1960s], [1970s], [1980s], [1990s]
    anywhere, be it inside a longer word, and has no quote character and no
    parenthesized year, is classified as a discovery query. *)
Theorem decade_token_is_discovery (s pre post : list N) (d c : N) :
  s = pre ++ 49 :: 57 :: d :: 48 :: c :: post ->
  d ∈ [54; 55; 56; 57] -> c ∈ [115; 83] ->
  ~ has_quote s -> ~ has_paren_year s ->
  is_specific_title_query s = Ok false.
Proof.
  intros Hs Hd Hc Hq Hp.
  pose proof (decade_found s pre d c post Hs Hd Hc) as Hf.
  unfold is_specific_title_query.
  destruct s as [|x s]; [by destruct pre|].
  rewrite found_quote. rewrite bool_decide_eq_false_2 by done. cbn [bind].
  rewrite (found_search _ paren_year_re) by reflexivity. cbn [bind].
  rewrite bool_decide_eq_false_2 by (by rewrite <-paren_year_search).
  rewrite (any_found_true discovery_patterns decade_pattern);
    [done| |unfold discovery_patterns, decade_pattern; repeat constructor|done].
  repeat constructor; compiles.
Qed.

(** X9.  A query without quote character and parenthesized year whose
    lower-case form contains none of the discovery words and neither [19]
    nor [20] is a specific title exactly when it has at most six words. *)
Theorem plain_query_word_count (s : list N) :
  s <> [] -> ~ has_quote s -> ~ has_paren_year s ->
  ~ Exists (fun w => occurs_in w (lower s)) (discovery_words ++ century_words) ->
  is_specific_title_query s = Ok (length (split (lower s)) <=? 6)%nat.
Proof.
  intros Hne Hq Hp Hno. rewrite Exists_app in Hno.
  unfold is_specific_title_query. destruct s as [|c s]; [done|].
  rewrite found_quote, bool_decide_eq_false_2 by done. cbn [bind].
  rewrite (found_search _ paren_year_re) by reflexivity. cbn [bind].
  rewrite bool_decide_eq_false_2 by (by rewrite <-paren_year_search).
  set (x := lower (c :: s)) in *.
  rewrite (any_found_false discovery_words).
  2: apply discovery_patterns_covered.
  2:{ intros H. apply Hno. left. eapply Exists_impl; [exact H|].
      intros w. apply strip_occurs. }
  cbn [bind]. rewrite (found_false century_words).
  2: apply bare_year_pattern_covered.
  2:{ intros H. apply Hno. right. eapply Exists_impl; [exact H|].
      intros w. apply strip_occurs. }
  cbn [bind]. by rewrite split_strip.
Qed.

(** X10.  [detect_user_intent] answers MOVIE only for a query whose
    lower-case form contains one of the movie words, and SERIES only for
    one that contains one of the series words. *)
Theorem intent_needs_word (s : list N) :
  (detect_user_intent s = Ok (Some MOVIE) ->
   Exists (fun w => occurs_in w (lower s)) movie_words)
  /\ (detect_user_intent s = Ok (Some SERIES) ->
      Exists (fun w => occurs_in w (lower s)) series_words).
Proof.
  unfold detect_user_intent. destruct s as [|c s]; [split; discriminate|].
  set (x := lower (c :: s)).
  destruct (count_found movie_patterns x) as [n1|] eqn:H1; [|split; discriminate].
  destruct (count_series series_patterns x) as [n2|] eqn:H2; [|split; discriminate].
  destruct (found conjunction_pattern x) as [b|]; [|split; discriminate].
  cbn [bind].
  destruct (b && (0 <? n1)%nat && (0 <? n2)%nat); [split; discriminate|].
  destruct (0 <? n1)%nat eqn:Hn1, (0 <? n2)%nat eqn:Hn2;
    destruct (n1 =? 0)%nat eqn:Hz1, (n2 =? 0)%nat eqn:Hz2; cbn;
    split; try discriminate; intros _.
  all: try (apply Nat.ltb_lt in Hn1;
            by eapply (count_found_pos _ _ _ _ movie_patterns_covered H1)).
  all: try (apply Nat.ltb_lt in Hn2;
            by eapply (count_series_pos _ _ _ _ series_patterns_covered
                         shows_pattern_covered H2)).
Qed.

(** X11.  A query whose lower-case form has a movie term standing as a
    word of its own and contains no series word is classified MOVIE; one
    with a series term as a word and no movie word is classified SERIES. *)
Theorem intent_of_single_kind (s pre w post : list N) :
  lower s = pre ++ w ++ post ->
  ends_word pre = false -> starts_word post = false ->
  (w ∈ movie_terms ->
   ~ Exists (fun v => occurs_in v (lower s)) series_words ->
   detect_user_intent s = Ok (Some MOVIE))
  /\ (w ∈ series_terms ->
      ~ Exists (fun v => occurs_in v (lower s)) movie_words ->
      detect_user_intent s = Ok (Some SERIES)).
Proof.
  intros Hs Hpre Hpost. split; intros Hw Hno.
  - destruct (movie_term_counted s pre w post Hs Hpre Hpost Hw) as (n & Hn & Hpos).
    unfold detect_user_intent. destruct s as [|c s].
    { by destruct pre, w, post; try done;
        pose proof movie_terms_patterns as Ht; rewrite Forall_forall in Ht;
        destruct (Ht [] Hw) as (? & _). }
    rewrite Hn. cbn [bind].
    rewrite (count_series_zero series_words) by
      (done || apply series_patterns_covered || apply shows_pattern_covered).
    cbn [bind].
    destruct (found_returns conjunction_pattern (lower (c :: s))) as [b ->];
      [compiles|].
    cbn [bind]. rewrite andb_false_r. destruct n; [lia|]. reflexivity.
  - destruct (series_term_counted s pre w post Hs Hpre Hpost Hw) as (n & Hn & Hpos).
    unfold detect_user_intent. destruct s as [|c s].
    { by destruct pre, w, post; try done;
        pose proof series_terms_patterns as Ht; rewrite Forall_forall in Ht;
        destruct (Ht [] Hw) as (? & _). }
    rewrite (count_found_zero movie_words) by
      (done || apply movie_patterns_covered).
    cbn [bind]. rewrite Hn. cbn [bind].
    destruct (found_returns conjunction_pattern (lower (c :: s))) as [b ->];
      [compiles|].
    cbn [bind]. rewrite andb_false_r. destruct n; [lia|]. reflexivity.
Qed.

(** X12.  A query with a movie term and a series term, each standing as a
    word of its own, has no intent, with or without [and] or [or]. *)
Theorem intent_of_mixed_query (s pre1 w1 post1 pre2 w2 post2 : list N) :
  lower s = pre1 ++ w1 ++ post1 ->
  ends_word pre1 = false -> starts_word post1 = false -> w1 ∈ movie_terms ->
  lower s = pre2 ++ w2 ++ post2 ->
  ends_word pre2 = false -> starts_word post2 = false -> w2 ∈ series_terms ->
  detect_user_intent s = Ok None.
Proof.
  intros Hs1 Hpre1 Hpost1 Hw1 Hs2 Hpre2 Hpost2 Hw2.
  destruct (movie_term_counted s pre1 w1 post1 Hs1 Hpre1 Hpost1 Hw1)
    as (n1 & Hn1 & Hpos1).
  destruct (series_term_counted s pre2 w2 post2 Hs2 Hpre2 Hpost2 Hw2)
    as (n2 & Hn2 & Hpos2).
  unfold detect_user_intent. destruct s as [|c s]; [done|].
  rewrite Hn1, Hn2. cbn [bind].
  destruct (found_returns conjunction_pattern (lower (c :: s))) as [b ->];
    [compiles|].
  cbn [bind]. destruct n1; [lia|]. destruct n2; [lia|]. by destruct b.
Qed.

(** X13.  Every record [search_movie] or [search_tv] returns has a score
    of 0.65 or more, except that the provider's first record is returned
    from 0.40 on. *)
Theorem returned_scores_above_threshold nf search (title : list N)
  (results ranking : list candidate) (x : candidate) :
  search_endpoint nf search ->
  search title results = Ok ranking ->
  x ∈ ranking ->
  (RELAXED_MATCH_THRESHOLD <= score x)%Q
  \/ (exists c, results !! 0%nat = Some c /\ x = scored nf title c
        /\ (TOP_RESULT_THRESHOLD <= score x)%Q).
Proof.
  intros [-> _]%search_endpoint_spec H Hx.
  destruct (ranking_elem _ _ _ _ _ H Hx) as (i & c & Hi & Hk & ->).
  rewrite score_scored.
  destruct (kept_score _ _ _ _ Hk) as [Hs|[-> Hs]]; [by left|].
  right. by exists c.
Qed.

(** X14.  A returned record has score 1 exactly when its display name
    equals the query title up to case. *)
Theorem score_one_iff_exact nf search (title : list N)
  (results ranking : list candidate) (x : candidate) :
  search_endpoint nf search ->
  search title results = Ok ranking ->
  x ∈ ranking ->
  exists c, c ∈ results /\ x = scored nf title c
    /\ ((score x == 1)%Q <-> exact nf title c = true).
Proof.
  intros [-> _]%search_endpoint_spec H Hx.
  destruct (ranking_elem _ _ _ _ _ H Hx) as (i & c & Hi & Hk & ->).
  exists c. split; [by eapply list_elem_of_lookup_2|]. split; [done|].
  rewrite score_scored. split.
  - intros Hs. destruct (exact nf title c) eqn:He; [done|].
    pose proof (score_of_not_exact _ _ _ He). lra.
  - intros He. by rewrite (score_of_exact _ _ _ He).
Qed.

(** X15.  The ranking leaves out nothing better than what it holds: the
    identifier of every kept record is that of a first kept record [y]
    which is in the ranking, unless the ranking has its five entries and
    none of them scores below [y]. *)
Theorem ranking_keeps_best nf search (title : list N)
  (results ranking : list candidate) (i : nat) (c : candidate) :
  search_endpoint nf search ->
  search title results = Ok ranking ->
  results !! i = Some c ->
  kept nf title i c = true ->
  exists y,
    first_with_id (select nf title 0 results) y
    /\ same_id c y = true
    /\ (y ∈ ranking
        \/ (length ranking = 5%nat
            /\ forall z, z ∈ ranking -> (score y <= score z)%Q)).
Proof.
  intros [-> _]%search_endpoint_spec H Hi Hk.
  pose proof (select_intro nf title c results 0 i Hi Hk) as Hx.
  apply match_candidates_inv in H as (unique & Hd & ->).
  pose proof (dedup_Ok_ids _ _ _ Hd) as Hids.
  destruct (dedup_spec _ [] Hids) as (unique' & Hd' & Hsub & Hdist & Hfirst).
  rewrite Hd in Hd'. injection Hd' as <-.
  rewrite Forall_forall in Hids. destruct (Hids _ Hx) as (v & Hv & _).
  destruct (dedup_complete _ _ _ Hd _ v Hx Hv) as [Hs|(y & Hy & Hxy)];
    [discriminate|].
  exists y. split; [by apply Hfirst|]. split.
  { unfold same_id in *. by rewrite scored_other in Hxy. }
  assert (Hyr : y ∈ ranked unique) by by rewrite ranked_perm.
  rewrite <-(take_drop 5 (ranked unique)) in Hyr.
  apply elem_of_app in Hyr as [Hyr|Hyr]; [by left|]. right.
  pose proof (ranked_sorted unique) as Hsorted.
  rewrite <-(take_drop 5 (ranked unique)) in Hsorted.
  split.
  - rewrite length_take. apply list_elem_of_lookup_1 in Hyr as [j Hj].
    apply lookup_lt_Some in Hj. rewrite length_drop in Hj. lia.
  - intros z Hz.
    exact (StronglySorted_app_elem _ _ _ z y Hsorted Hz Hyr).
Qed.

(** X16.  The result is empty, which sends the caller to its fallback,
    exactly when the filter keeps no record. *)
Theorem empty_ranking_iff_nothing_kept nf search (title : list N)
  (results ranking : list candidate) :
  search_endpoint nf search ->
  search title results = Ok ranking ->
  ranking = []
  <-> forall i c, results !! i = Some c -> kept nf title i c = false.
Proof.
  intros [-> _]%search_endpoint_spec H.
  apply match_candidates_inv in H as (unique & Hd & ->).
  rewrite take_nil_inv by lia.
  assert (Hr : ranked unique = [] <-> unique = []).
  { split; [|by intros ->].
    intros Hr. apply Permutation_nil_r. rewrite <-Hr. symmetry. apply ranked_perm. }
  rewrite Hr, (dedup_nil_inv _ _ Hd). split.
  - intros Hsel i c Hi. destruct (kept nf title i c) eqn:Hk; [|done].
    pose proof (select_intro nf title c results 0 i Hi Hk) as Hx.
    rewrite Hsel in Hx. by apply elem_of_nil in Hx.
  - intros Hno. destruct (select nf title 0 results) as [|x l] eqn:Hsel; [done|].
    assert (Hx : x ∈ select nf title 0 results) by (rewrite Hsel; by left).
    apply select_elem in Hx as (i & c & Hi & Hk & _).
    change (0 + i)%nat with i in Hk. rewrite (Hno i c Hi) in Hk. discriminate.
Qed.

(** X17.  How the two functions fail.  A record whose display name is
    present and is no string makes them raise [AttributeError].  When all
    names are strings, the first kept record whose identifier is missing or
    cannot be hashed decides: [KeyError] when it is missing, [TypeError]
    when it is a [list] or a [dict].  When every kept record has a hashable
    identifier they return. *)
Theorem search_error_cases nf search (title : list N) (results : list candidate) :
  search_endpoint nf search ->
  (Exists (fun c => name_of nf c = None) results ->
   search title results = Raise AttributeError)
  /\ (Forall (fun c => is_Some (name_of nf c)) results ->
      (forall i c,
         results !! i = Some c -> kept nf title i c = true ->
         ~ hashable_id c ->
         (forall j d, (j < i)%nat -> results !! j = Some d ->
            kept nf title j d = true -> hashable_id d) ->
         search title results
         = match c !! "id" with
           | Some _ => Raise TypeError
           | None => Raise KeyError
           end)
      /\ ((forall i c, results !! i = Some c -> kept nf title i c = true ->
             hashable_id c) ->
          returns (search title results))).
Proof.
  intros [-> _]%search_endpoint_spec. split; [|intros Hn; split].
  - intros H. destruct results as [|c rest]; [by apply Exists_nil in H|].
    unfold match_candidates. by rewrite scan_unnamed.
  - intros i c Hi Hk Hbad Hbefore.
    destruct results as [|d rest]; [done|].
    unfold match_candidates. rewrite scan_named by done. cbn [bind].
    rewrite (select_split nf title _ i c Hi), Hk. cbn [app].
    rewrite dedup_first_bad.
    + rewrite scored_other by done. by destruct (c !! "id").
    + apply Forall_forall. intros x Hx.
      apply select_elem in Hx as (j & e & Hj & Hke & ->).
      apply hashable_id_scored.
      assert (j < i)%nat.
      { apply lookup_lt_Some in Hj. rewrite length_take in Hj. lia. }
      rewrite lookup_take_lt in Hj by done. by eapply Hbefore.
    + by rewrite hashable_id_scored.
  - intros Hid. destruct results as [|d rest]; [by eexists|].
    unfold match_candidates. rewrite scan_named by done. cbn [bind].
    destruct (dedup_spec (select nf title 0 (d :: rest)) [])
      as (unique & -> & Hsub & _).
    { apply Forall_forall. intros x Hx.
      apply select_elem in Hx as (i & c & Hi & Hk & ->).
      apply hashable_id_scored. by eapply Hid. }
    cbn [bind]. rewrite decorate_keyed; [by eexists|].
    apply Forall_forall. intros x Hx.
    pose proof (select_has_score nf title (d :: rest) 0) as Hs.
    rewrite Forall_forall in Hs. apply Hs. by eapply elem_of_sublist.
Qed.

(** X18.  A ["_score"] entry that comes with a provider record has no
    effect: the functions overwrite it. *)
Theorem provider_score_ignored nf search (title : list N)
  (results : list candidate) :
  search_endpoint nf search ->
  search title (delete "_score" <$> results) = search title results.
Proof.
  intros [-> Hnf]%search_endpoint_spec.
  destruct results as [|c rest]; [done|].
  unfold match_candidates.
  rewrite <-(scan_delete_score nf title Hnf (c :: rest) 0). by rewrite fmap_cons.
Qed.


(** X20.  A year [parse_title_with_year] returns is never dropped by
    [api_params]: the request [search_movie] or [search_tv] builds for the
    parsed title and year carries the title as query, page 1 and the year
    in decimal digits that read back as the same number. *)
Theorem parsed_year_forwarded key api_params (s t lang : list N) (y : Z) :
  api_params_of key api_params ->
  parse_title_with_year s = Ok (t, Some y) ->
  let params := api_params (search_params lang t (Some y)) in
  params !! "query" = Some t
  /\ params !! "page" = Some (u "1")
  /\ params !! key = Some (py_str y)
  /\ py_int (py_str y) = Ok y.
Proof.
  intros Hk Hp params.
  assert (Hy : (1 <= y)%Z).
  { apply parse_title_with_year_range in Hp as [[_ ?]|[_ ?]]; lia. }
  subst params. destruct Hk; unfold movie_api_params, tv_api_params.
  all: rewrite !with_year_other by done.
  all: split; [reflexivity|]. all: split; [reflexivity|].
  all: split; [|apply py_int_str; lia].
  all: apply with_year_lookup; [done|]; exists y.
  all: split; [done|]; split; [lia|done].
Qed.

End Properties.

(** * Instances of the further properties *)

Section MoreInstances.
#[local] Existing Instance basic_latin.

Lemma parse_movie_with_year_parenthesized_witness :
  decimal_value 49 = Some 1 /\ decimal_value 57 = Some 9
  /\ Forall (fun c => is_space c = true) [32]
  /\ parse_movie_with_year (u "The Matrix (1999) ")
     = Ok (u "The Matrix", Some 1999%Z).
Proof.
  assert (H1 : decimal_value 49 = Some 1) by reflexivity.
  assert (H9 : decimal_value 57 = Some 9) by reflexivity.
  assert (Hs : Forall (fun c => is_space c = true) [32]) by (repeat constructor).
  split; [exact H1|]. split; [exact H9|]. split; [exact Hs|].
  exact (parse_movie_with_year_parenthesized (u "The Matrix ") [32]
           49 57 57 57 1 9 9 9 H1 H9 H9 H9 Hs).
Defined.

Lemma parse_movie_with_year_inverse_witness :
  parse_movie_with_year (u "Heat (1995)") = Ok (u "Heat", Some 1995%Z)
  /\ exists pre d1 d2 d3 d4 ws,
       u "Heat (1995)" = pre ++ 40 :: d1 :: d2 :: d3 :: d4 :: 41 :: ws
       /\ Forall (fun d => is_decimal d = true) [d1; d2; d3; d4]
       /\ Forall (fun c => is_space c = true) ws
       /\ py_int [d1; d2; d3; d4] = Ok 1995%Z
       /\ u "Heat" = strip pre.
Proof.
  assert (H : parse_movie_with_year (u "Heat (1995)") = Ok (u "Heat", Some 1995%Z))
    by reflexivity.
  split; [exact H|].
  exact (parse_movie_with_year_inverse (u "Heat (1995)") (u "Heat") (Some 1995%Z) H).
Defined.

Lemma parse_title_with_year_bare_witness :
  [32] <> []
  /\ Forall (fun c => is_space c = true) [32]
  /\ century 49 57
  /\ is_decimal 57 = true /\ is_decimal 53 = true
  /\ Forall (fun c => is_space c = true) []
  /\ exists y,
       py_int [49; 57; 57; 53] = Ok y
       /\ (1900 <= y <= 2099)%Z
       /\ parse_title_with_year (u "Heat" ++ [32] ++ 49 :: 57 :: 57 :: 53 :: [])
          = Ok (strip (u "Heat"), Some y).
Proof.
  assert (H1 : [32] <> []) by discriminate.
  assert (H2 : Forall (fun c => is_space c = true) [32]) by (repeat constructor).
  assert (H3 : century 49 57) by (left; split; reflexivity).
  assert (H4 : is_decimal 57 = true) by reflexivity.
  assert (H5 : is_decimal 53 = true) by reflexivity.
  assert (H6 : Forall (fun c => is_space c = true) []) by constructor.
  repeat (split; [assumption|]).
  exact (parse_title_with_year_bare (u "Heat") [32] [] 49 57 57 53 H1 H2 H3 H4 H5 H6).
Defined.

Lemma parse_title_with_year_parenthesized_witness :
  decimal_value 48 = Some 0 /\ decimal_value 49 = Some 1
  /\ decimal_value 53 = Some 5 /\ decimal_value 57 = Some 9
  /\ Forall (fun c => is_space c = true) []
  /\ parse_title_with_year (u "Heat (1995)") = Ok (u "Heat", Some 1995%Z)
  /\ parse_title_with_year (u "X (0000)") = Ok (u "X (0000)", None).
Proof.
  assert (H0 : decimal_value 48 = Some 0) by reflexivity.
  assert (H1 : decimal_value 49 = Some 1) by reflexivity.
  assert (H5 : decimal_value 53 = Some 5) by reflexivity.
  assert (H9 : decimal_value 57 = Some 9) by reflexivity.
  assert (Hs : Forall (fun c => is_space c = true) []) by constructor.
  split; [exact H0|]. split; [exact H1|]. split; [exact H5|]. split; [exact H9|].
  split; [exact Hs|]. split.
  - exact (parse_title_with_year_parenthesized (u "Heat ") []
             49 57 57 53 1 9 9 5 H1 H9 H9 H5 Hs).
  - exact (parse_title_with_year_parenthesized (u "X ") []
             48 48 48 48 0 0 0 0 H0 H0 H0 H0 Hs).
Defined.

Lemma parse_title_with_year_inverse_witness :
  parse_title_with_year (u "Heat 1995") = Ok (u "Heat", Some 1995%Z)
  /\ ((exists pre d1 d2 d3 d4 ws y,
         u "Heat 1995" = pre ++ 40 :: d1 :: d2 :: d3 :: d4 :: 41 :: ws
         /\ Forall (fun d => is_decimal d = true) [d1; d2; d3; d4]
         /\ Forall (fun c => is_space c = true) ws
         /\ py_int [d1; d2; d3; d4] = Ok y /\ y <> 0%Z
         /\ u "Heat" = strip pre /\ Some 1995%Z = Some y)
      \/ (exists pre ws1 c1 c2 d3 d4 ws2 y,
            u "Heat 1995" = pre ++ ws1 ++ c1 :: c2 :: d3 :: d4 :: ws2
            /\ ws1 <> [] /\ Forall (fun c => is_space c = true) ws1
            /\ century c1 c2 /\ is_decimal d3 = true /\ is_decimal d4 = true
            /\ Forall (fun c => is_space c = true) ws2
            /\ py_int [c1; c2; d3; d4] = Ok y
            /\ u "Heat" = strip pre /\ Some 1995%Z = Some y)
      \/ (u "Heat" = strip (u "Heat 1995") /\ Some 1995%Z = None)).
Proof.
  assert (H : parse_title_with_year (u "Heat 1995") = Ok (u "Heat", Some 1995%Z))
    by reflexivity.
  split; [exact H|].
  exact (parse_title_with_year_inverse (u "Heat 1995") (u "Heat") (Some 1995%Z) H).
Defined.

Lemma parsed_title_stripped_witness :
  (parse_movie_with_year (u " Heat 1995 ") = Ok (u "Heat", Some 1995%Z)
   \/ parse_title_with_year (u " Heat 1995 ") = Ok (u "Heat", Some 1995%Z))
  /\ strip (u "Heat") = u "Heat"
  /\ u "Heat" `prefix_of` lstrip (u " Heat 1995 ").
Proof.
  assert (H : parse_movie_with_year (u " Heat 1995 ") = Ok (u "Heat", Some 1995%Z)
              \/ parse_title_with_year (u " Heat 1995 ") = Ok (u "Heat", Some 1995%Z))
    by (right; reflexivity).
  split; [exact H|].
  exact (parsed_title_stripped (u " Heat 1995 ") (u "Heat") (Some 1995%Z) H).
Defined.

Lemma quote_or_paren_year_is_specific_witness :
  (has_quote (u "top movies (1999)") \/ has_paren_year (u "top movies (1999)"))
  /\ is_specific_title_query (u "top movies (1999)") = Ok true.
Proof.
  assert (H : has_quote (u "top movies (1999)")
              \/ has_paren_year (u "top movies (1999)")).
  { right. exists (u "top movies "), 49, 57, 57, 57, [].
    split; [reflexivity|]. split; [left; split; reflexivity|].
    split; reflexivity. }
  split; [exact H|].
  exact (quote_or_paren_year_is_specific (u "top movies (1999)") H).
Defined.

Lemma decade_token_is_discovery_witness :
  u "abc1980sxyz" = u "abc" ++ 49 :: 57 :: 56 :: 48 :: 115 :: u "xyz"
  /\ 56 ∈ [54; 55; 56; 57] /\ 115 ∈ [115; 83]
  /\ ~ has_quote (u "abc1980sxyz") /\ ~ has_paren_year (u "abc1980sxyz")
  /\ is_specific_title_query (u "abc1980sxyz") = Ok false.
Proof.
  assert (H1 : u "abc1980sxyz" = u "abc" ++ 49 :: 57 :: 56 :: 48 :: 115 :: u "xyz")
    by reflexivity.
  assert (H2 : 56 ∈ [54; 55; 56; 57]) by (repeat constructor).
  assert (H3 : 115 ∈ [115; 83]) by (repeat constructor).
  assert (H4 : ~ has_quote (u "abc1980sxyz")).
  { intros [m Hm]%quote_search. vm_compute in Hm. discriminate Hm. }
  assert (H5 : ~ has_paren_year (u "abc1980sxyz")).
  { intros [m Hm]%paren_year_search. vm_compute in Hm. discriminate Hm. }
  repeat (split; [assumption|]).
  exact (decade_token_is_discovery (u "abc1980sxyz") (u "abc") (u "xyz") 56 115
           H1 H2 H3 H4 H5).
Defined.

Lemma plain_query_word_count_witness :
  u "the matrix" <> []
  /\ ~ has_quote (u "the matrix") /\ ~ has_paren_year (u "the matrix")
  /\ ~ Exists (fun w => occurs_in w (lower (u "the matrix")))
         (discovery_words ++ century_words)
  /\ is_specific_title_query (u "the matrix")
     = Ok (length (split (lower (u "the matrix"))) <=? 6)%nat.
Proof.
  assert (H1 : u "the matrix" <> []) by discriminate.
  assert (H2 : ~ has_quote (u "the matrix")).
  { intros [m Hm]%quote_search. vm_compute in Hm. discriminate Hm. }
  assert (H3 : ~ has_paren_year (u "the matrix")).
  { intros [m Hm]%paren_year_search. vm_compute in Hm. discriminate Hm. }
  assert (H4 : ~ Exists (fun w => occurs_in w (lower (u "the matrix")))
                 (discovery_words ++ century_words)).
  { apply no_word_occurs. vm_compute. reflexivity. }
  repeat (split; [assumption|]).
  exact (plain_query_word_count (u "the matrix") H1 H2 H3 H4).
Defined.

Lemma intent_needs_word_witness :
  detect_user_intent (u "best movies") = Ok (Some MOVIE)
  /\ Exists (fun w => occurs_in w (lower (u "best movies"))) movie_words.
Proof.
  assert (H : detect_user_intent (u "best movies") = Ok (Some MOVIE)) by reflexivity.
  split; [exact H|].
  exact (proj1 (intent_needs_word (u "best movies")) H).
Defined.

Lemma intent_of_single_kind_witness :
  lower (u "funny movies") = u "funny " ++ u "movies" ++ []
  /\ ends_word (u "funny ") = false /\ starts_word [] = false
  /\ u "movies" ∈ movie_terms
  /\ ~ Exists (fun v => occurs_in v (lower (u "funny movies"))) series_words
  /\ detect_user_intent (u "funny movies") = Ok (Some MOVIE).
Proof.
  assert (H1 : lower (u "funny movies") = u "funny " ++ u "movies" ++ [])
    by reflexivity.
  assert (H2 : ends_word (u "funny ") = false) by reflexivity.
  assert (H3 : starts_word [] = false) by reflexivity.
  assert (H4 : u "movies" ∈ movie_terms) by (unfold movie_terms; repeat constructor).
  assert (H5 : ~ Exists (fun v => occurs_in v (lower (u "funny movies")))
                 series_words).
  { apply no_word_occurs. vm_compute. reflexivity. }
  repeat (split; [assumption|]).
  exact (proj1 (intent_of_single_kind (u "funny movies") (u "funny ") (u "movies") []
                  H1 H2 H3) H4 H5).
Defined.

Lemma intent_of_mixed_query_witness :
  lower (u "movies series") = [] ++ u "movies" ++ u " series"
  /\ ends_word [] = false /\ starts_word (u " series") = false
  /\ u "movies" ∈ movie_terms
  /\ lower (u "movies series") = u "movies " ++ u "series" ++ []
  /\ ends_word (u "movies ") = false /\ starts_word [] = false
  /\ u "series" ∈ series_terms
  /\ detect_user_intent (u "movies series") = Ok None.
Proof.
  assert (H1 : lower (u "movies series") = [] ++ u "movies" ++ u " series")
    by reflexivity.
  assert (H2 : ends_word [] = false) by reflexivity.
  assert (H3 : starts_word (u " series") = false) by reflexivity.
  assert (H4 : u "movies" ∈ movie_terms) by (unfold movie_terms; repeat constructor).
  assert (H5 : lower (u "movies series") = u "movies " ++ u "series" ++ [])
    by reflexivity.
  assert (H6 : ends_word (u "movies ") = false) by reflexivity.
  assert (H7 : starts_word [] = false) by reflexivity.
  assert (H8 : u "series" ∈ series_terms) by (unfold series_terms; repeat constructor).
  split; [exact H1|]. split; [exact H2|]. split; [exact H3|]. split; [exact H4|].
  split; [exact H5|]. split; [exact H6|]. split; [exact H7|]. split; [exact H8|].
  exact (intent_of_mixed_query (u "movies series") [] (u "movies") (u " series")
           (u "movies ") (u "series") [] H1 H2 H3 H4 H5 H6 H7 H8).
Defined.

Lemma returned_scores_above_threshold_witness :
  let r1 : candidate := {["id" := VInt 1; "title" := VStr (u "x y")]} in
  let x : candidate := <["_score" := VFloat (2 # 4)]> r1 in
  search_endpoint "title" search_movie
  /\ search_movie (u "x") [r1] = Ok [x]
  /\ x ∈ [x]
  /\ ((RELAXED_MATCH_THRESHOLD <= score x)%Q
      \/ (exists c, [r1] !! 0%nat = Some c /\ x = scored "title" (u "x") c
            /\ (TOP_RESULT_THRESHOLD <= score x)%Q)).
Proof.
  intros r1 x.
  assert (He : search_endpoint "title" search_movie) by constructor.
  assert (Hr : search_movie (u "x") [r1] = Ok [x]) by reflexivity.
  assert (Hx : x ∈ [x]) by constructor.
  split; [exact He|]. split; [exact Hr|]. split; [exact Hx|].
  exact (returned_scores_above_threshold "title" search_movie (u "x") [r1] [x] x
           He Hr Hx).
Defined.

Lemma score_one_iff_exact_witness :
  let r1 : candidate := {["id" := VInt 1; "title" := VStr (u "X")]} in
  let x : candidate := <["_score" := VFloat 1.0]> r1 in
  search_endpoint "title" search_movie
  /\ search_movie (u "x") [r1] = Ok [x]
  /\ x ∈ [x]
  /\ exists c, c ∈ [r1] /\ x = scored "title" (u "x") c
       /\ ((score x == 1)%Q <-> exact "title" (u "x") c = true).
Proof.
  intros r1 x.
  assert (He : search_endpoint "title" search_movie) by constructor.
  assert (Hr : search_movie (u "x") [r1] = Ok [x]) by reflexivity.
  assert (Hx : x ∈ [x]) by constructor.
  split; [exact He|]. split; [exact Hr|]. split; [exact Hx|].
  exact (score_one_iff_exact "title" search_movie (u "x") [r1] [x] x He Hr Hx).
Defined.

Lemma ranking_keeps_best_witness :
  let r1 : candidate := {["id" := VInt 1; "title" := VStr (u "x y")]} in
  let r2 : candidate := {["id" := VInt 2; "title" := VStr (u "X")]} in
  let ranking : list candidate :=
    [<["_score" := VFloat 1.0]> r2; <["_score" := VFloat (2 # 4)]> r1] in
  search_endpoint "title" search_movie
  /\ search_movie (u "x") [r1; r2] = Ok ranking
  /\ [r1; r2] !! 1%nat = Some r2
  /\ kept "title" (u "x") 1 r2 = true
  /\ exists y,
       first_with_id (select "title" (u "x") 0 [r1; r2]) y
       /\ same_id r2 y = true
       /\ (y ∈ ranking
           \/ (length ranking = 5%nat
               /\ forall z, z ∈ ranking -> (score y <= score z)%Q)).
Proof.
  intros r1 r2 ranking.
  assert (He : search_endpoint "title" search_movie) by constructor.
  assert (Hr : search_movie (u "x") [r1; r2] = Ok ranking) by reflexivity.
  assert (Hi : [r1; r2] !! 1%nat = Some r2) by reflexivity.
  assert (Hk : kept "title" (u "x") 1 r2 = true) by reflexivity.
  split; [exact He|]. split; [exact Hr|]. split; [exact Hi|]. split; [exact Hk|].
  exact (ranking_keeps_best "title" search_movie (u "x") [r1; r2] ranking 1 r2
           He Hr Hi Hk).
Defined.

Lemma empty_ranking_iff_nothing_kept_witness :
  let r1 : candidate := {["id" := VInt 1; "title" := VStr (u "zzz")]} in
  search_endpoint "title" search_movie
  /\ search_movie (u "x") [r1] = Ok []
  /\ (@nil candidate = []
      <-> forall i c, [r1] !! i = Some c -> kept "title" (u "x") i c = false).
Proof.
  intros r1.
  assert (He : search_endpoint "title" search_movie) by constructor.
  assert (Hr : search_movie (u "x") [r1] = Ok []) by reflexivity.
  split; [exact He|]. split; [exact Hr|].
  exact (empty_ranking_iff_nothing_kept "title" search_movie (u "x") [r1] [] He Hr).
Defined.

Lemma search_error_cases_witness :
  let r1 : candidate := {["id" := VInt 1; "title" := VNull]} in
  let r2 : candidate := {["id" := VList [VInt 1]; "title" := VStr (u "x")]} in
  let r3 : candidate := {["title" := VStr (u "x")]} in
  search_endpoint "title" search_movie
  /\ Exists (fun c => name_of "title" c = None) [r1]
  /\ search_movie (u "x") [r1] = Raise AttributeError
  /\ Forall (fun c => is_Some (name_of "title" c)) [r2; r3]
  /\ ~ hashable_id r2
  /\ search_movie (u "x") [r2; r3] = Raise TypeError
  /\ Forall (fun c => is_Some (name_of "title" c)) [r3; r2]
  /\ ~ hashable_id r3
  /\ search_movie (u "x") [r3; r2] = Raise KeyError.
Proof.
  intros r1 r2 r3.
  assert (He : search_endpoint "title" search_movie) by constructor.
  assert (Hn : Exists (fun c => name_of "title" c = None) [r1])
    by (constructor; reflexivity).
  assert (Hs : Forall (fun c => is_Some (name_of "title" c)) [r2; r3])
    by (repeat constructor; eexists; reflexivity).
  assert (Hs' : Forall (fun c => is_Some (name_of "title" c)) [r3; r2])
    by (repeat constructor; eexists; reflexivity).
  assert (H2 : ~ hashable_id r2).
  { intros (v & Hv & Hh). vm_compute in Hv. injection Hv as <-. discriminate Hh. }
  assert (H3 : ~ hashable_id r3).
  { intros (v & Hv & Hh). vm_compute in Hv. discriminate Hv. }
  assert (Hfirst : forall (l : list candidate) j d, (j < 0)%nat -> l !! j = Some d ->
            kept "title" (u "x") j d = true -> hashable_id d)
    by (intros l j d Hj; lia).
  split; [exact He|]. split; [exact Hn|].
  split; [exact (proj1 (search_error_cases "title" search_movie (u "x") [r1] He) Hn)|].
  split; [exact Hs|]. split; [exact H2|].
  split.
  { exact (proj1 (proj2 (search_error_cases "title" search_movie (u "x") [r2; r3] He)
                    Hs) 0%nat r2 eq_refl eq_refl H2 (Hfirst [r2; r3])). }
  split; [exact Hs'|]. split; [exact H3|].
  exact (proj1 (proj2 (search_error_cases "title" search_movie (u "x") [r3; r2] He)
                  Hs') 0%nat r3 eq_refl eq_refl H3 (Hfirst [r3; r2])).
Defined.

Lemma provider_score_ignored_witness :
  let r1 : candidate :=
    {["id" := VInt 1; "title" := VStr (u "x"); "_score" := VFloat 0.1]} in
  search_endpoint "title" search_movie
  /\ search_movie (u "x") (delete "_score" <$> [r1]) = search_movie (u "x") [r1].
Proof.
  intros r1.
  assert (He : search_endpoint "title" search_movie) by constructor.
  split; [exact He|].
  exact (provider_score_ignored "title" search_movie (u "x") [r1] He).
Defined.


Lemma parsed_year_forwarded_witness :
  let params := tv_api_params (search_params (u "en-US") (u "Heat") (Some 1995%Z)) in
  api_params_of "first_air_date_year" tv_api_params
  /\ parse_title_with_year (u "Heat 1995") = Ok (u "Heat", Some 1995%Z)
  /\ params !! "query" = Some (u "Heat")
  /\ params !! "page" = Some (u "1")
  /\ params !! "first_air_date_year" = Some (py_str 1995)
  /\ py_int (py_str 1995) = Ok 1995%Z.
Proof.
  intros params.
  assert (Hk : api_params_of "first_air_date_year" tv_api_params) by constructor.
  assert (Hp : parse_title_with_year (u "Heat 1995") = Ok (u "Heat", Some 1995%Z))
    by reflexivity.
  split; [exact Hk|]. split; [exact Hp|].
  exact (parsed_year_forwarded "first_air_date_year" tv_api_params (u "Heat 1995")
           (u "Heat") (u "en-US") 1995 Hk Hp).
Defined.

End MoreInstances.
